(** * calendly-attio-sync: correlation stores and transcript polling

    A shallow embedding of the correlation and retry core of the
    repository:

    - [normalizeLinkedInUrl], [addPendingLead], [getPendingLead],
      [hasPendingLead]   (services/heyreach-store.js)
    - [addBooking], [findMatch], [emailsAlign], [normalizeUrl], [cleanup]
      (services/meeting-store.js)
    - [pollForTranscript]   (services/calendly.js) with the retry settings
      of [getConfig]        (services/config.js)

    and of the handlers that combine them:

    - [generateSummary]   (services/openai.js)
    - [handleCalendlyWebhook]   (services/webhook-handler.js) with
      [sendSlackError]   (services/slack.js)
    - [getFathomAccountConfig]   (services/config.js),
      [verifyFathomWebhook], [processFathomWebhook]   (services/fathom.js)
      and the signature check and correlation of [handleFathomWebhook]
      (services/fathom-handler.js)
    - [handleHeyReachWebhook]   (services/heyreach-handler.js),
      [extractClayData], [handleClayWebhook]   (services/clay-handler.js)

    Conventions.  A JavaScript string is a [string]; each [ascii] is one
    code unit in the range 0..255, and the string built-ins below are the
    ECMAScript ones restricted to that range.  A possibly absent value
    ([null] or [undefined], which the code only ever tests by truthiness)
    is an [option]; [truthy] is JavaScript's ToBoolean on such a value.
    Clock readings ([Date.now()]) are explicit [Z] arguments in
    milliseconds. *)

From Stdlib Require Import ZArith Ascii String Lia.
From stdpp Require Import base option list gmap strings.

Local Open Scope Z_scope.

(** ** ECMAScript string built-ins *)

Module JS.

(** ToBoolean on an optional string: absent and the empty string are
    falsy. *)
Definition truthy (v : option string) : bool :=
  match v with
  | Some (String _ _) => true
  | _ => false
  end.

(** [String.prototype.toLowerCase] on one code unit below 256: the
    ASCII capitals and the Latin-1 capitals U+00C0..U+00DE except the
    multiplication sign U+00D7. *)
Definition toLowerCase_char (c : ascii) : ascii :=
  let n := N_of_ascii c in
  if ((65 <=? n) && (n <=? 90))%N
     || ((192 <=? n) && (n <=? 222) && negb (n =? 215))%N
  then ascii_of_N (n + 32)
  else c.

Fixpoint toLowerCase (s : string) : string :=
  match s with
  | EmptyString => EmptyString
  | String c s' => String (toLowerCase_char c) (toLowerCase s')
  end.

(** WhiteSpace and LineTerminator code units below 256: TAB, LF, VT,
    FF, CR, SP and NBSP. *)
Definition isWhiteSpace (c : ascii) : bool :=
  let n := N_of_ascii c in
  ((9 <=? n) && (n <=? 13) || (n =? 32) || (n =? 160))%N.

Definition isSlash (c : ascii) : bool := Ascii.eqb c "/".

Fixpoint dropWhile (p : ascii → bool) (s : string) : string :=
  match s with
  | EmptyString => EmptyString
  | String c s' => if p c then dropWhile p s' else s
  end.

Fixpoint takeWhile (p : ascii → bool) (s : string) : string :=
  match s with
  | EmptyString => EmptyString
  | String c s' => if p c then String c (takeWhile p s') else EmptyString
  end.

(** Removes the longest suffix all of whose code units satisfy [p]. *)
Fixpoint dropEndWhile (p : ascii → bool) (s : string) : string :=
  match s with
  | EmptyString => EmptyString
  | String c s' =>
      match dropEndWhile p s' with
      | EmptyString => if p c then EmptyString else String c EmptyString
      | r => String c r
      end
  end.

(** [String.prototype.trim]. *)
Definition trim (s : string) : string :=
  dropEndWhile isWhiteSpace (dropWhile isWhiteSpace s).

(** [s.split(sep)[0]] for a one-character separator: the text before
    the first [sep], all of [s] when there is none. *)
Definition split_first (sep : ascii) (s : string) : string :=
  takeWhile (λ c, negb (Ascii.eqb c sep)) s.

(** [s.replace(/\/+$/, '')]: the leftmost match of a run of slashes
    anchored at the end is the whole final run. *)
Definition replace_trailing_slashes (s : string) : string :=
  dropEndWhile isSlash s.

Fixpoint stripPrefix (p s : string) : option string :=
  match p, s with
  | EmptyString, _ => Some s
  | String a p', String b s' =>
      if Ascii.eqb a b then stripPrefix p' s' else None
  | String _ _, EmptyString => None
  end.

(** [s.match(/linkedin\.com\/in\/([^\/]+)/)], returning capture group
    1.  Start positions are tried left to right; at each one the
    literal must be followed by at least one non-slash code unit, and
    the greedy class takes the whole run. *)
Fixpoint match_linkedin_in (s : string) : option string :=
  match s with
  | EmptyString => None
  | String _ s' =>
      match stripPrefix "linkedin.com/in/" s with
      | Some rest =>
          match takeWhile (λ c, negb (isSlash c)) rest with
          | EmptyString => match_linkedin_in s'
          | handle => Some handle
          end
      | None => match_linkedin_in s'
      end
  end.

(** Predicates used to state facts about the functions above. *)
Fixpoint all (p : ascii → bool) (s : string) : bool :=
  match s with
  | EmptyString => true
  | String c s' => p c && all p s'
  end.

Definition starts_with (p : ascii → bool) (s : string) : bool :=
  match s with
  | String c _ => p c
  | EmptyString => false
  end.

Fixpoint ends_with (p : ascii → bool) (s : string) : bool :=
  match s with
  | EmptyString => false
  | String c s' =>
      match s' with
      | EmptyString => p c
      | String _ _ => ends_with p s'
      end
  end.

End JS.

(** ** services/heyreach-store.js *)

Definition normalizeLinkedInUrl (linkedinUrl : option string) : option string :=
  match linkedinUrl with
  | None => None
  | Some EmptyString => None
  | Some s =>
      let url := JS.trim (JS.toLowerCase s) in
      let url := JS.split_first "?" url in
      let url := JS.replace_trailing_slashes url in
      match JS.match_linkedin_in url with
      | Some handle => Some ("https://www.linkedin.com/in/" +:+ handle)
      | None => Some url
      end
  end.

(** The pending-lead object: the fields [extractLeadData] produces, and
    [addedAt], which only stored leads carry. *)
Record lead := Lead {
  linkedinUrl : option string;
  name : string;
  firstName : string;
  lastName : string;
  company : string;
  title : string;
  conversation : string;
  taggedAt : string;
  tag : string;
  addedAt : option string
}.

(** [{ ...lead, linkedinUrl: normalizedUrl, addedAt: isoNow }] *)
Definition stamp_lead (l : lead) (normalizedUrl isoNow : string) : lead :=
  {| linkedinUrl := Some normalizedUrl;
     name := name l; firstName := firstName l; lastName := lastName l;
     company := company l; title := title l;
     conversation := conversation l; taggedAt := taggedAt l; tag := tag l;
     addedAt := Some isoNow |}.

(** [pendingLeads] is a [Map] used through [get], [set], [delete], [has]
    and [size] only, so its iteration order is not observable: a [gmap].
    Each operation takes the store and returns the result with the
    updated store.  [isoNow] is [new Date().toISOString()]. *)
Definition addPendingLead (isoNow : string) (l : lead)
    (pendingLeads : gmap string lead) : option string * gmap string lead :=
  match normalizeLinkedInUrl (linkedinUrl l) with
  | Some (String _ _ as normalizedUrl) =>
      (Some normalizedUrl,
       <[normalizedUrl := stamp_lead l normalizedUrl isoNow]> pendingLeads)
  | _ => (None, pendingLeads)
  end.

Definition getPendingLead (linkedinUrl : option string)
    (pendingLeads : gmap string lead) : option lead * gmap string lead :=
  match normalizeLinkedInUrl linkedinUrl with
  | Some (String _ _ as normalizedUrl) =>
      match pendingLeads !! normalizedUrl with
      | Some l => (Some l, delete normalizedUrl pendingLeads)
      | None => (None, pendingLeads)
      end
  | _ => (None, pendingLeads)
  end.

Definition hasPendingLead (linkedinUrl : option string)
    (pendingLeads : gmap string lead) : bool * gmap string lead :=
  match normalizeLinkedInUrl linkedinUrl with
  | Some (String _ _ as normalizedUrl) =>
      (bool_decide (is_Some (pendingLeads !! normalizedUrl)), pendingLeads)
  | _ => (false, pendingLeads)
  end.

Definition getPendingCount (pendingLeads : gmap string lead) : nat :=
  size pendingLeads.

(** A normal form on which [normalizeLinkedInUrl] has nothing left to do:
    [null], or a non-empty string that does not end in white space. *)
Definition trimmed (v : option string) : bool :=
  match v with
  | None => true
  | Some EmptyString => false
  | Some s => negb (JS.ends_with JS.isWhiteSpace s)
  end.

(** The invariant of the pending-lead store: every key is a non-empty
    output of [normalizeLinkedInUrl], equal to the [linkedinUrl] field of
    its entry, and every entry carries an [addedAt] stamp. *)
Definition pending_leads_inv (pendingLeads : gmap string lead) : Prop :=
  ∀ key l, pendingLeads !! key = Some l →
    key ≠ ""
    ∧ (∃ x, normalizeLinkedInUrl x = Some key)
    ∧ linkedinUrl l = Some key
    ∧ is_Some (addedAt l).

(** The same with every key a fixed point of [normalizeLinkedInUrl]. *)
Definition pending_leads_fixed_inv (pendingLeads : gmap string lead) : Prop :=
  ∀ key l, pendingLeads !! key = Some l →
    normalizeLinkedInUrl (Some key) = Some key ∧ linkedinUrl l = Some key.

(** The calls a client of the module can make, and the store after one. *)
Inductive lead_call :=
| AddPendingLead (isoNow : string) (l : lead)
| GetPendingLead (linkedinUrl : option string)
| HasPendingLead (linkedinUrl : option string).

Definition lead_step (pendingLeads : gmap string lead) (c : lead_call)
    : gmap string lead :=
  match c with
  | AddPendingLead isoNow l => (addPendingLead isoNow l pendingLeads).2
  | GetPendingLead linkedinUrl => (getPendingLead linkedinUrl pendingLeads).2
  | HasPendingLead linkedinUrl => (hasPendingLead linkedinUrl pendingLeads).2
  end.

(** A lead as [extractLeadData] builds it from a payload whose profile
    URL is [raw]. *)
Definition extracted_lead (raw : option string) : lead :=
  {| linkedinUrl := normalizeLinkedInUrl raw;
     name := "John Doe"; firstName := "John"; lastName := "Doe";
     company := "Acme Corp"; title := "VP of Engineering";
     conversation := "[2024-01-15T10:00:00Z] Me: Hi John";
     taggedAt := "2024-01-15T16:45:00Z"; tag := "interested";
     addedAt := None |}.

(** The store after the engagement webhook of the end-to-end scenario:
    one lead, tagged from [https://www.linkedin.com/in/JohnDoe?trk=x]. *)
Definition scenario_pendingLeads : gmap string lead :=
  (addPendingLead "2024-01-15T17:00:00.000Z"
     (extracted_lead (Some "https://www.linkedin.com/in/JohnDoe?trk=x")) ∅).2.

(** ** Host built-ins used by services/meeting-store.js

    [new URL(s)], the [hash] setter, [toString()] and
    [new Date(s).getTime()] belong to the JavaScript host, not to the
    repository.  The meeting store is embedded over any host; [URL_new]
    is [None] where the constructor throws its [TypeError], and
    [Date_getTime] is [None] where the time value is [NaN]. *)
Class Host := {
  URL : Type;
  URL_new : string → option URL;
  URL_clear_hash : URL → URL;      (* [u.hash = ''] *)
  URL_toString : URL → string;
  Date_getTime : string → option Z
}.

(** What the URL Standard promises about its own serialisations: clearing
    the hash twice is clearing it once, and a URL built by the
    constructor, once its hash is cleared, serialises to a string the
    constructor reads back as that same URL. *)
Class HostLaws (H : Host) : Prop := {
  URL_clear_hash_idemp :
    ∀ u : URL, URL_clear_hash (URL_clear_hash u) = URL_clear_hash u;
  URL_reparse :
    ∀ s u, URL_new s = Some u →
      URL_new (URL_toString (URL_clear_hash u)) = Some (URL_clear_hash u)
}.

(** ** services/meeting-store.js *)

Module Booking.
(** [{ eventUuid, meetingUrl, startTime, endTime, guestEmail, guestName,
    hostEmail }] plus the [createdAt] stamp of stored records. *)
Record t := Make {
  eventUuid : string;
  meetingUrl : option string;
  startTime : option string;
  endTime : option string;
  guestEmail : option string;
  guestName : option string;
  hostEmail : option string;
  createdAt : Z
}.

(** [{ ...record, createdAt: now }] *)
Definition stamp (record : t) (now : Z) : t :=
  {| eventUuid := eventUuid record; meetingUrl := meetingUrl record;
     startTime := startTime record; endTime := endTime record;
     guestEmail := guestEmail record; guestName := guestName record;
     hostEmail := hostEmail record; createdAt := now |}.
End Booking.

(** [bookings] is a [Map] that [findMatch] iterates, so insertion order
    is observable: an association list in insertion order. *)
Abbreviation bookings_map := (list (string * Booking.t)).

(** [Map.prototype.set]: an existing key keeps its position, a new key
    goes last. *)
Fixpoint Map_set (key : string) (value : Booking.t) (m : bookings_map)
    : bookings_map :=
  match m with
  | [] => [(key, value)]
  | (k, v) :: m' =>
      if String.eqb k key then (key, value) :: m'
      else (k, v) :: Map_set key value m'
  end.

Definition TTL_MS : Z := 1000 * 60 * 60 * 24.

(** Deleting the visited entry while iterating [entries()] is safe in a
    [Map], so the sweep is a filter. *)
Definition cleanup (now : Z) (bookings : bookings_map) : bookings_map :=
  List.filter (λ '(_, rec), negb (now - Booking.createdAt rec >? TTL_MS))
    bookings.

Definition addBooking (now : Z) (record : Booking.t)
    (bookings : bookings_map) : bookings_map :=
  cleanup now
    (Map_set (Booking.eventUuid record) (Booking.stamp record now) bookings).

(** [a.toLowerCase() === b.toLowerCase()] *)
Definition same_ignoring_case (a b : string) : bool :=
  String.eqb (JS.toLowerCase a) (JS.toLowerCase b).

Definition emailsAlign (rec : Booking.t) (guestEmail hostEmail : option string)
    : bool :=
  let matchGuest :=
    match Booking.guestEmail rec, guestEmail with
    | Some (String _ _ as r), Some (String _ _ as g) => same_ignoring_case r g
    | _, _ => false
    end in
  let matchHost :=
    match Booking.hostEmail rec, hostEmail with
    | Some (String _ _ as r), Some (String _ _ as h) => same_ignoring_case r h
    | _, _ => true
    end in
  matchGuest && matchHost.

(** Email alignment, in the words of the specification. *)
Definition guests_align (rec : Booking.t) (guestEmail : option string) : Prop :=
  ∃ r g, Booking.guestEmail rec = Some r ∧ guestEmail = Some g
         ∧ r ≠ "" ∧ g ≠ "" ∧ JS.toLowerCase r = JS.toLowerCase g.

Definition hosts_align (rec : Booking.t) (hostEmail : option string) : Prop :=
  JS.truthy (Booking.hostEmail rec) = false
  ∨ JS.truthy hostEmail = false
  ∨ ∃ r h, Booking.hostEmail rec = Some r ∧ hostEmail = Some h
           ∧ JS.toLowerCase r = JS.toLowerCase h.

Section MeetingStore.
Context {H : Host}.

Definition normalizeUrl (url : string) : string :=
  match URL_new url with
  | Some u => URL_toString (URL_clear_hash u)
  | None => url
  end.

(** [meetingUrl && rec.meetingUrl &&
     normalizeUrl(rec.meetingUrl) === normalizeUrl(meetingUrl)] *)
Definition url_rule (rec : Booking.t) (meetingUrl : option string) : bool :=
  match meetingUrl, Booking.meetingUrl rec with
  | Some (String _ _ as m), Some (String _ _ as r) =>
      String.eqb (normalizeUrl r) (normalizeUrl m)
  | _, _ => false
  end.

(** [startTime && rec.startTime] and [delta <= 15 * 60 * 1000]; a [NaN]
    delta compares false. *)
Definition time_rule (rec : Booking.t) (startTime : option string) : bool :=
  match startTime, Booking.startTime rec with
  | Some (String _ _ as s), Some (String _ _ as r) =>
      match Date_getTime r, Date_getTime s with
      | Some tr, Some ts => Z.abs (tr - ts) <=? 15 * 60 * 1000
      | _, _ => false
      end
  | _, _ => false
  end.

(** One pass through the loop body: [true] when it returns [rec]. *)
Definition qualifies (rec : Booking.t)
    (meetingUrl guestEmail hostEmail startTime : option string) : bool :=
  if url_rule rec meetingUrl && emailsAlign rec guestEmail hostEmail
  then true
  else time_rule rec startTime && emailsAlign rec guestEmail hostEmail.

Fixpoint findMatch_loop (entries : bookings_map)
    (meetingUrl guestEmail hostEmail startTime : option string)
    : option Booking.t :=
  match entries with
  | [] => None
  | (_, rec) :: rest =>
      if qualifies rec meetingUrl guestEmail hostEmail startTime
      then Some rec
      else findMatch_loop rest meetingUrl guestEmail hostEmail startTime
  end.

Definition findMatch (now : Z)
    (meetingUrl guestEmail hostEmail startTime : option string)
    (bookings : bookings_map) : option Booking.t * bookings_map :=
  let bookings := cleanup now bookings in
  if negb (JS.truthy meetingUrl) && negb (JS.truthy startTime)
  then (None, bookings)
  else (findMatch_loop bookings meetingUrl guestEmail hostEmail startTime,
        bookings).

(** [rec] is the first entry of [entries], in iteration order, on which
    the loop body returns. *)
Definition first_qualifying (entries : bookings_map)
    (meetingUrl guestEmail hostEmail startTime : option string)
    (rec : Booking.t) : Prop :=
  ∃ before key after,
    entries = before ++ (key, rec) :: after
    ∧ Forall (λ kr, qualifies kr.2 meetingUrl guestEmail hostEmail startTime
                    = false) before
    ∧ qualifies rec meetingUrl guestEmail hostEmail startTime = true.

End MeetingStore.

(** ** services/calendly.js, with the retry settings of services/config.js *)

Module Calendly.

Record retry_settings := {
  maxAttempts : nat;
  baseDelayMs : Z;
  maxDelayMs : Z
}.

Record config := {
  calendlyPat : option string;
  retry : retry_settings
}.

(** The part of [getConfig()] that [pollForTranscript] reads. *)
Definition getConfig (CALENDLY_PAT : option string) : config :=
  {| calendlyPat := CALENDLY_PAT;
     retry := {| maxAttempts := 5; baseDelayMs := 30000;
                 maxDelayMs := 900000 |} |}.

(** The response body as far as the function looks into it. *)
Record meeting_notes_t := {
  notes_transcript : option string;
  notes_transcription : option string;
  notes_summary : option string
}.

Record resource_t := {
  meeting_notes : option meeting_notes_t;
  transcript : option string;
  transcription : option string
}.

(** [response.data]: an optional [resource] property, and the object's own
    [meeting_notes], [transcript] and [transcription] properties. *)
Record data_t := {
  resource : option resource_t;
  own : resource_t
}.

(** [data] is [None] for a body that is [null] or [undefined], on which a
    property access throws. *)
Record response := { data : option data_t }.

(** A thrown value, with [error.response?.status] and [error.message]. *)
Record error := {
  status : option Z;
  message : string
}.

Inductive outcome :=
| Resolves (r : response)
| Rejects (e : error).

Inductive level := info | warn | log_error.

Inductive log_text :=
| PollingAttempt (attempt maxAttempts : nat)
| TranscriptFound (length : nat)
| TranscriptNotReady
| EventNotFound
| CalendlyApiError (status : option Z) (message : string)
| Waiting (delayMs : Z).

Inductive event :=
| Log (l : level) (t : log_text)
| Get (eventUuid : string) (bearer : option string)
| Sleep (ms : Z).

(** The world the function runs in: how many requests have been issued,
    and everything it has done so far (oldest first). *)
Record world := {
  requests : nat;
  trace : list event
}.

(** Computations that act on the world and either return or throw. *)
Definition M (A : Type) : Type := world → world * (error + A).

#[global] Instance M_ret : MRet M := λ A a w, (w, inr a).

#[global] Instance M_bind : MBind M := λ A B f m w,
  match m w with
  | (w', inr a) => f a w'
  | (w', inl e) => (w', inl e)
  end.

Definition throw {A} (e : error) : M A := λ w, (w, inl e).

(** [try { body } catch (error) { handler(error) }] *)
Definition try_catch {A} (body : M A) (handler : error → M A) : M A := λ w,
  match body w with
  | (w', inl e) => handler e w'
  | r => r
  end.

Definition emit (e : event) : M () := λ w,
  ({| requests := requests w; trace := trace w ++ [e] |}, inr ()).

Definition log (l : level) (t : log_text) : M () := emit (Log l t).

Definition sleep (ms : Z) : M () := emit (Sleep ms).

Section Polling.
(** The remote side: what the [n]-th request (counting from 0) settles
    to. *)
Variable fetch : nat → outcome.

Definition axios_get (eventUuid : string) (bearer : option string)
    : M response := λ w,
  let w' := {| requests := S (requests w);
               trace := trace w ++ [Get eventUuid bearer] |} in
  match fetch (requests w) with
  | Resolves r => (w', inr r)
  | Rejects e => (w', inl e)
  end.

(** JavaScript's [a || b] on optional strings. *)
Definition or_else (a b : option string) : option string :=
  if JS.truthy a then a else b.

(** [meetingNotes?.transcript || meetingNotes?.transcription ||
     meetingNotes?.summary || resource.transcript ||
     resource.transcription] *)
Definition transcript_of (r : resource_t) : option string :=
  let meetingNotes := meeting_notes r in
  or_else (meetingNotes ≫= notes_transcript)
    (or_else (meetingNotes ≫= notes_transcription)
      (or_else (meetingNotes ≫= notes_summary)
        (or_else (transcript r) (transcription r)))).

(** [transcript && transcript.length > 50] *)
Definition valid_transcript (t : option string) : bool :=
  match t with
  | Some s => JS.truthy t && (50 <? String.length s)%nat
  | None => false
  end.

Definition TypeError : error :=
  {| status := None; message := "Cannot read properties" |}.

(** The [try] block and its [catch]: [Some t] when the function returns
    the transcript [t], [None] when control falls through to the backoff. *)
Definition attempt_once (eventUuid : string) (cfg : config)
    : M (option string) :=
  try_catch
    (response ← axios_get eventUuid (calendlyPat cfg);
     d ← match data response with
         | Some d => mret d
         | None => throw TypeError
         end;
     let resource := default (own d) (resource d) in
     let transcript := transcript_of resource in
     match transcript with
     | Some t =>
         if valid_transcript transcript
         then log info (TranscriptFound (String.length t));; mret (Some t)
         else log info TranscriptNotReady;; mret None
     | None => log info TranscriptNotReady;; mret None
     end)
    (λ error,
       (if bool_decide (status error = Some 404)
        then log warn EventNotFound
        else log log_error (CalendlyApiError (status error) (message error)));;
       mret None).

(** The [for] loop from [attempt], with [remaining] iterations left before
    [attempt <= maxAttempts] fails. *)
Fixpoint poll_from (eventUuid : string) (cfg : config)
    (remaining attempt : nat) : M (option string) :=
  match remaining with
  | O => mret None
  | S remaining' =>
      log info (PollingAttempt attempt (maxAttempts (retry cfg)));;
      r ← attempt_once eventUuid cfg;
      match r with
      | Some t => mret (Some t)
      | None =>
          (if (attempt <? maxAttempts (retry cfg))%nat
           then
             let delayMs :=
               baseDelayMs (retry cfg) * 2 ^ (Z.of_nat attempt - 1) in
             log info (Waiting delayMs);;
             sleep delayMs
           else mret ());;
          poll_from eventUuid cfg remaining' (S attempt)
      end
  end.

Definition pollForTranscript (eventUuid : string) (cfg : config)
    : M (option string) :=
  poll_from eventUuid cfg (maxAttempts (retry cfg)) 1.

End Polling.

Definition initial_world : world := {| requests := 0; trace := [] |}.

(** The requests and waits of a trace, in order, without the log lines. *)
Definition io_of (t : list event) : list event :=
  List.filter (λ e, match e with Log _ _ => false | _ => true end) t.

Definition sleeps_of (t : list event) : list Z :=
  omap (λ e, match e with Sleep ms => Some ms | _ => None end) t.

(** A request that can never end the polling: it rejects, or it resolves
    to a body in which no valid transcript is found. *)
Definition never_ready (o : outcome) : Prop :=
  match o with
  | Rejects _ => True
  | Resolves r =>
      match data r with
      | None => True
      | Some d =>
          valid_transcript (transcript_of (default (own d) (resource d)))
          = false
      end
  end.

(** What a computation did: the events it appended to the trace. *)
Definition appended (w w' : world) (evs : list event) : Prop :=
  trace w' = trace w ++ evs.

(** The requests and waits of [remaining] attempts that all fall through
    to the backoff, the first of them numbered [attempt]. *)
Fixpoint schedule (eventUuid : string) (cfg : config)
    (remaining attempt : nat) : list event :=
  match remaining with
  | O => []
  | S remaining' =>
      Get eventUuid (calendlyPat cfg)
      :: (if (attempt <? maxAttempts (retry cfg))%nat
          then [Sleep (baseDelayMs (retry cfg) * 2 ^ (Z.of_nat attempt - 1))]
          else [])
      ++ schedule eventUuid cfg remaining' (S attempt)
  end.

(** A remote side that is never ready: it answers 404, a server error, an
    empty body, and a transcript too short to count, in turn. *)
Definition short_transcript : response :=
  {| data := Some
       {| resource := Some
            {| meeting_notes := Some
                 {| notes_transcript := Some "";
                    notes_transcription := None;
                    notes_summary := Some "Intro call, ten minutes." |};
               transcript := None;
               transcription := None |};
          own := {| meeting_notes := None; transcript := None;
                    transcription := None |} |} |}.

Definition never_ready_fetch (n : nat) : outcome :=
  match (n mod 4)%nat with
  | 0%nat => Rejects {| status := Some 404; message := "Not Found" |}
  | 1%nat => Rejects {| status := Some 500; message := "Server Error" |}
  | 2%nat => Resolves {| data := None |}
  | _ => Resolves short_transcript
  end.

End Calendly.

(** ** A reference host

    An executable host on which the scenarios below are run; the general
    statements hold for every host.  Its URL class keeps the decomposition
    of the URL Standard that the store can observe: a scheme
    (lower-cased), the part up to the query, the query and the fragment;
    an input without a scheme is rejected, as it is by the constructor
    with no base URL.  It does not canonicalise the host, port, path or
    percent-encoding as the URL Standard does; the scenarios use URLs
    already in that canonical form, on which the two agree.  Its date
    parser reads the ECMAScript date-time format [YYYY-MM-DD] and
    [YYYY-MM-DDTHH:mm(:ss(.sss))(Z|+HH:mm|-HH:mm)], the form that
    [toISOString] and the webhook senders produce, and reports an invalid
    date for any other spelling. *)

Module ReferenceHost.

Record url := {
  scheme : string;
  hier : string;
  query : option string;
  fragment : option string
}.

Definition isAlpha (c : ascii) : bool :=
  let n := N_of_ascii c in
  ((65 <=? n) && (n <=? 90) || (97 <=? n) && (n <=? 122))%N.

Definition isDigit (c : ascii) : bool :=
  let n := N_of_ascii c in ((48 <=? n) && (n <=? 57))%N.

Definition isSchemeChar (c : ascii) : bool :=
  isAlpha c || isDigit c
  || Ascii.eqb c "+" || Ascii.eqb c "-" || Ascii.eqb c ".".

(** The scheme characters before the first colon, and what follows it. *)
Fixpoint scan_scheme (s : string) : option (string * string) :=
  match s with
  | EmptyString => None
  | String c s' =>
      if Ascii.eqb c ":" then Some (EmptyString, s')
      else if isSchemeChar c
      then '(a, r) ← scan_scheme s'; Some (String c a, r)
      else None
  end.

(** The text after the first [sep], if there is one. *)
Definition after_first (sep : ascii) (s : string) : option string :=
  match JS.dropWhile (λ c, negb (Ascii.eqb c sep)) s with
  | String _ r => Some r
  | EmptyString => None
  end.

Definition url_new (s : string) : option url :=
  match s with
  | String c _ =>
      if isAlpha c
      then '(sch, r) ← scan_scheme s;
           let pre := JS.split_first "#" r in
           Some {| scheme := JS.toLowerCase sch;
                   hier := JS.split_first "?" pre;
                   query := after_first "?" pre;
                   fragment := after_first "#" r |}
      else None
  | EmptyString => None
  end.

Definition url_clear_hash (u : url) : url :=
  {| scheme := scheme u; hier := hier u; query := query u; fragment := None |}.

Definition url_toString (u : url) : string :=
  scheme u +:+ ":" +:+ hier u
  +:+ match query u with Some q => "?" +:+ q | None => "" end
  +:+ match fragment u with Some f => "#" +:+ f | None => "" end.

Definition digit (c : ascii) : option Z :=
  if isDigit c then Some (Z.of_N (N_of_ascii c) - 48) else None.

(** Exactly [k] decimal digits. *)
Fixpoint digits (k : nat) (acc : Z) (s : string) : option (Z * string) :=
  match k with
  | O => Some (acc, s)
  | S k' =>
      match s with
      | String c s' => d ← digit c; digits k' (acc * 10 + d) s'
      | EmptyString => None
      end
  end.

Definition expect (c : ascii) (s : string) : option string :=
  match s with
  | String c' s' => if Ascii.eqb c c' then Some s' else None
  | EmptyString => None
  end.

Definition is_leap (y : Z) : bool :=
  (y mod 4 =? 0) && (negb (y mod 100 =? 0) || (y mod 400 =? 0)).

Definition days_in_month (y m : Z) : Z :=
  if m =? 2 then (if is_leap y then 29 else 28)
  else if (m =? 4) || (m =? 6) || (m =? 9) || (m =? 11) then 30
  else 31.

(** Days from 1970-01-01 to the given proleptic Gregorian date. *)
Definition days_from_civil (y m d : Z) : Z :=
  let y' := if m <=? 2 then y - 1 else y in
  let era := y' / 400 in
  let yoe := y' - era * 400 in
  let doy := (153 * (if 2 <? m then m - 3 else m + 9) + 2) / 5 + d - 1 in
  let doe := yoe * 365 + yoe / 4 - yoe / 100 + doy in
  era * 146097 + doe - 719468.

(** [Z], or a signed [HH:mm] offset; the result is the offset in ms. *)
Definition parse_zone (s : string) : option Z :=
  match s with
  | String "Z" EmptyString => Some 0
  | String sign r =>
      if Ascii.eqb sign "+" || Ascii.eqb sign "-"
      then '(h, r) ← digits 2 0 r;
           r ← expect ":" r;
           '(m, r) ← digits 2 0 r;
           match r with
           | EmptyString =>
               if (h <=? 23) && (m <=? 59)
               then Some ((if Ascii.eqb sign "-" then -1 else 1)
                          * (h * 60 + m) * 60000)
               else None
           | _ => None
           end
      else None
  | EmptyString => None
  end.

(** [HH:mm(:ss(.sss))] followed by the zone; milliseconds since UTC
    midnight of the date. *)
Definition parse_time (s : string) : option Z :=
  '(h, r) ← digits 2 0 s;
  r ← expect ":" r;
  '(mi, r) ← digits 2 0 r;
  '(sec, r) ← match expect ":" r with
              | Some r' => digits 2 0 r'
              | None => Some (0, r)
              end;
  '(ms, r) ← match expect "." r with
             | Some r' => digits 3 0 r'
             | None => Some (0, r)
             end;
  off ← parse_zone r;
  if (h <=? 23) && (mi <=? 59) && (sec <=? 59)
     || (h =? 24) && (mi =? 0) && (sec =? 0) && (ms =? 0)
  then Some (h * 3600000 + mi * 60000 + sec * 1000 + ms - off)
  else None.

Definition date_getTime (s : string) : option Z :=
  '(y, r) ← digits 4 0 s;
  r ← expect "-" r;
  '(m, r) ← digits 2 0 r;
  r ← expect "-" r;
  '(d, r) ← digits 2 0 r;
  if (1 <=? m) && (m <=? 12) && (1 <=? d) && (d <=? days_in_month y m)
  then
    let day := days_from_civil y m d * 86400000 in
    match r with
    | EmptyString => Some day
    | String "T" r' => t ← parse_time r'; Some (day + t)
    | _ => None
    end
  else None.

Definition host : Host :=
  {| URL := url;
     URL_new := url_new;
     URL_clear_hash := url_clear_hash;
     URL_toString := url_toString;
     Date_getTime := date_getTime |}.

End ReferenceHost.

(** ** The end-to-end scenario

    Booking [E1] of the specification, a second booking of the same guest
    ten minutes later, and a third on the same meeting link. *)
Definition booking_E1 : Booking.t :=
  {| Booking.eventUuid := "E1";
     Booking.meetingUrl := Some "https://zoom.us/j/123?pwd=abc";
     Booking.startTime := Some "2024-01-15T10:00:00Z";
     Booking.endTime := None;
     Booking.guestEmail := Some "a@x.com";
     Booking.guestName := None;
     Booking.hostEmail := None;
     Booking.createdAt := 0 |}.

Definition booking_E0 : Booking.t :=
  {| Booking.eventUuid := "E0";
     Booking.meetingUrl := None;
     Booking.startTime := Some "2024-01-15T10:10:00Z";
     Booking.endTime := None;
     Booking.guestEmail := Some "a@x.com";
     Booking.guestName := None;
     Booking.hostEmail := None;
     Booking.createdAt := 0 |}.

Definition booking_E2 : Booking.t :=
  {| Booking.eventUuid := "E2";
     Booking.meetingUrl := Some "https://zoom.us/j/123?pwd=abc#later";
     Booking.startTime := None;
     Booking.endTime := None;
     Booking.guestEmail := Some "a@x.com";
     Booking.guestName := None;
     Booking.hostEmail := None;
     Booking.createdAt := 0 |}.

(** 2024-01-15T06:26:40Z, when the booking webhook for [E1] arrived. *)
Definition scenario_booked_at : Z := 1705300000000.

(** 2024-01-15T10:36:40Z, when the notetaker webhook arrived. *)
Definition scenario_now : Z := 1705315000000.

Definition scenario_bookings : bookings_map :=
  addBooking scenario_booked_at booking_E1 [].

(** [E0] booked first, then [E1]. *)
Definition two_guest_bookings : bookings_map :=
  addBooking (scenario_booked_at + 1000) booking_E1
    (addBooking scenario_booked_at booking_E0 []).

(** [E1] booked first, then [E2] on the same link. *)
Definition same_link_bookings : bookings_map :=
  addBooking (scenario_booked_at + 1000) booking_E2
    (addBooking scenario_booked_at booking_E1 []).

(** A booking that names its host, and the store that holds it. *)
Definition booking_E3 : Booking.t :=
  {| Booking.eventUuid := "E3";
     Booking.meetingUrl := Some "https://zoom.us/j/456";
     Booking.startTime := Some "2024-01-15T10:00:00Z";
     Booking.endTime := None;
     Booking.guestEmail := Some "Guest@X.com";
     Booking.guestName := None;
     Booking.hostEmail := Some "Host@Y.com";
     Booking.createdAt := 0 |}.

Definition hosted_bookings : bookings_map :=
  addBooking scenario_booked_at booking_E3 [].

(** ** Vocabulary for the further properties *)

(** The calls a client of the meeting store can make, and the store after
    one. *)
Inductive booking_call :=
| AddBooking (now : Z) (record : Booking.t)
| FindMatch (now : Z)
    (meetingUrl guestEmail hostEmail startTime : option string).

Definition booking_step {H : Host} (bookings : bookings_map)
    (c : booking_call) : bookings_map :=
  match c with
  | AddBooking now record => addBooking now record bookings
  | FindMatch now meetingUrl guestEmail hostEmail startTime =>
      (findMatch now meetingUrl guestEmail hostEmail startTime bookings).2
  end.

(** What a [Map] keyed by [record.eventUuid] looks like: no key twice, and
    each record under its own identifier. *)
Definition bookings_wf (bookings : bookings_map) : Prop :=
  NoDup bookings.*1
  ∧ ∀ key rec, (key, rec) ∈ bookings → key = Booking.eventUuid rec.

(** A tail that is empty or begins with a slash. *)
Definition slash_tail (r : string) : Prop := r = "" ∨ ∃ r', r = String "/" r'.

(** A request that ends the polling with the transcript [t]: it resolves
    to a body in which [t] is the first truthy transcript field, and [t]
    has more than 50 characters. *)
Definition ready_with (o : Calendly.outcome) (t : string) : Prop :=
  ∃ r d, o = Calendly.Resolves r
         ∧ Calendly.data r = Some d
         ∧ Calendly.transcript_of
             (default (Calendly.own d) (Calendly.resource d)) = Some t
         ∧ (50 < String.length t)%nat.

(** The wait after attempt [i]. *)
Definition backoff (cfg : Calendly.config) (i : nat) : Z :=
  Calendly.baseDelayMs (Calendly.retry cfg) * 2 ^ (Z.of_nat i - 1).

(** A remote side that has the transcript on the third request. *)
Definition scenario_transcript : string :=
  "Alice: thanks for joining. Bob: happy to be here, shall we begin?".

Definition transcript_response : Calendly.response :=
  {| Calendly.data := Some
       {| Calendly.resource := None;
          Calendly.own :=
            {| Calendly.meeting_notes := None;
               Calendly.transcript := Some scenario_transcript;
               Calendly.transcription := None |} |} |}.

Definition ready_third_fetch (n : nat) : Calendly.outcome :=
  match n with
  | 0%nat => Calendly.Rejects
               {| Calendly.status := Some 404; Calendly.message := "Not Found" |}
  | 1%nat => Calendly.Resolves Calendly.short_transcript
  | _ => Calendly.Resolves transcript_response
  end.

(** Settings with seven attempts, under which the last wait exceeds
    [maxDelayMs]. *)
Definition seven_attempts : Calendly.config :=
  {| Calendly.calendlyPat := Some "pat";
     Calendly.retry := {| Calendly.maxAttempts := 7;
                          Calendly.baseDelayMs := 30000;
                          Calendly.maxDelayMs := 900000 |} |}.

(** ** services/openai.js *)

Module OpenAI.

(** What the completion request settles to: a body whose
    [choices[0]?.message?.content] is [content], or a thrown error with
    its message (a rejected request, or a body without [choices]). *)
Inductive outcome :=
| Resolves (content : option string)
| Rejects (message : string).

Definition maxTranscriptLength : nat := 120 * 100.

(** Two line feeds and [[Transcript truncated]]. *)
Definition truncation_mark : string :=
  String "010" (String "010" "[Transcript truncated]").

Definition truncatedTranscript (transcript : string) : string :=
  if (maxTranscriptLength <? String.length transcript)%nat
  then String.substring 0 maxTranscriptLength transcript +:+ truncation_mark
  else transcript.

Section Summary.
(** The remote side, by the transcript text that closes the user prompt;
    the rest of the request is fixed. *)
Variable post : string → outcome.

(** [inr] is the returned summary, [inl] the message of the error
    thrown. *)
Definition generateSummary (transcript : string) : string + string :=
  match post (truncatedTranscript transcript) with
  | Resolves (Some (String _ _ as summary)) => inr summary
  | Resolves _ => inl "OpenAI returned empty response"
  | Rejects message => inl message
  end.

End Summary.

End OpenAI.

(** ** services/slack.js and services/webhook-handler.js

    The handler's own log lines are left out; those of the polling are in
    the [Calendly] world. *)

Module Webhook.

Inductive step :=
| parse_payload | wait_for_meeting | poll_transcript
| generate_summary | attio_upsert.

Record scheduled_event_t := {
  uri : option string;
  end_time : option string
}.

Record event_data := {
  scheduled_event : option scheduled_event_t;
  email : option string;
  name : option string
}.

Record payload_t := {
  event : option string;
  payload : option event_data
}.

(** What the handler does besides polling, in order. *)
Inductive effect :=
| Wait (ms : Z)
| Summarize (transcript : string)
| Upsert (guestEmail guestName summary : string)
| SlackPost (webhookUrl : string) (s : step) (message : string).

Record world := {
  calendly : Calendly.world;
  effects : list effect
}.

Definition emit (e : effect) (w : world) : world :=
  {| calendly := calendly w; effects := effects w ++ [e] |}.

(** [s.split(sep)] for a one-character separator. *)
Fixpoint split (sep : ascii) (s : string) : list string :=
  match s with
  | EmptyString => [EmptyString]
  | String c r =>
      if Ascii.eqb c sep then EmptyString :: split sep r
      else match split sep r with
           | piece :: pieces => String c piece :: pieces
           | [] => [String c EmptyString]
           end
  end.

(** [sendSlackError]: posts when a webhook URL is configured, and
    swallows a failure of the post. *)
Definition sendSlackError (slackWebhookUrl : option string)
    (s : step) (message : string) (w : world) : world :=
  match slackWebhookUrl with
  | Some (String _ _ as webhookUrl) => emit (SlackPost webhookUrl s message) w
  | _ => w
  end.

Section Handler.
Context {H : Host}.
Variable fetch : nat → Calendly.outcome.
Variable post : string → OpenAI.outcome.
(** [upsertPersonAndNote]: its result, or the message of its error. *)
Variable R : Type.
Variable upsertPersonAndNote : string → string → string → string + R.
Variable cfg : Calendly.config.
Variable slackWebhookUrl : option string.

(** The [catch] block: notify, then rethrow. *)
Definition fail (s : step) (message : string) (w : world)
    : world * (string + option R) :=
  (sendSlackError slackWebhookUrl s message w, inl message).

(** [now] is the clock read in step 2, taken to be after the epoch: an
    absent [end_time] makes [endTime] an invalid date, a [null] one the
    epoch, and the handler waits for neither.  [inr None] is the early
    [return], [inl] the message of the error rethrown. *)
Definition handleCalendlyWebhook (now : Z) (p : payload_t) (w : world)
    : world * (string + option R) :=
  if negb (bool_decide (event p = Some "invitee.created"))
  then (w, inr None)
  else
    match payload p with
    | None => fail parse_payload (Calendly.message Calendly.TypeError) w
    | Some eventData =>
        let eventUri := scheduled_event eventData ≫= uri in
        let eventUuid := eventUri ≫= λ u, last (split "/" u) in
        let guestEmail := email eventData in
        let guestName :=
          match name eventData with
          | Some (String _ _ as n) => n
          | _ => EmptyString
          end in
        let endTime :=
          (scheduled_event eventData ≫= end_time) ≫= Date_getTime in
        match eventUuid, guestEmail with
        | Some (String _ _ as eventUuid), Some (String _ _ as guestEmail) =>
            let w :=
              match endTime with
              | Some endTime =>
                  if now <? endTime
                  then emit (Wait (endTime - now + 60000)) w
                  else w
              | None => w
              end in
            match Calendly.pollForTranscript fetch eventUuid cfg
                    (calendly w) with
            | (cw, inl e) =>
                fail poll_transcript (Calendly.message e)
                  {| calendly := cw; effects := effects w |}
            | (cw, inr transcript) =>
                let w := {| calendly := cw; effects := effects w |} in
                match transcript with
                | Some (String _ _ as transcript) =>
                    let w := emit (Summarize transcript) w in
                    match OpenAI.generateSummary post transcript with
                    | inl message => fail generate_summary message w
                    | inr summary =>
                        let w := emit (Upsert guestEmail guestName summary) w in
                        match upsertPersonAndNote guestEmail guestName
                                summary with
                        | inl message => fail attio_upsert message w
                        | inr result => (w, inr (Some result))
                        end
                    end
                | _ =>
                    fail poll_transcript
                      "Transcript not available after maximum retries" w
                end
            end
        | _, _ =>
            fail parse_payload
              "Missing required fields: eventUuid or guestEmail" w
        end
    end.

End Handler.

Definition initial_world : world :=
  {| calendly := Calendly.initial_world; effects := [] |}.

Definition is_write (e : effect) : bool :=
  match e with
  | Summarize _ | Upsert _ _ _ => true
  | _ => false
  end.

Definition is_summarize (e : effect) : bool :=
  match e with
  | Summarize _ => true
  | _ => false
  end.

Definition is_upsert (e : effect) : bool :=
  match e with
  | Upsert _ _ _ => true
  | _ => false
  end.

End Webhook.

(** A booking notification for the scenarios. *)
Definition scenario_invitee : Webhook.payload_t :=
  {| Webhook.event := Some "invitee.created";
     Webhook.payload := Some
       {| Webhook.scheduled_event := Some
            {| Webhook.uri :=
                 Some "https://api.calendly.com/scheduled_events/EVT-1";
               Webhook.end_time := Some "2024-01-15T10:30:00Z" |};
          Webhook.email := Some "a@x.com";
          Webhook.name := Some "Alice" |} |}.

Definition scenario_post (transcript : string) : OpenAI.outcome :=
  OpenAI.Resolves (Some "## Meeting Overview").

Definition scenario_upsert (guestEmail guestName summary : string)
    : string + string :=
  inr "person-1".

(** ** services/config.js: Fathom accounts *)

Module Config.

(** [process.env] *)
Definition env := string → option string.

(** [v || null] *)
Definition or_null (v : option string) : option string :=
  if JS.truthy v then v else None.

Record fathom_account := {
  apiKey : option string;
  webhookSecret : option string
}.

(** [config.fathomAccounts[accountId]]: the object has the two own keys
    [recruitcloud] and [datalabs]; under any other name the lookup gives
    [undefined], or an inherited member, which has no [apiKey]. *)
Definition fathomAccounts (e : env) (accountId : string)
    : option fathom_account :=
  if String.eqb accountId "recruitcloud"
  then Some {| apiKey := or_null (e "FATHOM_RECRUITCLOUD_API_KEY");
               webhookSecret :=
                 or_null (e "FATHOM_RECRUITCLOUD_WEBHOOK_SECRET") |}
  else if String.eqb accountId "datalabs"
  then Some {| apiKey := or_null (e "FATHOM_DATALABS_API_KEY");
               webhookSecret :=
                 or_null (e "FATHOM_DATALABS_WEBHOOK_SECRET") |}
  else None.

(** The legacy single keys. *)
Definition legacy (e : env) : fathom_account :=
  {| apiKey := or_null (e "FATHOM_API_KEY");
     webhookSecret := or_null (e "FATHOM_WEBHOOK_SECRET") |}.

Definition getFathomAccountConfig (e : env) (accountId : option string)
    : fathom_account :=
  match accountId ≫= fathomAccounts e with
  | Some account => if JS.truthy (apiKey account) then account else legacy e
  | None => legacy e
  end.

End Config.

(** ** services/fathom.js and services/fathom-handler.js *)

Module Fathom.

Section Signature.
(** [crypto.createHmac('sha256', secret).update(body).digest('base64')] *)
Variable hmac_sha256_base64 : string → string → string.

(** [signature.split(',')[1]]: the text between the first comma and the
    second, [undefined] when there is no comma. *)
Definition second_piece (signature : string) : option string :=
  match JS.dropWhile (λ c, negb (Ascii.eqb c ",")) signature with
  | String _ rest => Some (JS.split_first "," rest)
  | EmptyString => None
  end.

(** A [signature] or [body] that is not a string makes the [try] block
    throw, and the [catch] returns [false]. *)
Definition verifyFathomWebhook (signature body secret : option string)
    : bool :=
  match secret with
  | Some (String _ _ as secret) =>
      match signature, body with
      | Some signature, Some body =>
          bool_decide (second_piece signature
                       = Some (hmac_sha256_base64 secret body))
      | _, _ => false
      end
  | _ => true
  end.

(** The signature check of [handleFathomWebhook]: [false] when it throws
    [Invalid Fathom webhook signature]. *)
Definition signature_check (signature rawBody : option string)
    (fathomConfig : Config.fathom_account) : bool :=
  if JS.truthy signature && JS.truthy (Config.webhookSecret fathomConfig)
  then verifyFathomWebhook signature rawBody
         (Config.webhookSecret fathomConfig)
  else true.

End Signature.

Record attendee := {
  email : option string;
  email_address : option string;
  name : option string;
  display_name : option string
}.

(** The payload as far as [processFathomWebhook] reads it once the
    transcript is at hand. *)
Record payload := {
  attendees : option (list attendee);
  participants : option (list attendee);
  host_email : option string;
  recorded_by : option string;
  guest_email : option string;
  guest_name : option string;
  title : option string;
  meeting_title : option string
}.

(** [payload.attendees || payload.participants || []]; an empty array is
    truthy. *)
Definition attendees_of (p : payload) : list attendee :=
  match attendees p with
  | Some l => l
  | None => default [] (participants p)
  end.

Definition hostEmail_of (p : payload) : option string :=
  Calendly.or_else (host_email p) (recorded_by p).

Definition email_of (a : attendee) : option string :=
  Calendly.or_else (email a) (email_address a).

(** The callback of [attendees.find]: [email && email !== hostEmail]. *)
Definition is_external (hostEmail : option string) (a : attendee) : bool :=
  JS.truthy (email_of a) && negb (bool_decide (email_of a = hostEmail)).

(** [{}] *)
Definition no_attendee : attendee :=
  {| email := None; email_address := None; name := None;
     display_name := None |}.

(** [attendees.find(...) || attendees[0] || {}] *)
Definition guest_of (p : payload) : attendee :=
  match List.find (is_external (hostEmail_of p)) (attendees_of p) with
  | Some a => a
  | None => default no_attendee (head (attendees_of p))
  end.

Definition guestEmail_of (p : payload) : option string :=
  Calendly.or_else (email_of (guest_of p)) (guest_email p).

Definition or_default (v : option string) (d : string) : string :=
  match v with
  | Some (String _ _ as s) => s
  | _ => d
  end.

(** A JavaScript object with string members, by property name. *)
Definition object := gmap string string.

(** [processFathomWebhook] from the point where [transcript] holds the
    text of the payload, fetched and formatted as needed: the object it
    returns, or the message of the error it throws. *)
Definition processFathomWebhook (p : payload) (transcript : option string)
    : string + object :=
  let guest := guest_of p in
  let guestName :=
    or_default
      (Calendly.or_else
         (Calendly.or_else (name guest) (display_name guest))
         (guest_name p))
      "Unknown Attendee" in
  match transcript with
  | Some (String _ _ as transcript) =>
      match guestEmail_of p with
      | Some (String _ _ as guestEmail) =>
          inr (<["transcript" := transcript]>
               (<["guestEmail" := guestEmail]>
                (<["guestName" := guestName]>
                 (<["source" := "fathom"]>
                  (<["meetingTitle" :=
                       or_default (Calendly.or_else (title p) (meeting_title p))
                         "Fathom Meeting"]> ∅)))))
      | _ => inl "No guest email found in Fathom webhook"
      end
  | _ => inl "No transcript available from Fathom"
  end.

Section Correlation.
Context {H : Host}.

(** The [findMatch] call of [handleFathomWebhook] on the object that
    [processFathomWebhook] returned. *)
Definition correlate (now : Z) (meetingData : object)
    (bookings : bookings_map) : option Booking.t * bookings_map :=
  findMatch now (meetingData !! "meetingUrl") (meetingData !! "guestEmail")
    (meetingData !! "hostEmail") (meetingData !! "startTime") bookings.

End Correlation.

Definition line_feed : string := String "010" EmptyString.

Definition correlationNote (matched : option Booking.t) : string :=
  match matched with
  | Some matched =>
      "Matched Calendly event: " +:+ Booking.eventUuid matched
      +:+ line_feed +:+ "Meeting URL: "
      +:+ or_default (Booking.meetingUrl matched) "n/a"
      +:+ line_feed +:+ "Start: "
      +:+ or_default (Booking.startTime matched) "n/a"
  | None => "No Calendly match found"
  end.

Definition summaryWithContext (summary correlationNote : string) : string :=
  summary +:+ line_feed +:+ line_feed +:+ "---" +:+ line_feed
  +:+ correlationNote.

End Fathom.

(** A recording of the scenario's meeting, with the host listed first. *)
Definition scenario_recording : Fathom.payload :=
  {| Fathom.attendees := Some
       [ {| Fathom.email := Some "host@y.com"; Fathom.email_address := None;
            Fathom.name := Some "Host"; Fathom.display_name := None |};
         {| Fathom.email := None; Fathom.email_address := Some "a@x.com";
            Fathom.name := None; Fathom.display_name := Some "Alice" |} ];
     Fathom.participants := None;
     Fathom.host_email := Some "host@y.com";
     Fathom.recorded_by := None;
     Fathom.guest_email := None;
     Fathom.guest_name := None;
     Fathom.title := Some "Intro call";
     Fathom.meeting_title := None |}.

(** An environment with the DataLabs webhook secret set, and nothing
    else. *)
Definition secret_only_env : Config.env := λ key,
  if String.eqb key "FATHOM_DATALABS_WEBHOOK_SECRET" then Some "whsec"
  else None.

(** ** services/heyreach-handler.js and services/clay-handler.js

    The two handlers from the point where the payload's fields have been
    picked: [handleHeyReachWebhook] on the lead that [extractLeadData]
    built, [handleClayWebhook] on the profile URL, email and phone that
    [extractClayData] found.  Log lines are left out. *)

Module Enrichment.

(** Calls to the CRM, in order. *)
Inductive effect :=
| FindPerson (linkedinUrl : string)
| UpdatePerson (personId : string) (email phone : option string)
| CreateNote (personId : string) (l : lead).

Record world := {
  pendingLeads : gmap string lead;
  effects : list effect
}.

Definition emit (e : effect) (w : world) : world :=
  {| pendingLeads := pendingLeads w; effects := effects w ++ [e] |}.

Definition nonempty (s : string) : bool :=
  match s with
  | String _ _ => true
  | EmptyString => false
  end.

Inductive heyreach_result :=
| HeyReachMissingUrl                       (* success: false *)
| HeyReachStored (linkedinUrl : option string).   (* success: true *)

Record enriched := {
  enriched_linkedinUrl : option string;
  enriched_email : option string;
  enriched_phone : option string
}.

(** The three members of [extractClayData]'s result that the handler
    reads, from the values found in the payload. *)
Definition extractClayData (linkedinUrl email phone : option string)
    : enriched :=
  {| enriched_linkedinUrl := normalizeLinkedInUrl linkedinUrl;
     enriched_email :=
       match email with
       | Some (String _ _ as email) => Some (JS.toLowerCase (JS.trim email))
       | _ => None
       end;
     enriched_phone :=
       match phone with
       | Some (String _ _ as phone) => Some (JS.trim phone)
       | _ => None
       end |}.

Inductive clay_result :=
| ClayMissingUrl
| ClayPersonNotFound (linkedinUrl : string)
| ClaySuccess (personId : string) (email phone : option string)
    (noteAdded : bool).

Section Handlers.
(** The CRM: what each call returns, or on the left the message of the
    error it throws. *)
Variable findPersonByLinkedIn : string → string + option string.
Variable updatePersonFields :
  string → option string → option string → string + ().
Variable createConversationNote : string → lead → string + ().

(** [try { await createConversationNote(...) } catch { log }] *)
Definition try_note (personId : string) (l : lead) (w : world) : world :=
  let w := emit (CreateNote personId l) w in
  match createConversationNote personId l with
  | inr _ => w
  | inl _ => w
  end.

(** Nothing after [extractLeadData] can reach the outer [catch]: the CRM
    calls sit in a [try] of their own, whose [catch] only logs. *)
Definition handleHeyReachWebhook (isoNow : string) (l : lead) (w : world)
    : world * heyreach_result :=
  match linkedinUrl l with
  | Some (String _ _ as url) =>
      let '(normalizedUrl, store) := addPendingLead isoNow l (pendingLeads w) in
      let w := {| pendingLeads := store; effects := effects w |} in
      let w :=
        if nonempty (conversation l)
        then
          let w := emit (FindPerson url) w in
          match findPersonByLinkedIn url with
          | inr (Some (String _ _ as personId)) => try_note personId l w
          | _ => w
          end
        else w in
      (w, HeyReachStored normalizedUrl)
  | _ => (w, HeyReachMissingUrl)
  end.

(** [inl] is the message of the error rethrown by the outer [catch]. *)
Definition handleClayWebhook (enrichedData : enriched) (w : world)
    : world * (string + clay_result) :=
  match enriched_linkedinUrl enrichedData with
  | Some (String _ _ as url) =>
      let w := emit (FindPerson url) w in
      match findPersonByLinkedIn url with
      | inl message => (w, inl message)
      | inr (Some (String _ _ as personId)) =>
          let email := enriched_email enrichedData in
          let phone := enriched_phone enrichedData in
          let w := emit (UpdatePerson personId email phone) w in
          match updatePersonFields personId email phone with
          | inl message => (w, inl message)
          | inr _ =>
              let '(pendingLead, store) :=
                getPendingLead (Some url) (pendingLeads w) in
              let w := {| pendingLeads := store; effects := effects w |} in
              match pendingLead with
              | Some l =>
                  if nonempty (conversation l)
                  then (try_note personId l w,
                        inr (ClaySuccess personId email phone true))
                  else (w, inr (ClaySuccess personId email phone false))
              | None => (w, inr (ClaySuccess personId email phone false))
              end
          end
      | inr _ => (w, inr (ClayPersonNotFound url))
      end
  | _ => (w, inr ClayMissingUrl)
  end.

End Handlers.

End Enrichment.

(** A CRM that knows one profile, and one that is down. *)
Definition scenario_findPerson (linkedinUrl : string) : string + option string :=
  if String.eqb linkedinUrl "https://www.linkedin.com/in/johndoe"
  then inr (Some "person-1") else inr None.

Definition scenario_updatePerson (personId : string)
    (email phone : option string) : string + () :=
  inr ().

Definition failing_createNote (personId : string) (l : lead) : string + () :=
  inl "Attio is down".

(** * Properties *)

(** ** Sanity checks of the embedding *)

Example normalizeLinkedInUrl_canonical :
  normalizeLinkedInUrl (Some "https://www.linkedin.com/in/johndoe")
  = Some "https://www.linkedin.com/in/johndoe".
Proof. reflexivity. Qed.

Example normalizeLinkedInUrl_bare_trailing_slash :
  normalizeLinkedInUrl (Some "linkedin.com/in/johndoe/")
  = Some "https://www.linkedin.com/in/johndoe".
Proof. reflexivity. Qed.

Example normalizeLinkedInUrl_mixed_case_query :
  normalizeLinkedInUrl (Some "https://www.linkedin.com/in/JohnDoe?trk=x")
  = Some "https://www.linkedin.com/in/johndoe".
Proof. reflexivity. Qed.

Example normalizeLinkedInUrl_not_a_profile :
  normalizeLinkedInUrl (Some " Example.COM/Path//?a=b ")
  = Some "example.com/path".
Proof. reflexivity. Qed.

Example normalizeLinkedInUrl_space_before_query :
  normalizeLinkedInUrl (Some "a ?b") = Some "a "
  ∧ normalizeLinkedInUrl (Some "a ") = Some "a".
Proof. split; reflexivity. Qed.

Example normalizeLinkedInUrl_blank :
  normalizeLinkedInUrl (Some " ") = Some ""
  ∧ normalizeLinkedInUrl (Some "") = None.
Proof. split; reflexivity. Qed.

Example reference_date_epoch :
  ReferenceHost.date_getTime "1970-01-01T00:00:00.000Z" = Some 0.
Proof. reflexivity. Qed.

Example reference_date_scenario :
  ReferenceHost.date_getTime "2024-01-15T10:00:00Z" = Some 1705312800000
  ∧ ReferenceHost.date_getTime "2024-01-15T10:05:00Z" = Some 1705313100000
  ∧ ReferenceHost.date_getTime "2024-01-15T12:00:00+02:00" = Some 1705312800000
  ∧ ReferenceHost.date_getTime "soon" = None.
Proof. repeat split; reflexivity. Qed.

Example reference_normalizeUrl :
  normalizeUrl (H := ReferenceHost.host) "https://zoom.us/j/123?pwd=abc#top"
  = "https://zoom.us/j/123?pwd=abc"
  ∧ normalizeUrl (H := ReferenceHost.host) "HTTPS://zoom.us/j/123"
    = "https://zoom.us/j/123"
  ∧ normalizeUrl (H := ReferenceHost.host) "zoom.us/j/123#x" = "zoom.us/j/123#x".
Proof. repeat split; reflexivity. Qed.

(** ** Facts about the string built-ins *)

Section StringFacts.

Local Abbreviation notSlash := (λ c, negb (JS.isSlash c)).
Local Abbreviation notChar sep := (λ c, negb (Ascii.eqb c sep)).
Local Abbreviation lowerFixed := (λ c, Ascii.eqb (JS.toLowerCase_char c) c).

Lemma app_cons c a b : String c a +:+ b = String c (a +:+ b).
Proof. reflexivity. Qed.

Lemma app_empty b : "" +:+ b = b.
Proof. reflexivity. Qed.

Lemma toLowerCase_char_idemp c :
  JS.toLowerCase_char (JS.toLowerCase_char c) = JS.toLowerCase_char c.
Proof. destruct c as [[] [] [] [] [] [] [] []]; reflexivity. Qed.

Lemma toLowerCase_lowerFixed s : JS.all lowerFixed (JS.toLowerCase s) = true.
Proof.
  induction s as [|c s IH]; simpl; [done|].
  rewrite toLowerCase_char_idemp, Ascii.eqb_refl. exact IH.
Qed.

Lemma toLowerCase_fixed s : JS.all lowerFixed s = true → JS.toLowerCase s = s.
Proof.
  induction s as [|c s IH]; simpl; [done|].
  intros [Hc Hs]%andb_prop. apply Ascii.eqb_eq in Hc.
  by rewrite Hc, IH.
Qed.

Lemma toLowerCase_idemp s : JS.toLowerCase (JS.toLowerCase s) = JS.toLowerCase s.
Proof. apply toLowerCase_fixed, toLowerCase_lowerFixed. Qed.

Lemma all_app p a b : JS.all p (a +:+ b) = JS.all p a && JS.all p b.
Proof.
  induction a as [|c a IH]; [done|].
  rewrite app_cons. simpl. by rewrite IH, andb_assoc.
Qed.

Lemma all_dropWhile p q s : JS.all p s = true → JS.all p (JS.dropWhile q s) = true.
Proof.
  induction s as [|c s IH]; simpl; [done|].
  intros [Hc Hs]%andb_prop. destruct (q c); simpl; auto.
  by rewrite Hc, Hs.
Qed.

Lemma all_takeWhile p q s : JS.all p s = true → JS.all p (JS.takeWhile q s) = true.
Proof.
  induction s as [|c s IH]; simpl; [done|].
  intros [Hc Hs]%andb_prop. destruct (q c); simpl; [|done].
  by rewrite Hc, IH.
Qed.

Lemma all_dropEndWhile p q s :
  JS.all p s = true → JS.all p (JS.dropEndWhile q s) = true.
Proof.
  induction s as [|c s IH]; simpl; [done|].
  intros [Hc Hs]%andb_prop. specialize (IH Hs).
  destruct (JS.dropEndWhile q s) eqn:E.
  - destruct (q c); simpl; [done|]. by rewrite Hc.
  - simpl in *. by rewrite Hc, IH.
Qed.

Lemma all_stripPrefix p a s r :
  JS.stripPrefix a s = Some r → JS.all p s = true → JS.all p r = true.
Proof.
  revert s. induction a as [|c a IH]; intros [|d s]; simpl; try congruence.
  - by intros [= <-].
  - by intros [= <-].
  - destruct (Ascii.eqb c d); [|done].
    intros Hr [_ Hs]%andb_prop. eauto.
Qed.

Lemma takeWhile_all p s : JS.all p (JS.takeWhile p s) = true.
Proof.
  induction s as [|c s IH]; simpl; [done|].
  destruct (p c) eqn:E; simpl; [|done]. by rewrite E, IH.
Qed.

Lemma takeWhile_id p s : JS.all p s = true → JS.takeWhile p s = s.
Proof.
  induction s as [|c s IH]; simpl; [done|].
  intros [Hc Hs]%andb_prop. by rewrite Hc, IH.
Qed.

Lemma dropWhile_starts p s : JS.starts_with p (JS.dropWhile p s) = false.
Proof.
  induction s as [|c s IH]; simpl; [done|].
  destruct (p c) eqn:E; simpl; done.
Qed.

Lemma dropWhile_id p s : JS.starts_with p s = false → JS.dropWhile p s = s.
Proof. destruct s as [|c s]; simpl; [done|]. by intros ->. Qed.

Lemma takeWhile_starts p q s :
  JS.starts_with p s = false → JS.starts_with p (JS.takeWhile q s) = false.
Proof. destruct s as [|c s]; simpl; [done|]. by destruct (q c). Qed.

Lemma dropEndWhile_starts p q s :
  JS.starts_with p s = false → JS.starts_with p (JS.dropEndWhile q s) = false.
Proof.
  destruct s as [|c s]; simpl; [done|]. intros Hc.
  destruct (JS.dropEndWhile q s); [by destruct (q c)|done].
Qed.

Lemma dropEndWhile_ends p s : JS.ends_with p (JS.dropEndWhile p s) = false.
Proof.
  induction s as [|c s IH]; simpl; [done|].
  destruct (JS.dropEndWhile p s) eqn:E.
  - destruct (p c) eqn:Hc; simpl; done.
  - exact IH.
Qed.

Lemma dropEndWhile_id p s : JS.ends_with p s = false → JS.dropEndWhile p s = s.
Proof.
  induction s as [|c s IH]; simpl; [done|].
  destruct s as [|d s].
  - simpl. by intros ->.
  - intros Hs. by rewrite (IH Hs).
Qed.

Lemma ends_with_app p a b :
  b ≠ "" → JS.ends_with p (a +:+ b) = JS.ends_with p b.
Proof.
  intros Hb. induction a as [|c a IH]; [done|].
  rewrite app_cons. simpl. rewrite IH.
  destruct (a +:+ b) eqn:E; [|done].
  destruct a; [|discriminate]. by destruct b.
Qed.

Lemma ends_with_all_not p s :
  s ≠ "" → JS.all (λ c, negb (p c)) s = true → JS.ends_with p s = false.
Proof.
  induction s as [|c s IH]; [done|]. intros _. simpl.
  intros [Hc Hs]%andb_prop. destruct s as [|d s].
  - by apply negb_true_iff.
  - by apply IH.
Qed.

(** The capture of the profile pattern is a non-empty run of non-slash
    code units taken from the subject. *)
Lemma match_linkedin_in_capture p s h :
  JS.match_linkedin_in s = Some h →
  h ≠ "" ∧ JS.all notSlash h = true ∧ (JS.all p s = true → JS.all p h = true).
Proof.
  induction s as [|c s IH]; [done|].
  cbn [JS.match_linkedin_in].
  destruct (JS.stripPrefix "linkedin.com/in/" (String c s)) as [rest|] eqn:Hp.
  - destruct (JS.takeWhile notSlash rest) as [|d t] eqn:Ht.
    + intros Hm. destruct (IH Hm) as (? & ? & Hall). repeat split; try done.
      simpl. intros [_ Hs]%andb_prop. auto.
    + intros [= <-]. repeat split; [done| |].
      * rewrite <- Ht. apply takeWhile_all.
      * intros Hs. rewrite <- Ht. apply all_takeWhile.
        by eapply all_stripPrefix.
  - intros Hm. destruct (IH Hm) as (? & ? & Hall). repeat split; try done.
    simpl. intros [_ Hs]%andb_prop. auto.
Qed.

Lemma match_linkedin_in_canonical h :
  h ≠ "" → JS.all notSlash h = true →
  JS.match_linkedin_in ("https://www.linkedin.com/in/" +:+ h) = Some h.
Proof.
  intros Hh Hall. rewrite !app_cons, app_empty. cbn.
  rewrite (takeWhile_id _ _ Hall). by destruct h.
Qed.

End StringFacts.

(** ** normalizeLinkedInUrl *)

Section NormalizeLinkedInUrl.

Local Abbreviation notSlash := (λ c, negb (JS.isSlash c)).
Local Abbreviation notQuery := (λ c, negb (Ascii.eqb c "?")).
Local Abbreviation lowerFixed := (λ c, Ascii.eqb (JS.toLowerCase_char c) c).

(** On a string that the first three steps leave alone, the function is
    its last step. *)
Lemma normalizeLinkedInUrl_settled u :
  u ≠ "" →
  JS.all lowerFixed u = true →
  JS.starts_with JS.isWhiteSpace u = false →
  JS.ends_with JS.isWhiteSpace u = false →
  JS.all notQuery u = true →
  JS.ends_with JS.isSlash u = false →
  normalizeLinkedInUrl (Some u)
  = match JS.match_linkedin_in u with
    | Some handle => Some ("https://www.linkedin.com/in/" +:+ handle)
    | None => Some u
    end.
Proof.
  intros Hne Hlow Hstart Hend Hq Hslash.
  unfold normalizeLinkedInUrl. destruct u as [|c u]; [done|].
  cbv zeta. rewrite (toLowerCase_fixed _ Hlow).
  unfold JS.trim. rewrite (dropWhile_id _ _ Hstart), (dropEndWhile_id _ _ Hend).
  unfold JS.split_first. rewrite (takeWhile_id _ _ Hq).
  unfold JS.replace_trailing_slashes. by rewrite (dropEndWhile_id _ _ Hslash).
Qed.

Lemma normalizeLinkedInUrl_profile_fixed h :
  h ≠ "" →
  JS.all lowerFixed h = true →
  JS.all notSlash h = true →
  JS.all notQuery h = true →
  JS.ends_with JS.isWhiteSpace h = false →
  normalizeLinkedInUrl (Some ("https://www.linkedin.com/in/" +:+ h))
  = Some ("https://www.linkedin.com/in/" +:+ h).
Proof.
  intros Hne Hlow Hns Hq Hws.
  rewrite normalizeLinkedInUrl_settled.
  - by rewrite match_linkedin_in_canonical.
  - by rewrite !app_cons.
  - rewrite all_app, Hlow. reflexivity.
  - by rewrite !app_cons.
  - by rewrite ends_with_app.
  - rewrite all_app, Hq. reflexivity.
  - rewrite ends_with_app by done. by apply ends_with_all_not.
Qed.

(** What the first three steps establish. *)
Lemma normalizeLinkedInUrl_steps s :
  let u := JS.replace_trailing_slashes
             (JS.split_first "?" (JS.trim (JS.toLowerCase s))) in
  JS.all lowerFixed u = true
  ∧ JS.starts_with JS.isWhiteSpace u = false
  ∧ JS.all notQuery u = true
  ∧ JS.ends_with JS.isSlash u = false.
Proof.
  cbv zeta. unfold JS.replace_trailing_slashes, JS.split_first, JS.trim.
  repeat split.
  - apply all_dropEndWhile, all_takeWhile, all_dropEndWhile, all_dropWhile,
      toLowerCase_lowerFixed.
  - apply dropEndWhile_starts, takeWhile_starts, dropEndWhile_starts,
      dropWhile_starts.
  - apply all_dropEndWhile, takeWhile_all.
  - apply dropEndWhile_ends.
Qed.

Lemma normalizeLinkedInUrl_trimmed_fixed x :
  trimmed (normalizeLinkedInUrl x) = true →
  normalizeLinkedInUrl (normalizeLinkedInUrl x) = normalizeLinkedInUrl x.
Proof.
  destruct x as [[|c s]|]; [done| |done].
  unfold normalizeLinkedInUrl at 1 3 4. cbv zeta.
  destruct (normalizeLinkedInUrl_steps (String c s))
    as (Hlow & Hstart & Hq & Hslash).
  set (u := JS.replace_trailing_slashes _) in *.
  destruct (JS.match_linkedin_in u) as [h|] eqn:Hm.
  - destruct (match_linkedin_in_capture lowerFixed _ _ Hm) as (Hne & Hns & Hl).
    destruct (match_linkedin_in_capture notQuery _ _ Hm) as (_ & _ & Hhq).
    intros Ht. apply normalizeLinkedInUrl_profile_fixed; auto.
    rewrite !app_cons, app_empty in Ht. cbn [trimmed] in Ht.
    apply negb_true_iff in Ht.
    change (JS.ends_with JS.isWhiteSpace ("https://www.linkedin.com/in/" +:+ h)
            = false) in Ht.
    by rewrite ends_with_app in Ht.
  - intros Ht. clearbody u. destruct u as [|d u']; [done|].
    cbn [trimmed] in Ht. apply negb_true_iff in Ht.
    rewrite normalizeLinkedInUrl_settled; auto.
    by rewrite Hm.
Qed.

Lemma isWhiteSpace_toLowerCase_char c :
  JS.isWhiteSpace (JS.toLowerCase_char c) = JS.isWhiteSpace c.
Proof. destruct c as [[] [] [] [] [] [] [] []]; reflexivity. Qed.

Lemma toLowerCase_no_space s :
  JS.all (λ c, negb (JS.isWhiteSpace c)) s = true →
  JS.all (λ c, negb (JS.isWhiteSpace c)) (JS.toLowerCase s) = true.
Proof.
  induction s as [|c s IH]; simpl; [done|].
  intros [Hc Hs]%andb_prop.
  by rewrite isWhiteSpace_toLowerCase_char, Hc, IH.
Qed.

(** An input without white space has a trimmed normal form, unless
    nothing of it is left. *)
Lemma normalizeLinkedInUrl_no_space_trimmed s :
  JS.all (λ c, negb (JS.isWhiteSpace c)) s = true →
  normalizeLinkedInUrl (Some s) ≠ Some "" →
  trimmed (normalizeLinkedInUrl (Some s)) = true.
Proof.
  intros Hs. destruct s as [|c s]; [done|].
  unfold normalizeLinkedInUrl. cbv zeta.
  assert (JS.all (λ c, negb (JS.isWhiteSpace c))
            (JS.replace_trailing_slashes
               (JS.split_first "?" (JS.trim (JS.toLowerCase (String c s)))))
          = true) as Hu.
  { unfold JS.replace_trailing_slashes, JS.split_first, JS.trim.
    by apply all_dropEndWhile, all_takeWhile, all_dropEndWhile, all_dropWhile,
      toLowerCase_no_space. }
  set (u := JS.replace_trailing_slashes _) in *. clearbody u.
  destruct (JS.match_linkedin_in u) as [h|] eqn:Hm.
  - intros _.
    destruct (match_linkedin_in_capture
                (λ c, negb (JS.isWhiteSpace c)) _ _ Hm) as (Hne & _ & Hh).
    rewrite !app_cons, app_empty. cbn [trimmed]. apply negb_true_iff.
    change (JS.ends_with JS.isWhiteSpace ("https://www.linkedin.com/in/" +:+ h)
            = false).
    rewrite ends_with_app by done. apply ends_with_all_not; auto.
  - intros Hne. destruct u as [|d u]; [done|].
    cbn [trimmed]. apply negb_true_iff. by apply ends_with_all_not.
Qed.

(** Conversely, a string that ends in white space is not a fixed point. *)

Lemma length_toLowerCase s : String.length (JS.toLowerCase s) = String.length s.
Proof. induction s as [|c s IH]; simpl; by rewrite ?IH. Qed.

Lemma length_dropWhile p s :
  (String.length (JS.dropWhile p s) ≤ String.length s)%nat.
Proof. induction s as [|c s IH]; simpl; [done|]. destruct (p c); simpl; lia. Qed.

Lemma length_takeWhile p s :
  (String.length (JS.takeWhile p s) ≤ String.length s)%nat.
Proof. induction s as [|c s IH]; simpl; [done|]. destruct (p c); simpl; lia. Qed.

Lemma length_dropEndWhile p s :
  (String.length (JS.dropEndWhile p s) ≤ String.length s)%nat.
Proof.
  induction s as [|c s IH]; simpl; [done|].
  destruct (JS.dropEndWhile p s); [destruct (p c)|]; simpl in *; lia.
Qed.

Lemma length_dropEndWhile_lt p s :
  JS.ends_with p s = true →
  (String.length (JS.dropEndWhile p s) < String.length s)%nat.
Proof.
  induction s as [|c s IH]; simpl; [done|].
  destruct s as [|d s].
  - simpl. intros ->. simpl. lia.
  - intros Hs. specialize (IH Hs).
    destruct (JS.dropEndWhile p (String d s)); [destruct (p c)|];
      simpl in *; lia.
Qed.

Lemma ends_with_toLowerCase s :
  JS.ends_with JS.isWhiteSpace (JS.toLowerCase s)
  = JS.ends_with JS.isWhiteSpace s.
Proof.
  induction s as [|c s IH]; [done|].
  cbn [JS.toLowerCase JS.ends_with]. rewrite IH.
  destruct s; [apply isWhiteSpace_toLowerCase_char|done].
Qed.

Lemma length_trim_lt s :
  JS.ends_with JS.isWhiteSpace s = true →
  (String.length (JS.trim s) < String.length s)%nat.
Proof.
  intros Hend. unfold JS.trim.
  destruct (JS.starts_with JS.isWhiteSpace s) eqn:Hstart.
  - destruct s as [|c s]; [done|]. simpl in Hstart. simpl. rewrite Hstart.
    pose proof (length_dropEndWhile JS.isWhiteSpace
                  (JS.dropWhile JS.isWhiteSpace s)).
    pose proof (length_dropWhile JS.isWhiteSpace s). lia.
  - rewrite dropWhile_id by done. by apply length_dropEndWhile_lt.
Qed.

Lemma dropEndWhile_app p a b :
  JS.dropEndWhile p (a +:+ b)
  = match JS.dropEndWhile p b with
    | EmptyString => JS.dropEndWhile p a
    | String _ _ as b' => a +:+ b'
    end.
Proof.
  induction a as [|c a IH].
  - rewrite app_empty. by destruct (JS.dropEndWhile p b).
  - rewrite app_cons. cbn [JS.dropEndWhile]. rewrite IH.
    destruct (JS.dropEndWhile p b) as [|d b']; [done|].
    rewrite app_cons. by destruct a.
Qed.

Lemma normalizeLinkedInUrl_untrimmed_moves s :
  JS.ends_with JS.isWhiteSpace s = true →
  normalizeLinkedInUrl (Some s) ≠ Some s.
Proof.
  intros Hend. destruct s as [|c s]; [done|].
  unfold normalizeLinkedInUrl. cbv zeta.
  destruct (normalizeLinkedInUrl_steps (String c s))
    as (Hlow & _ & Hq & _).
  pose proof (length_trim_lt (JS.toLowerCase (String c s))) as Hlen.
  rewrite ends_with_toLowerCase, length_toLowerCase in Hlen.
  specialize (Hlen Hend).
  pose proof (length_dropEndWhile JS.isSlash
                (JS.split_first "?" (JS.trim (JS.toLowerCase (String c s)))))
    as Hlen1.
  pose proof (length_takeWhile (λ c, negb (Ascii.eqb c "?"))
                (JS.trim (JS.toLowerCase (String c s)))) as Hlen2.
  fold (JS.split_first "?" (JS.trim (JS.toLowerCase (String c s)))) in Hlen2.
  fold (JS.replace_trailing_slashes
          (JS.split_first "?" (JS.trim (JS.toLowerCase (String c s)))))
    in Hlen1.
  destruct (JS.match_linkedin_in _) as [h|] eqn:Hm.
  - destruct (match_linkedin_in_capture lowerFixed _ _ Hm) as (Hne & Hns & Hl).
    destruct (match_linkedin_in_capture notQuery _ _ Hm) as (_ & _ & Hhq).
    specialize (Hl Hlow). specialize (Hhq Hq).
    intros Heq. apply (inj Some) in Heq.
    rewrite <- Heq in Hm, Hend. clear Hlen Hlen1 Hlen2 Heq.
    rewrite ends_with_app in Hend by done.
    assert (JS.toLowerCase ("https://www.linkedin.com/in/" +:+ h)
            = "https://www.linkedin.com/in/" +:+ h) as Hlower.
    { apply toLowerCase_fixed. rewrite all_app, Hl. reflexivity. }
    rewrite Hlower in Hm. unfold JS.trim in Hm.
    rewrite (dropWhile_id _ ("https://www.linkedin.com/in/" +:+ h)) in Hm
      by by rewrite !app_cons.
    rewrite dropEndWhile_app in Hm.
    pose proof (length_dropEndWhile_lt _ _ Hend) as Hshort.
    pose proof (all_dropEndWhile notSlash JS.isWhiteSpace h Hns) as Hns'.
    pose proof (all_dropEndWhile notQuery JS.isWhiteSpace h Hhq) as Hhq'.
    destruct (JS.dropEndWhile JS.isWhiteSpace h) as [|d h'] eqn:Hh'.
    + vm_compute in Hm. discriminate Hm.
    + unfold JS.split_first in Hm. rewrite takeWhile_id in Hm
        by (rewrite all_app, Hhq'; reflexivity).
      unfold JS.replace_trailing_slashes in Hm.
      rewrite dropEndWhile_id in Hm
        by (rewrite ends_with_app by done; by apply ends_with_all_not).
      rewrite match_linkedin_in_canonical in Hm by done.
      injection Hm as Hm. rewrite <- Hm in Hshort. lia.
  - intros Heq. apply (inj Some) in Heq. rewrite Heq in Hlen1.
    simpl in *. lia.
Qed.

(** The fixed points among the results are exactly the trimmed ones. *)
Lemma normalizeLinkedInUrl_fixed_iff x :
  normalizeLinkedInUrl (normalizeLinkedInUrl x) = normalizeLinkedInUrl x
  ↔ trimmed (normalizeLinkedInUrl x) = true.
Proof.
  split; [|apply normalizeLinkedInUrl_trimmed_fixed].
  destruct (normalizeLinkedInUrl x) as [[|c s]|]; [done| |done].
  intros Hfix. cbn [trimmed]. apply negb_true_iff.
  destruct (JS.ends_with JS.isWhiteSpace (String c s)) eqn:Hend; [|done].
  by apply normalizeLinkedInUrl_untrimmed_moves in Hend.
Qed.

End NormalizeLinkedInUrl.

(** ** normalizeUrl *)

Lemma normalizeUrl_idempotent {H : Host} {L : HostLaws H} (x : string) :
  normalizeUrl (normalizeUrl x) = normalizeUrl x.
Proof.
  unfold normalizeUrl. destruct (URL_new x) as [u|] eqn:E.
  - rewrite (URL_reparse _ _ E). by rewrite URL_clear_hash_idemp.
  - by rewrite E.
Qed.

(** The reference host keeps the promises of [HostLaws]. *)
Section ReferenceHostFacts.

Import ReferenceHost.

Local Abbreviation notChar sep := (λ c, negb (Ascii.eqb c sep)).

Lemma app_empty_r a : a +:+ "" = a.
Proof. induction a as [|c a IH]; [done|]. by rewrite app_cons, IH. Qed.

Lemma takeWhile_app_stop p a c b :
  JS.all p a = true → p c = false → JS.takeWhile p (a +:+ String c b) = a.
Proof.
  intros Ha Hc. induction a as [|d a IH].
  - rewrite app_empty. simpl. by rewrite Hc.
  - rewrite app_cons. simpl in *. apply andb_prop in Ha as [Hd Ha].
    by rewrite Hd, IH.
Qed.

Lemma dropWhile_app_stop p a c b :
  JS.all p a = true → p c = false →
  JS.dropWhile p (a +:+ String c b) = String c b.
Proof.
  intros Ha Hc. induction a as [|d a IH].
  - rewrite app_empty. simpl. by rewrite Hc.
  - rewrite app_cons. simpl in *. apply andb_prop in Ha as [Hd Ha].
    by rewrite Hd, IH.
Qed.

Lemma dropWhile_all p a : JS.all p a = true → JS.dropWhile p a = "".
Proof.
  induction a as [|d a IH]; [done|]. simpl.
  intros [Hd Ha]%andb_prop. by rewrite Hd, IH.
Qed.

Lemma after_first_absent sep s :
  JS.all (notChar sep) s = true → after_first sep s = None.
Proof. intros Hs. unfold after_first. by rewrite dropWhile_all. Qed.

Lemma after_first_all p sep s q :
  after_first sep s = Some q → JS.all p s = true → JS.all p q = true.
Proof.
  unfold after_first. intros Hq Hs.
  pose proof (all_dropWhile p (notChar sep) s Hs) as Hd.
  destruct (JS.dropWhile (notChar sep) s) as [|c r]; [done|].
  injection Hq as <-. simpl in Hd. by apply andb_prop in Hd as [_ ?].
Qed.

Lemma isSchemeChar_lower c :
  isSchemeChar c = true → isSchemeChar (JS.toLowerCase_char c) = true.
Proof. destruct c as [[] [] [] [] [] [] [] []]; done. Qed.

Lemma isAlpha_lower c : isAlpha c = true → isAlpha (JS.toLowerCase_char c) = true.
Proof. destruct c as [[] [] [] [] [] [] [] []]; done. Qed.

Lemma isSchemeChar_not_colon c : isSchemeChar c = true → Ascii.eqb c ":" = false.
Proof. destruct c as [[] [] [] [] [] [] [] []]; done. Qed.

Lemma scan_scheme_chars s sch r :
  scan_scheme s = Some (sch, r) → JS.all isSchemeChar sch = true.
Proof.
  revert sch. induction s as [|c s IH]; intros sch; simpl; [done|].
  destruct (Ascii.eqb c ":"); [by intros [= <- <-]|].
  destruct (isSchemeChar c) eqn:Hc; [|done].
  destruct (scan_scheme s) as [[a r']|]; [|done]. simpl.
  intros [= <- <-]. simpl. rewrite Hc. by apply IH.
Qed.

Lemma scan_scheme_lower sch rest :
  JS.all isSchemeChar sch = true →
  scan_scheme (JS.toLowerCase sch +:+ String ":" rest)
  = Some (JS.toLowerCase sch, rest).
Proof.
  induction sch as [|c sch IH]; [done|].
  cbn [JS.all JS.toLowerCase]. intros [Hc Hs]%andb_prop.
  rewrite app_cons. cbn [scan_scheme].
  rewrite (isSchemeChar_not_colon _ (isSchemeChar_lower _ Hc)).
  rewrite (isSchemeChar_lower _ Hc). by rewrite (IH Hs).
Qed.

Lemma reference_url_reparse s u :
  url_new s = Some u →
  url_new (url_toString (url_clear_hash u)) = Some (url_clear_hash u).
Proof.
  unfold url_new. destruct s as [|c s]; [done|].
  destruct (isAlpha c) eqn:Hc; [|done].
  destruct (scan_scheme (String c s)) as [[sch r]|] eqn:Hs; [|done]. simpl.
  intros [= <-]. unfold url_toString, url_clear_hash. simpl.
  pose proof (scan_scheme_chars _ _ _ Hs) as Hsch.
  assert (∃ a, sch = String c a) as [a ->].
  { simpl in Hs. destruct (Ascii.eqb c ":") eqn:E.
    - apply Ascii.eqb_eq in E. by subst c.
    - destruct (isSchemeChar c); [|done].
      destruct (scan_scheme s) as [[a r']|]; [|done]. simpl in Hs.
      injection Hs as <- <-. by eexists. }
  set (pre := JS.split_first "#" r).
  set (h := JS.split_first "?" pre).
  set (tl := match after_first "?" pre with
             | Some q => "?" +:+ q
             | None => ""
             end).
  assert (JS.all (notChar "#") pre = true) as Hpre by apply takeWhile_all.
  assert (JS.all (notChar "#") h = true) as Hh by by apply all_takeWhile.
  assert (JS.all (notChar "?") h = true) as Hhq by apply takeWhile_all.
  assert (JS.all (notChar "#") tl = true) as Htl.
  { subst tl. destruct (after_first "?" pre) as [q|] eqn:Hq; [|done].
    rewrite app_cons, app_empty. simpl. by eapply after_first_all. }
  assert (JS.split_first "?" (h +:+ tl) = h
          ∧ after_first "?" (h +:+ tl) = after_first "?" pre) as [Eh Eq].
  { subst tl. destruct (after_first "?" pre) as [q|] eqn:Hq; cbv beta iota.
    - rewrite app_cons, app_empty. unfold JS.split_first, after_first.
      by rewrite takeWhile_app_stop, dropWhile_app_stop.
    - rewrite app_empty_r. split.
      + unfold JS.split_first at 1. by rewrite takeWhile_id.
      + by apply after_first_absent. }
  rewrite app_empty_r.
  change (String (JS.toLowerCase_char c) (JS.toLowerCase a))
    with (JS.toLowerCase (String c a)).
  rewrite app_cons, app_empty.
  remember (JS.toLowerCase (String c a) +:+ String ":" (h +:+ tl))
    as out eqn:Hout.
  assert (∃ o, out = String (JS.toLowerCase_char c) o) as [o Ho].
  { subst out. simpl. rewrite app_cons. by eexists. }
  rewrite Ho, (isAlpha_lower _ Hc), <- Ho, Hout.
  rewrite (scan_scheme_lower _ _ Hsch). simpl.
  assert (JS.all (notChar "#") (h +:+ tl) = true) as Hall
    by (rewrite all_app, Hh, Htl; done).
  assert (JS.split_first "#" (h +:+ tl) = h +:+ tl) as ->
    by apply takeWhile_id, Hall.
  rewrite Eh, Eq, (after_first_absent _ _ Hall).
  by rewrite toLowerCase_char_idemp, toLowerCase_idemp.
Qed.

#[local] Instance reference_host_laws : HostLaws ReferenceHost.host.
Proof.
  split.
  - by intros [].
  - exact reference_url_reparse.
Qed.

End ReferenceHostFacts.

(** ** The pending-lead store *)

Section PendingLeads.

Implicit Types (pendingLeads : gmap string lead) (l : lead).

Lemma normalizeLinkedInUrl_empty_not_fixed key :
  normalizeLinkedInUrl (Some key) = Some key → key ≠ "".
Proof. by intros Hk ->. Qed.

Lemma getPendingLead_hit pendingLeads key l url :
  key ≠ "" →
  normalizeLinkedInUrl url = Some key →
  pendingLeads !! key = Some l →
  getPendingLead url pendingLeads = (Some l, delete key pendingLeads).
Proof.
  intros Hne Hu Hl. unfold getPendingLead. rewrite Hu.
  destruct key; [done|]. by rewrite Hl.
Qed.

Lemma getPendingLead_second pendingLeads url l pendingLeads' :
  getPendingLead url pendingLeads = (Some l, pendingLeads') →
  getPendingLead url pendingLeads' = (None, pendingLeads').
Proof.
  unfold getPendingLead.
  destruct (normalizeLinkedInUrl url) as [[|c key]|] eqn:Hu; try done.
  destruct (pendingLeads !! String c key) eqn:Hl; [|done].
  intros [= <- <-]. by rewrite lookup_delete_eq.
Qed.

Lemma pending_leads_inv_empty : pending_leads_inv ∅.
Proof. intros key l. by rewrite lookup_empty. Qed.

Lemma addPendingLead_inv isoNow l pendingLeads :
  pending_leads_inv pendingLeads →
  pending_leads_inv (addPendingLead isoNow l pendingLeads).2.
Proof.
  intros Hinv. unfold addPendingLead.
  destruct (normalizeLinkedInUrl (linkedinUrl l)) as [[|c k]|] eqn:Hn;
    try done.
  simpl. intros key l'. rewrite lookup_insert.
  case_decide as Hk; [|by apply Hinv].
  intros [= <-]. subst key. repeat split; try done; by eauto.
Qed.

Lemma getPendingLead_inv url pendingLeads :
  pending_leads_inv pendingLeads →
  pending_leads_inv (getPendingLead url pendingLeads).2.
Proof.
  intros Hinv. unfold getPendingLead.
  destruct (normalizeLinkedInUrl url) as [[|c k]|]; try done.
  destruct (pendingLeads !! String c k); [|done].
  simpl. intros key l'. rewrite lookup_delete.
  case_decide; [done|]. apply Hinv.
Qed.

Lemma hasPendingLead_unchanged url pendingLeads :
  (hasPendingLead url pendingLeads).2 = pendingLeads.
Proof.
  unfold hasPendingLead.
  by destruct (normalizeLinkedInUrl url) as [[|c k]|].
Qed.

End PendingLeads.

(** C4, as the code has it.  In a store the module's operations have
    built, a lead stored under [key] is returned and removed by
    [getPendingLead] called with any URL that normalizes to [key], and
    there is such a URL; an immediate second call for the same URL
    returns absent.  The key itself is such a URL exactly when it does
    not end in white space: then a call with the key returns the lead and
    removes it; otherwise a call with the key does not return the lead
    and leaves it in the store.  In any store, once [getPendingLead] has
    returned a lead, the next call with the same argument returns absent:
    a lead is consumed at most once.  A lead that [addPendingLead] has
    just stored is returned, stamped, to the spelling it was added
    with. *)
Theorem getPendingLead_consume_once
    (pendingLeads : gmap string lead) (key : string) (l : lead) :
  pending_leads_inv pendingLeads →
  pendingLeads !! key = Some l →
  (∃ url, normalizeLinkedInUrl url = Some key)
  ∧ (∀ url, normalizeLinkedInUrl url = Some key →
       getPendingLead url pendingLeads = (Some l, delete key pendingLeads)
       ∧ delete key pendingLeads !! key = None
       ∧ getPendingLead url (delete key pendingLeads)
         = (None, delete key pendingLeads))
  ∧ (normalizeLinkedInUrl (Some key) = Some key
     ↔ JS.ends_with JS.isWhiteSpace key = false)
  ∧ (JS.ends_with JS.isWhiteSpace key = false →
     getPendingLead (Some key) pendingLeads
     = (Some l, delete key pendingLeads))
  ∧ (JS.ends_with JS.isWhiteSpace key = true →
     (getPendingLead (Some key) pendingLeads).1 ≠ Some l
     ∧ (getPendingLead (Some key) pendingLeads).2 !! key = Some l)
  ∧ (∀ url store l' store',
       getPendingLead url store = (Some l', store') →
       getPendingLead url store' = (None, store'))
  ∧ (∀ isoNow added store key',
       let after := addPendingLead isoNow added store in
       after.1 = Some key' →
       getPendingLead (linkedinUrl added) after.2
       = (Some (stamp_lead added key' isoNow), delete key' after.2)).
Proof.
  intros Hinv Hl.
  destruct (Hinv _ _ Hl) as (Hne & [x Hx] & Hfield & _).
  assert (normalizeLinkedInUrl (Some key) = Some key
          ↔ JS.ends_with JS.isWhiteSpace key = false) as Hfix.
  { pose proof (normalizeLinkedInUrl_fixed_iff x) as Hiff.
    rewrite Hx in Hiff. rewrite Hiff.
    destruct key; [done|]. cbn [trimmed]. apply negb_true_iff. }
  split; [by exists x|]. split; [|split; [done|split; [|split; [|split]]]].
  - intros url Hu.
    pose proof (getPendingLead_hit _ _ _ _ Hne Hu Hl) as Hfirst.
    repeat split; [done|apply lookup_delete_eq|].
    by eapply getPendingLead_second.
  - intros Hend. apply getPendingLead_hit; [done|by apply Hfix|done].
  - intros Hend.
    assert (normalizeLinkedInUrl (Some key) ≠ Some key) as Hmoves.
    { intros Heq. apply Hfix in Heq. congruence. }
    unfold getPendingLead.
    destruct (normalizeLinkedInUrl (Some key)) as [[|c k]|]; try done.
    destruct (pendingLeads !! String c k) as [l'|] eqn:Hl'; cbn [fst snd];
      [|done].
    split.
    + intros [= ->]. destruct (Hinv _ _ Hl') as (_ & _ & Hfield' & _).
      congruence.
    + rewrite lookup_delete_ne; [done|]. intros <-. done.
  - intros url store l' store'. apply getPendingLead_second.
  - intros isoNow added store key'. unfold addPendingLead.
    destruct (normalizeLinkedInUrl (linkedinUrl added)) as [[|c k]|] eqn:Hn;
      try done.
    simpl. intros [= <-].
    apply getPendingLead_hit; [done|done|apply lookup_insert_eq].
Qed.

Lemma getPendingLead_consume_once_witness :
  let key := "https://www.linkedin.com/in/johndoe" in
  let url := Some "linkedin.com/in/johndoe/" in
  ∃ l, scenario_pendingLeads !! key = Some l
    ∧ getPendingLead url scenario_pendingLeads
      = (Some l, delete key scenario_pendingLeads)
    ∧ getPendingLead url (delete key scenario_pendingLeads)
      = (None, delete key scenario_pendingLeads)
    ∧ getPendingLead (Some key) scenario_pendingLeads
      = (Some l, delete key scenario_pendingLeads).
Proof.
  intros key url.
  assert (is_Some (scenario_pendingLeads !! key)) as [l Hl]
    by (vm_compute; eauto).
  exists l. split; [exact Hl|].
  destruct (getPendingLead_consume_once scenario_pendingLeads key l)
    as (_ & Hany & _ & Hkey & _);
    [apply addPendingLead_inv, pending_leads_inv_empty|exact Hl|].
  destruct (Hany url) as (H1 & _ & H2); [reflexivity|].
  split; [exact H1|]. split; [exact H2|]. apply Hkey. reflexivity.
Defined.

(** C4 with "that URL" read as the key under which the lead is stored
    fails: the lead extracted from [x/ / ?trk] is stored under the key
    [x/ ], and [getPendingLead] called with that key looks under [x],
    returns nothing and removes nothing. *)
Lemma getPendingLead_misses_stored_key :
  let l := extracted_lead (Some "x/ / ?trk") in
  let stored := addPendingLead "2024-01-15T17:00:00.000Z" l ∅ in
  stored.1 = Some "x/ "
  ∧ stored.2 !! "x/ " = Some (stamp_lead l "x/ " "2024-01-15T17:00:00.000Z")
  ∧ normalizeLinkedInUrl (Some "x/ ") = Some "x"
  ∧ getPendingLead (Some "x/ ") stored.2 = (None, stored.2).
Proof.
  intros l stored. split; [reflexivity|].
  assert (stored.2
          = <["x/ " := stamp_lead l "x/ " "2024-01-15T17:00:00.000Z"]> ∅)
    as Hstored by reflexivity.
  split; [rewrite Hstored; apply lookup_insert_eq|].
  split; [reflexivity|].
  rewrite Hstored. unfold getPendingLead.
  change (normalizeLinkedInUrl (Some "x/ ")) with (Some "x").
  cbn iota. by rewrite lookup_insert_ne, lookup_empty.
Qed.

(** C6, as the code has it.  [normalizeLinkedInUrl] maps its result to
    itself exactly when that result is [null] or a non-empty string that
    does not end in white space; this is so for every input without white
    space of which something is left, hence for the already-canonical,
    trailing-slash, query-string and mixed-case URL forms.  On a host
    whose URL class reads its serialisations back, [normalizeUrl] is
    idempotent on every string. *)
Theorem normalizers_idempotent {H : Host} {L : HostLaws H} :
  (∀ x : option string,
     normalizeLinkedInUrl (normalizeLinkedInUrl x) = normalizeLinkedInUrl x
     ↔ trimmed (normalizeLinkedInUrl x) = true)
  ∧ (∀ s : string,
       JS.all (λ c, negb (JS.isWhiteSpace c)) s = true →
       normalizeLinkedInUrl (Some s) ≠ Some "" →
       normalizeLinkedInUrl (normalizeLinkedInUrl (Some s))
       = normalizeLinkedInUrl (Some s))
  ∧ (∀ x : string, normalizeUrl (normalizeUrl x) = normalizeUrl x).
Proof.
  split; [|split].
  - apply normalizeLinkedInUrl_fixed_iff.
  - intros s Hs Hne.
    by apply normalizeLinkedInUrl_trimmed_fixed,
      normalizeLinkedInUrl_no_space_trimmed.
  - apply normalizeUrl_idempotent.
Qed.

Lemma normalizers_idempotent_witness :
  Forall (λ x, normalizeLinkedInUrl (normalizeLinkedInUrl x)
               = normalizeLinkedInUrl x)
    [Some "https://www.linkedin.com/in/johndoe";
     Some "https://www.linkedin.com/in/johndoe/";
     Some "https://www.linkedin.com/in/johndoe?trk=x";
     Some "HTTPS://WWW.LinkedIn.com/in/JohnDoe";
     Some ""; None]
  ∧ Forall (λ x, let normalizeUrl := normalizeUrl (H := ReferenceHost.host) in
                 normalizeUrl (normalizeUrl x) = normalizeUrl x)
    ["https://zoom.us/j/123"; "https://zoom.us/j/123/";
     "https://zoom.us/j/123?pwd=abc#top"; "HTTPS://zoom.us/j/123";
     "zoom.us/j/123"].
Proof.
  destruct (normalizers_idempotent (L := reference_host_laws))
    as (HL & _ & HU).
  split.
  - repeat constructor; apply HL; reflexivity.
  - repeat constructor; apply HU.
Defined.

(** C6 as the specification words it, for every input, fails: white space
    before the query string, or a blank input, is normalized differently
    the second time. *)
Lemma normalizeLinkedInUrl_not_idempotent :
  normalizeLinkedInUrl (Some "https://www.linkedin.com/in/johndoe ?trk=x")
  = Some "https://www.linkedin.com/in/johndoe "
  ∧ normalizeLinkedInUrl (Some "https://www.linkedin.com/in/johndoe ")
    = Some "https://www.linkedin.com/in/johndoe"
  ∧ normalizeLinkedInUrl (Some " ") = Some ""
  ∧ normalizeLinkedInUrl (Some "") = None
  ∧ ¬ (∀ x, normalizeLinkedInUrl (normalizeLinkedInUrl x)
            = normalizeLinkedInUrl x).
Proof.
  repeat split; try reflexivity.
  intros Hid. specialize (Hid (Some " ")). discriminate Hid.
Qed.

(** C9, as the code has it.  The pending-lead store keeps this invariant
    from the empty store on, through [addPendingLead], [getPendingLead]
    and [hasPendingLead] and so after any sequence of calls: every key is
    a non-empty output of [normalizeLinkedInUrl] (and a fixed point of it
    exactly when the key does not end in white space), and the entry's
    [linkedinUrl] field equals its key; [addPendingLead] stores the entry
    under the key it returns, with that key as [linkedinUrl] and with the
    [addedAt] stamp. *)
Theorem pending_leads_invariant :
  pending_leads_inv ∅
  ∧ (∀ isoNow l pendingLeads,
       pending_leads_inv pendingLeads →
       pending_leads_inv (addPendingLead isoNow l pendingLeads).2
       ∧ ∀ key, (addPendingLead isoNow l pendingLeads).1 = Some key →
           ∃ l', (addPendingLead isoNow l pendingLeads).2 !! key = Some l'
                 ∧ linkedinUrl l' = Some key
                 ∧ addedAt l' = Some isoNow)
  ∧ (∀ url pendingLeads,
       pending_leads_inv pendingLeads →
       pending_leads_inv (getPendingLead url pendingLeads).2)
  ∧ (∀ url pendingLeads,
       pending_leads_inv pendingLeads →
       pending_leads_inv (hasPendingLead url pendingLeads).2)
  ∧ (∀ calls, pending_leads_inv (foldl lead_step ∅ calls))
  ∧ (∀ pendingLeads key l,
       pending_leads_inv pendingLeads →
       pendingLeads !! key = Some l →
       normalizeLinkedInUrl (Some key) = Some key
       ↔ JS.ends_with JS.isWhiteSpace key = false).
Proof.
  split; [apply pending_leads_inv_empty|].
  split; [|split; [|split; [|split]]].
  - intros isoNow l pendingLeads Hinv.
    split; [by apply addPendingLead_inv|].
    unfold addPendingLead.
    destruct (normalizeLinkedInUrl (linkedinUrl l)) as [[|c k]|]; try done.
    simpl. intros key [= <-]. rewrite lookup_insert_eq. by eexists.
  - intros url pendingLeads. apply getPendingLead_inv.
  - intros url pendingLeads. by rewrite hasPendingLead_unchanged.
  - intros calls. generalize pending_leads_inv_empty.
    generalize (∅ : gmap string lead).
    induction calls as [|c calls IH]; intros store Hinv; [done|].
    simpl. apply IH. destruct c; simpl.
    + by apply addPendingLead_inv.
    + by apply getPendingLead_inv.
    + by rewrite hasPendingLead_unchanged.
  - intros pendingLeads key l Hinv Hl.
    destruct (Hinv _ _ Hl) as (Hne & [x Hx] & _).
    pose proof (normalizeLinkedInUrl_fixed_iff x) as Hiff.
    rewrite Hx in Hiff. rewrite Hiff.
    destruct key; [done|]. cbn [trimmed]. apply negb_true_iff.
Qed.

Lemma pending_leads_invariant_witness :
  pending_leads_inv scenario_pendingLeads
  ∧ normalizeLinkedInUrl (Some "https://www.linkedin.com/in/johndoe")
    = Some "https://www.linkedin.com/in/johndoe".
Proof.
  destruct pending_leads_invariant as (Hempty & Hadd & _ & _ & _ & Hfix).
  destruct (Hadd "2024-01-15T17:00:00.000Z"
              (extracted_lead (Some "https://www.linkedin.com/in/JohnDoe?trk=x"))
              ∅ Hempty) as [Hinv Hkey].
  destruct (Hkey "https://www.linkedin.com/in/johndoe" eq_refl)
    as (l' & Hl' & _).
  split; [exact Hinv|].
  by apply (Hfix _ _ _ Hinv Hl').
Defined.

(** C9 with every key a fixed point fails: a lead whose profile URL
    [extractLeadData] has already normalized can still be stored under a
    key that [normalizeLinkedInUrl] would change. *)
Lemma pending_leads_fixed_inv_not_preserved :
  let l := extracted_lead (Some "x/ / ?trk") in
  let after := addPendingLead "2024-01-15T17:00:00.000Z" l ∅ in
  pending_leads_fixed_inv ∅
  ∧ linkedinUrl l = Some "x/ / "
  ∧ after.1 = Some "x/ "
  ∧ normalizeLinkedInUrl (Some "x/ ") = Some "x"
  ∧ ¬ pending_leads_fixed_inv after.2.
Proof.
  intros l after. split; [|repeat split; try reflexivity].
  - intros key l'. by rewrite lookup_empty.
  - intros Hinv.
    assert (is_Some (after.2 !! "x/ ")) as [l' Hl'] by (vm_compute; eauto).
    destruct (Hinv _ _ Hl') as [Hfix _]. discriminate Hfix.
Qed.

(** ** The booking store *)

Lemma TTL_MS_value : TTL_MS = 86400000.
Proof. reflexivity. Qed.

Lemma cleanup_elem now (bookings : bookings_map) key rec :
  (key, rec) ∈ cleanup now bookings
  ↔ (key, rec) ∈ bookings ∧ now - Booking.createdAt rec ≤ TTL_MS.
Proof.
  unfold cleanup. rewrite !list_elem_of_In, filter_In. simpl.
  destruct (Z.gtb_spec (now - Booking.createdAt rec) TTL_MS);
    simpl; intuition (done || lia).
Qed.

Lemma cleanup_idemp now (bookings : bookings_map) :
  cleanup now (cleanup now bookings) = cleanup now bookings.
Proof.
  unfold cleanup. induction bookings as [|[k r] bookings IH]; [done|].
  simpl. destruct (negb _) eqn:E; simpl; rewrite ?E, IH; done.
Qed.

Lemma Map_set_elem key value (m : bookings_map) :
  (key, value) ∈ Map_set key value m.
Proof.
  induction m as [|[k v] m IH]; simpl; [apply list_elem_of_here|].
  destruct (String.eqb k key);
    [apply list_elem_of_here|by apply list_elem_of_further].
Qed.

Lemma Map_set_elem_other key value (m : bookings_map) key' rec :
  (key', rec) ∈ m → key ≠ key' → (key', rec) ∈ Map_set key value m.
Proof.
  intros Hin Hne. induction m as [|[k v] m IH]; [by apply not_elem_of_nil in Hin|].
  simpl. destruct (String.eqb_spec k key) as [->|Hk].
  - apply elem_of_cons in Hin as [[= -> ->]|Hin]; [done|].
    by apply list_elem_of_further.
  - apply elem_of_cons in Hin as [Heq|Hin].
    + rewrite Heq. apply list_elem_of_here.
    + by apply list_elem_of_further, IH.
Qed.

Lemma addBooking_elem now record (bookings : bookings_map) :
  (Booking.eventUuid record, Booking.stamp record now)
  ∈ addBooking now record bookings.
Proof.
  unfold addBooking. apply cleanup_elem. split; [apply Map_set_elem|].
  simpl. rewrite TTL_MS_value. lia.
Qed.

Lemma emailsAlign_spec rec guestEmail hostEmail :
  emailsAlign rec guestEmail hostEmail = true
  ↔ guests_align rec guestEmail ∧ hosts_align rec hostEmail.
Proof.
  unfold emailsAlign, guests_align, hosts_align, same_ignoring_case.
  rewrite andb_true_iff. f_equiv.
  - destruct (Booking.guestEmail rec) as [[|c r]|], guestEmail as [[|d g]|];
      try (split; [done|]; intros (? & ? & ? & ? & ? & ? & ?); congruence).
    rewrite String.eqb_eq. split.
    + intros Heq. by eexists _, _.
    + intros (? & ? & [= <-] & [= <-] & _ & _ & Heq). done.
  - destruct (Booking.hostEmail rec) as [[|c r]|], hostEmail as [[|d h]|];
      try (split; [|done]; intros _; by auto).
    rewrite String.eqb_eq. split.
    + intros Heq. right. right. by eexists _, _.
    + intros [?|[?|(? & ? & [= <-] & [= <-] & ?)]]; done.
Qed.

Section MeetingStoreFacts.
Context {H : Host}.

Implicit Types (bookings entries : bookings_map) (rec : Booking.t).
Implicit Types meetingUrl guestEmail hostEmail startTime : option string.

Lemma qualifies_emailsAlign rec meetingUrl guestEmail hostEmail startTime :
  qualifies rec meetingUrl guestEmail hostEmail startTime = true →
  emailsAlign rec guestEmail hostEmail = true.
Proof.
  unfold qualifies.
  destruct (emailsAlign rec guestEmail hostEmail); [done|].
  by rewrite !andb_false_r.
Qed.

Lemma qualifies_by_rule rec meetingUrl guestEmail hostEmail startTime :
  qualifies rec meetingUrl guestEmail hostEmail startTime
  = (url_rule rec meetingUrl || time_rule rec startTime)
    && emailsAlign rec guestEmail hostEmail.
Proof.
  unfold qualifies.
  by destruct (url_rule _ _), (time_rule _ _), (emailsAlign _ _ _).
Qed.

Lemma url_rule_truthy rec meetingUrl :
  url_rule rec meetingUrl = true → JS.truthy meetingUrl = true.
Proof. unfold url_rule. by destruct meetingUrl as [[|??]|]. Qed.

Lemma time_rule_truthy rec startTime :
  time_rule rec startTime = true → JS.truthy startTime = true.
Proof. unfold time_rule. by destruct startTime as [[|??]|]. Qed.

Lemma qualifies_passes_guard rec meetingUrl guestEmail hostEmail startTime :
  qualifies rec meetingUrl guestEmail hostEmail startTime = true →
  negb (JS.truthy meetingUrl) && negb (JS.truthy startTime) = false.
Proof.
  rewrite qualifies_by_rule.
  intros [[Hu|Ht]%orb_prop _]%andb_prop.
  - by rewrite (url_rule_truthy _ _ Hu).
  - by rewrite (time_rule_truthy _ _ Ht), andb_false_r.
Qed.

Lemma findMatch_loop_first entries meetingUrl guestEmail hostEmail startTime rec :
  findMatch_loop entries meetingUrl guestEmail hostEmail startTime = Some rec
  ↔ first_qualifying entries meetingUrl guestEmail hostEmail startTime rec.
Proof.
  split.
  - induction entries as [|[k r] entries IH]; [done|]. simpl.
    destruct (qualifies r _ _ _ _) eqn:Hq.
    + intros [= <-]. by exists [], k, entries.
    + intros (before & key & after & -> & Hb & Hr)%IH.
      exists ((k, r) :: before), key, after. split; [done|].
      split; [by constructor|done].
  - intros (before & key & after & -> & Hb & Hr).
    induction Hb as [|[k r] before Hq Hb IH]; simpl in *.
    + by rewrite Hr.
    + by rewrite Hq.
Qed.

Lemma findMatch_loop_finds entries meetingUrl guestEmail hostEmail startTime key rec :
  (key, rec) ∈ entries →
  qualifies rec meetingUrl guestEmail hostEmail startTime = true →
  is_Some (findMatch_loop entries meetingUrl guestEmail hostEmail startTime).
Proof.
  intros Hin Hq. induction entries as [|[k r] entries IH].
  - by apply not_elem_of_nil in Hin.
  - simpl. destruct (qualifies r _ _ _ _) eqn:Hr; [by eexists|].
    apply IH. apply elem_of_cons in Hin as [[= -> ->]|Hin]; [congruence|done].
Qed.

Lemma findMatch_store now meetingUrl guestEmail hostEmail startTime bookings :
  (findMatch now meetingUrl guestEmail hostEmail startTime bookings).2
  = cleanup now bookings.
Proof. unfold findMatch. by destruct (_ && _). Qed.

Lemma findMatch_first now meetingUrl guestEmail hostEmail startTime bookings rec :
  (findMatch now meetingUrl guestEmail hostEmail startTime bookings).1 = Some rec
  ↔ first_qualifying (cleanup now bookings)
      meetingUrl guestEmail hostEmail startTime rec.
Proof.
  rewrite <- findMatch_loop_first. unfold findMatch.
  destruct (_ && _) eqn:Hguard; simpl; [|done].
  split; [done|]. intros Hloop. exfalso.
  apply findMatch_loop_first in Hloop as (? & ? & ? & _ & _ & Hq).
  apply qualifies_passes_guard in Hq. congruence.
Qed.

Lemma findMatch_finds now meetingUrl guestEmail hostEmail startTime bookings key rec :
  (key, rec) ∈ cleanup now bookings →
  qualifies rec meetingUrl guestEmail hostEmail startTime = true →
  ∃ rec',
    (findMatch now meetingUrl guestEmail hostEmail startTime bookings).1
    = Some rec'.
Proof.
  intros Hin Hq. unfold findMatch.
  rewrite (qualifies_passes_guard _ _ _ _ _ Hq). simpl.
  by eapply findMatch_loop_finds.
Qed.

Lemma findMatch_live now meetingUrl guestEmail hostEmail startTime bookings rec :
  (findMatch now meetingUrl guestEmail hostEmail startTime bookings).1 = Some rec →
  ∃ key, (key, rec) ∈ bookings ∧ now - Booking.createdAt rec ≤ TTL_MS.
Proof.
  intros (before & key & after & Heq & _)%findMatch_first.
  exists key. apply cleanup_elem. rewrite Heq.
  apply elem_of_app. right. apply list_elem_of_here.
Qed.

End MeetingStoreFacts.

(** C3.  [findMatch] returns a booking only when email alignment holds:
    the booking's and the candidate's guest emails are both present and
    equal ignoring case, and the host emails are equal ignoring case
    unless one of them is absent, in which case the host comparison does
    not block the match. *)
Theorem findMatch_requires_email_alignment {H : Host}
    (now : Z) (meetingUrl guestEmail hostEmail startTime : option string)
    (bookings bookings' : bookings_map) (rec : Booking.t) :
  findMatch now meetingUrl guestEmail hostEmail startTime bookings
  = (Some rec, bookings') →
  emailsAlign rec guestEmail hostEmail = true
  ∧ guests_align rec guestEmail
  ∧ hosts_align rec hostEmail
  ∧ (∀ rec' g h,
       emailsAlign rec' g h = true ↔ guests_align rec' g ∧ hosts_align rec' h).
Proof.
  intros Hfind.
  assert ((findMatch now meetingUrl guestEmail hostEmail startTime bookings).1
          = Some rec) as Hrec by by rewrite Hfind.
  apply findMatch_first in Hrec as (_ & _ & _ & _ & _ & Hq).
  apply qualifies_emailsAlign in Hq.
  split; [done|]. split; [by apply emailsAlign_spec in Hq as [? ?]|].
  split; [by apply emailsAlign_spec in Hq as [? ?]|].
  intros rec' g h. apply emailsAlign_spec.
Qed.

Lemma findMatch_requires_email_alignment_witness :
  let stored := Booking.stamp booking_E1 scenario_booked_at in
  findMatch (H := ReferenceHost.host) scenario_now
    (Some "https://zoom.us/j/123") (Some "A@X.com") None
    (Some "2024-01-15T10:05:00Z") scenario_bookings
  = (Some stored, scenario_bookings)
  ∧ guests_align stored (Some "A@X.com")
  ∧ hosts_align stored None.
Proof.
  intros stored.
  assert (findMatch (H := ReferenceHost.host) scenario_now
            (Some "https://zoom.us/j/123") (Some "A@X.com") None
            (Some "2024-01-15T10:05:00Z") scenario_bookings
          = (Some stored, scenario_bookings)) as Hfind by reflexivity.
  split; [exact Hfind|].
  destruct (findMatch_requires_email_alignment _ _ _ _ _ _ _ _ Hfind)
    as (_ & Hg & Hh & _).
  by split.
Defined.

(** C8.  A candidate whose [meetingUrl] and [startTime] are both absent
    gets [null], whatever the store holds and whatever emails the
    candidate carries: [findMatch] never matches on email alone. *)
Theorem findMatch_never_on_email_alone {H : Host}
    (now : Z) (meetingUrl guestEmail hostEmail startTime : option string)
    (bookings : bookings_map) :
  JS.truthy meetingUrl = false →
  JS.truthy startTime = false →
  findMatch now meetingUrl guestEmail hostEmail startTime bookings
  = (None, cleanup now bookings).
Proof. intros Hu Ht. unfold findMatch. by rewrite Hu, Ht. Qed.

Lemma findMatch_never_on_email_alone_witness :
  emailsAlign (Booking.stamp booking_E1 scenario_booked_at)
    (Some "a@x.com") None = true
  ∧ findMatch (H := ReferenceHost.host) scenario_now
      None (Some "a@x.com") None (Some "") scenario_bookings
    = (None, cleanup scenario_now scenario_bookings).
Proof.
  split; [reflexivity|].
  apply (findMatch_never_on_email_alone (H := ReferenceHost.host));
    reflexivity.
Defined.

(** In a store that evaluates to a single entry, a member is that entry. *)
Ltac sole_entry Hin :=
  cbv in Hin; apply list_elem_of_singleton in Hin; by injection Hin as _ ->.

(** C5.  Both store operations run the expiry sweep, [addBooking] after
    its write and [findMatch] before its read, and the sweep removes
    exactly the entries whose age exceeds [TTL_MS], 24 hours.  Hence a
    booking inserted at time [T] is still in the store that [findMatch]
    reads at [T + TTL_MS - 1], where a candidate it qualifies for gets a
    booking back, and gets this one when no other live booking qualifies;
    until its age exceeds [TTL_MS] it stays through every [findMatch] and
    every [addBooking] of another event; and no [findMatch] at or after
    [T + TTL_MS + 1] returns a booking stamped [T]. *)
Theorem booking_expiry {H : Host} :
  TTL_MS = 24 * 60 * 60 * 1000
  ∧ (∀ now record bookings,
       addBooking now record bookings
       = cleanup now (Map_set (Booking.eventUuid record)
                        (Booking.stamp record now) bookings))
  ∧ (∀ now meetingUrl guestEmail hostEmail startTime bookings,
       findMatch now meetingUrl guestEmail hostEmail startTime bookings
       = findMatch now meetingUrl guestEmail hostEmail startTime
           (cleanup now bookings)
       ∧ (findMatch now meetingUrl guestEmail hostEmail startTime bookings).2
         = cleanup now bookings)
  ∧ (∀ now (bookings : bookings_map) key rec,
       (key, rec) ∈ cleanup now bookings
       ↔ (key, rec) ∈ bookings ∧ ¬ now - Booking.createdAt rec > TTL_MS)
  ∧ (∀ T record bookings meetingUrl guestEmail hostEmail startTime,
       let stored := Booking.stamp record T in
       let now := T + TTL_MS - 1 in
       let live := cleanup now (addBooking T record bookings) in
       let result :=
         (findMatch now meetingUrl guestEmail hostEmail startTime
            (addBooking T record bookings)).1 in
       (Booking.eventUuid record, stored) ∈ live
       ∧ (qualifies stored meetingUrl guestEmail hostEmail startTime = true →
          is_Some result
          ∧ ((∀ key rec, (key, rec) ∈ live →
                qualifies rec meetingUrl guestEmail hostEmail startTime = true →
                rec = stored) →
             result = Some stored)))
  ∧ (∀ now (bookings : bookings_map) key rec,
       (key, rec) ∈ bookings →
       now - Booking.createdAt rec ≤ TTL_MS →
       (∀ record, Booking.eventUuid record ≠ key →
          (key, rec) ∈ addBooking now record bookings)
       ∧ (∀ meetingUrl guestEmail hostEmail startTime,
            (key, rec)
            ∈ (findMatch now meetingUrl guestEmail hostEmail startTime
                 bookings).2))
  ∧ (∀ T now meetingUrl guestEmail hostEmail startTime bookings rec,
       T + TTL_MS + 1 ≤ now →
       (findMatch now meetingUrl guestEmail hostEmail startTime bookings).1
       = Some rec →
       Booking.createdAt rec ≠ T).
Proof.
  split; [done|]. split; [done|]. split; [|split; [|split; [|split]]].
  - intros now meetingUrl guestEmail hostEmail startTime bookings.
    split; [|apply findMatch_store].
    unfold findMatch. by rewrite cleanup_idemp.
  - intros now bookings key rec. rewrite cleanup_elem. intuition lia.
  - intros T record bookings meetingUrl guestEmail hostEmail startTime
      stored now live result.
    assert ((Booking.eventUuid record, stored) ∈ live) as Hlive.
    { apply cleanup_elem. split; [apply addBooking_elem|].
      subst stored now. simpl. lia. }
    split; [done|]. intros Hq.
    destruct (findMatch_finds _ _ _ _ _ _ _ _ Hlive Hq) as [rec' Hrec'].
    fold result in Hrec'. split; [by eexists|].
    intros Honly. rewrite Hrec'. f_equal.
    apply findMatch_first in Hrec' as (before & key & after & Heq & _ & Hq').
    apply (Honly key); [|done]. fold live in Heq. rewrite Heq.
    apply elem_of_app. right. apply list_elem_of_here.
  - intros now bookings key rec Hin Hage. split.
    + intros record Hne. apply cleanup_elem.
      split; [by apply Map_set_elem_other|done].
    + intros meetingUrl guestEmail hostEmail startTime.
      rewrite findMatch_store. by apply cleanup_elem.
  - intros T now meetingUrl guestEmail hostEmail startTime bookings rec
      Hlate Hrec.
    apply findMatch_live in Hrec as (key & _ & Hage). lia.
Qed.

Lemma booking_expiry_witness :
  let stored := Booking.stamp booking_E1 scenario_booked_at in
  let candidate now :=
    (findMatch (H := ReferenceHost.host) now
       (Some "https://zoom.us/j/123") (Some "A@X.com") None
       (Some "2024-01-15T10:05:00Z") scenario_bookings).1 in
  candidate (scenario_booked_at + TTL_MS - 1) = Some stored
  ∧ candidate (scenario_booked_at + TTL_MS + 1) ≠ Some stored.
Proof.
  intros stored candidate.
  destruct (booking_expiry (H := ReferenceHost.host))
    as (_ & _ & _ & _ & Hkept & _ & Hgone).
  split.
  - destruct (Hkept scenario_booked_at booking_E1 []
                (Some "https://zoom.us/j/123") (Some "A@X.com") None
                (Some "2024-01-15T10:05:00Z")) as [_ Hret].
    destruct Hret as [_ Hret]; [reflexivity|]. apply Hret.
    intros key rec Hin _. sole_entry Hin.
  - intros Hret.
    by apply (Hgone scenario_booked_at _ _ _ _ _ _ _ ltac:(reflexivity) Hret).
Defined.

(** C10.  The sweep evicts only on an age strictly above [TTL_MS]: a
    booking whose age at sweep time is exactly [TTL_MS] stays in the store
    that [findMatch] reads and leaves behind, where a candidate it
    qualifies for gets a booking back, and gets this one when no other
    live booking qualifies; an entry that a sweep removes is older than
    [TTL_MS]. *)
Theorem cleanup_keeps_exact_ttl {H : Host}
    (now : Z) (bookings : bookings_map) (key : string) (rec : Booking.t) :
  (key, rec) ∈ bookings →
  now - Booking.createdAt rec = TTL_MS →
  (key, rec) ∈ cleanup now bookings
  ∧ (∀ meetingUrl guestEmail hostEmail startTime,
       let found :=
         findMatch now meetingUrl guestEmail hostEmail startTime bookings in
       (key, rec) ∈ found.2
       ∧ (qualifies rec meetingUrl guestEmail hostEmail startTime = true →
          is_Some found.1
          ∧ ((∀ key' rec', (key', rec') ∈ cleanup now bookings →
                qualifies rec' meetingUrl guestEmail hostEmail startTime = true →
                rec' = rec) →
             found.1 = Some rec)))
  ∧ (∀ now' key' rec',
       (key', rec') ∈ bookings →
       (key', rec') ∉ cleanup now' bookings →
       now' - Booking.createdAt rec' > TTL_MS).
Proof.
  intros Hin Hage.
  assert ((key, rec) ∈ cleanup now bookings) as Hlive
    by (apply cleanup_elem; split; [done|lia]).
  split; [done|]. split.
  - intros meetingUrl guestEmail hostEmail startTime found.
    split; [subst found; by rewrite findMatch_store|].
    intros Hq.
    destruct (findMatch_finds _ _ _ _ _ _ _ _ Hlive Hq) as [rec' Hrec'].
    fold found in Hrec'. split; [by eexists|].
    intros Honly. rewrite Hrec'. f_equal.
    apply findMatch_first in Hrec' as (before & k & after & Heq & _ & Hq').
    apply (Honly k); [|done]. rewrite Heq.
    apply elem_of_app. right. apply list_elem_of_here.
  - intros now' key' rec' Hin' Hout.
    destruct (Z_gt_dec (now' - Booking.createdAt rec') TTL_MS); [done|].
    exfalso. apply Hout, cleanup_elem. split; [done|lia].
Qed.

Lemma cleanup_keeps_exact_ttl_witness :
  let stored := Booking.stamp booking_E1 scenario_booked_at in
  let now := scenario_booked_at + TTL_MS in
  now - Booking.createdAt stored = TTL_MS
  ∧ (Booking.eventUuid booking_E1, stored) ∈ cleanup now scenario_bookings
  ∧ (findMatch (H := ReferenceHost.host) now
       (Some "https://zoom.us/j/123") (Some "A@X.com") None
       (Some "2024-01-15T10:05:00Z") scenario_bookings).1 = Some stored.
Proof.
  intros stored now. split; [reflexivity|].
  destruct (cleanup_keeps_exact_ttl (H := ReferenceHost.host) now
              scenario_bookings (Booking.eventUuid booking_E1) stored)
    as (Hlive & Hfind & _); [apply addBooking_elem|reflexivity|].
  split; [exact Hlive|].
  destruct (Hfind (Some "https://zoom.us/j/123") (Some "A@X.com") None
              (Some "2024-01-15T10:05:00Z")) as [_ Hret].
  destruct Hret as [_ Hret]; [reflexivity|]. apply Hret.
  intros key' rec' Hin _. sole_entry Hin.
Defined.

(** A live booking on which the loop body returns makes [findMatch]
    return the first such booking, which is that one when nothing before
    it qualifies. *)
Lemma findMatch_qualifying_live {H : Host}
    now meetingUrl guestEmail hostEmail startTime
    (bookings : bookings_map) key rec :
  (key, rec) ∈ cleanup now bookings →
  qualifies rec meetingUrl guestEmail hostEmail startTime = true →
  ∃ rec',
    findMatch now meetingUrl guestEmail hostEmail startTime bookings
    = (Some rec', cleanup now bookings)
    ∧ first_qualifying (cleanup now bookings)
        meetingUrl guestEmail hostEmail startTime rec'
    ∧ (∀ before after,
         cleanup now bookings = before ++ (key, rec) :: after →
         Forall (λ kr, qualifies kr.2 meetingUrl guestEmail hostEmail
                         startTime = false) before →
         rec' = rec).
Proof.
  intros Hlive Hq.
  destruct (findMatch_finds _ _ _ _ _ _ _ _ Hlive Hq) as [rec' Hrec'].
  exists rec'. split; [|split].
  - rewrite <- Hrec', <- (findMatch_store now meetingUrl guestEmail hostEmail
                           startTime bookings).
    by destruct (findMatch _ _ _ _ _ _).
  - by apply findMatch_first.
  - intros before after Heq Hbefore.
    assert ((findMatch now meetingUrl guestEmail hostEmail startTime
               bookings).1 = Some rec) as Hrec.
    { apply findMatch_first. by exists before, key, after. }
    congruence.
Qed.

(** C7, as the code has it.  If the start times of a candidate and of a
    live stored booking differ by at most 15 minutes in absolute value and
    the emails align, [findMatch] returns the first live booking, in
    insertion order, on which one of its two rules holds: that booking
    when none before it qualifies.  In particular booking [E1] of the
    scenario is returned for the notetaker's candidate, by the
    time-proximity rule (the URL rule fails on the query string) and with
    emails compared ignoring case. *)
Theorem findMatch_time_proximity {H : Host} :
  (∀ now (bookings : bookings_map) key rec
     meetingUrl guestEmail hostEmail startTime s r ts tr,
     (key, rec) ∈ cleanup now bookings →
     startTime = Some s → s ≠ "" →
     Booking.startTime rec = Some r → r ≠ "" →
     Date_getTime s = Some ts →
     Date_getTime r = Some tr →
     Z.abs (tr - ts) ≤ 15 * 60 * 1000 →
     emailsAlign rec guestEmail hostEmail = true →
     ∃ rec',
       findMatch now meetingUrl guestEmail hostEmail startTime bookings
       = (Some rec', cleanup now bookings)
       ∧ first_qualifying (cleanup now bookings)
           meetingUrl guestEmail hostEmail startTime rec'
       ∧ (∀ before after,
            cleanup now bookings = before ++ (key, rec) :: after →
            Forall (λ kr, qualifies kr.2 meetingUrl guestEmail hostEmail
                            startTime = false) before →
            rec' = rec))
  ∧ (let stored := Booking.stamp booking_E1 scenario_booked_at in
     let meetingUrl := Some "https://zoom.us/j/123" in
     let guestEmail := Some "A@X.com" in
     let startTime := Some "2024-01-15T10:05:00Z" in
     findMatch (H := ReferenceHost.host) scenario_now
       meetingUrl guestEmail None startTime scenario_bookings
     = (Some stored, scenario_bookings)
     ∧ url_rule (H := ReferenceHost.host) stored meetingUrl = false
     ∧ time_rule (H := ReferenceHost.host) stored startTime = true
     ∧ emailsAlign stored guestEmail None = true).
Proof.
  split; [|by repeat split].
  intros now bookings key rec meetingUrl guestEmail hostEmail startTime
    s r ts tr Hlive -> Hs Hr Hr' Hts Htr Hdelta Hemails.
  apply findMatch_qualifying_live; [done|].
  rewrite qualifies_by_rule, Hemails, andb_true_r.
  apply orb_true_iff. right. unfold time_rule. rewrite Hr.
  destruct s; [done|]. destruct r; [done|]. rewrite Htr, Hts.
  by apply Z.leb_le.
Qed.

Lemma findMatch_time_proximity_witness :
  let stored := Booking.stamp booking_E1 (scenario_booked_at + 1000) in
  ∃ rec',
    findMatch (H := ReferenceHost.host) scenario_now
      None (Some "A@X.com") None (Some "2024-01-15T10:05:00Z")
      two_guest_bookings
    = (Some rec', cleanup scenario_now two_guest_bookings)
    ∧ qualifies (H := ReferenceHost.host) rec'
        None (Some "A@X.com") None (Some "2024-01-15T10:05:00Z") = true.
Proof.
  intros stored.
  destruct (findMatch_time_proximity (H := ReferenceHost.host)) as [Hgen _].
  destruct (Hgen scenario_now two_guest_bookings "E1" stored
              None (Some "A@X.com") None (Some "2024-01-15T10:05:00Z")
              "2024-01-15T10:05:00Z" "2024-01-15T10:00:00Z"
              1705313100000 1705312800000)
    as (rec' & Hfind & (_ & _ & _ & _ & _ & Hq) & _);
    try done.
  - cbv. apply list_elem_of_further, list_elem_of_here.
  - by exists rec'.
Defined.

(** C7 for every stored booking fails: with two bookings of the same guest
    inside the window the earlier insertion is returned, not the other;
    and a booking still stored but older than [TTL_MS] is swept, not
    returned. *)
Lemma findMatch_time_proximity_first_wins :
  let stored_E0 := Booking.stamp booking_E0 scenario_booked_at in
  let stored_E1 := Booking.stamp booking_E1 (scenario_booked_at + 1000) in
  let guestEmail := Some "A@X.com" in
  let startTime := Some "2024-01-15T10:05:00Z" in
  (("E1", stored_E1) ∈ two_guest_bookings
   ∧ time_rule (H := ReferenceHost.host) stored_E1 startTime = true
   ∧ emailsAlign stored_E1 guestEmail None = true
   ∧ (findMatch (H := ReferenceHost.host) scenario_now
        None guestEmail None startTime two_guest_bookings).1 = Some stored_E0
   ∧ stored_E0 ≠ stored_E1)
  ∧ (("E1", Booking.stamp booking_E1 scenario_booked_at) ∈ scenario_bookings
     ∧ findMatch (H := ReferenceHost.host) (scenario_booked_at + TTL_MS + 1)
         None guestEmail None startTime scenario_bookings
       = (None, [])).
Proof.
  intros stored_E0 stored_E1 guestEmail startTime. split.
  - split; [cbv; apply list_elem_of_further, list_elem_of_here|].
    by repeat split.
  - split; [cbv; apply list_elem_of_here|reflexivity].
Qed.

(** C2, as the code has it.  The URL rule compares the two meeting URLs
    after [normalizeUrl], which clears the fragment only and keeps the
    query string.  For every live stored booking and candidate whose
    meeting URLs are the same URL once the fragment is cleared, and whose
    emails align, [findMatch] returns the first live booking, in insertion
    order, on which one of its two rules holds: that booking when none
    before it qualifies. *)
Theorem findMatch_url_rule {H : Host} :
  (∀ rec m r,
     m ≠ "" → r ≠ "" → Booking.meetingUrl rec = Some r →
     url_rule rec (Some m) = true ↔ normalizeUrl r = normalizeUrl m)
  ∧ (∀ s u,
       ReferenceHost.url_new s = Some u →
       normalizeUrl (H := ReferenceHost.host) s
       = ReferenceHost.scheme u +:+ ":" +:+ ReferenceHost.hier u
         +:+ match ReferenceHost.query u with
             | Some q => "?" +:+ q
             | None => ""
             end)
  ∧ (∀ now (bookings : bookings_map) key rec
       meetingUrl guestEmail hostEmail startTime m r um ur,
       (key, rec) ∈ cleanup now bookings →
       meetingUrl = Some m → m ≠ "" →
       Booking.meetingUrl rec = Some r → r ≠ "" →
       URL_new m = Some um →
       URL_new r = Some ur →
       URL_clear_hash um = URL_clear_hash ur →
       emailsAlign rec guestEmail hostEmail = true →
       ∃ rec',
         findMatch now meetingUrl guestEmail hostEmail startTime bookings
         = (Some rec', cleanup now bookings)
         ∧ first_qualifying (cleanup now bookings)
             meetingUrl guestEmail hostEmail startTime rec'
         ∧ (∀ before after,
              cleanup now bookings = before ++ (key, rec) :: after →
              Forall (λ kr, qualifies kr.2 meetingUrl guestEmail hostEmail
                              startTime = false) before →
              rec' = rec)).
Proof.
  assert (∀ rec m r, m ≠ "" → r ≠ "" → Booking.meetingUrl rec = Some r →
          url_rule rec (Some m) = true ↔ normalizeUrl r = normalizeUrl m)
    as Hrule.
  { intros rec m r Hm Hr Hrec. unfold url_rule. rewrite Hrec.
    destruct m; [done|]. destruct r; [done|]. apply String.eqb_eq. }
  split; [exact Hrule|]. split.
  - intros s u Hu. unfold normalizeUrl. simpl. rewrite Hu.
    unfold ReferenceHost.url_toString. simpl. by rewrite app_empty_r.
  - intros now bookings key rec meetingUrl guestEmail hostEmail startTime
      m r um ur Hlive -> Hm Hr Hr' Hum Hur Hsame Hemails.
    apply findMatch_qualifying_live; [done|].
    rewrite qualifies_by_rule, Hemails, andb_true_r.
    apply orb_true_iff. left. apply (Hrule rec m r Hm Hr' Hr).
    unfold normalizeUrl. by rewrite Hum, Hur, Hsame.
Qed.

Lemma findMatch_url_rule_witness :
  let stored := Booking.stamp booking_E1 scenario_booked_at in
  findMatch (H := ReferenceHost.host) scenario_now
    (Some "https://zoom.us/j/123?pwd=abc#t=5") (Some "A@X.com") None None
    scenario_bookings
  = (Some stored, cleanup scenario_now scenario_bookings).
Proof.
  intros stored.
  destruct (findMatch_url_rule (H := ReferenceHost.host)) as (_ & _ & Hgen).
  destruct (Hgen scenario_now scenario_bookings "E1" stored
              (Some "https://zoom.us/j/123?pwd=abc#t=5") (Some "A@X.com")
              None None
              "https://zoom.us/j/123?pwd=abc#t=5"
              "https://zoom.us/j/123?pwd=abc"
              {| ReferenceHost.scheme := "https";
                 ReferenceHost.hier := "//zoom.us/j/123";
                 ReferenceHost.query := Some "pwd=abc";
                 ReferenceHost.fragment := Some "t=5" |}
              {| ReferenceHost.scheme := "https";
                 ReferenceHost.hier := "//zoom.us/j/123";
                 ReferenceHost.query := Some "pwd=abc";
                 ReferenceHost.fragment := None |})
    as (rec' & Hfind & _ & Hfirst);
    [cbv; apply list_elem_of_here|reflexivity|discriminate|reflexivity
    |discriminate|reflexivity|reflexivity|reflexivity|reflexivity|].
  rewrite Hfind. by rewrite (Hfirst [] [] eq_refl (Forall_nil_2 _)).
Defined.

(** C2 with the query string stripped fails: the query string is kept, so
    the meeting URLs of the scenario, which differ in it, do not match;
    and of two live bookings on one link the earlier insertion is
    returned, not the other. *)
Lemma findMatch_url_rule_keeps_query :
  let stored_E1 := Booking.stamp booking_E1 scenario_booked_at in
  let stored_E2 := Booking.stamp booking_E2 (scenario_booked_at + 1000) in
  let guestEmail := Some "A@X.com" in
  (("E1", stored_E1) ∈ scenario_bookings
   ∧ emailsAlign stored_E1 guestEmail None = true
   ∧ normalizeUrl (H := ReferenceHost.host) "https://zoom.us/j/123?pwd=abc"
     = "https://zoom.us/j/123?pwd=abc"
   ∧ normalizeUrl (H := ReferenceHost.host) "https://zoom.us/j/123"
     = "https://zoom.us/j/123"
   ∧ findMatch (H := ReferenceHost.host) scenario_now
       (Some "https://zoom.us/j/123") guestEmail None None scenario_bookings
     = (None, scenario_bookings))
  ∧ (("E2", stored_E2) ∈ same_link_bookings
     ∧ url_rule (H := ReferenceHost.host) stored_E2
         (Some "https://zoom.us/j/123?pwd=abc#now") = true
     ∧ emailsAlign stored_E2 guestEmail None = true
     ∧ (findMatch (H := ReferenceHost.host) scenario_now
          (Some "https://zoom.us/j/123?pwd=abc#now") guestEmail None None
          same_link_bookings).1 = Some stored_E1
     ∧ stored_E1 ≠ stored_E2).
Proof.
  intros stored_E1 stored_E2 guestEmail. split.
  - split; [cbv; apply list_elem_of_here|]. by repeat split.
  - split; [cbv; apply list_elem_of_further, list_elem_of_here|].
    by repeat split.
Qed.

(** ** Transcript polling *)

Section PollingFacts.

Import Calendly.

Variable fetch : nat → outcome.
Variable eventUuid : string.
Variable cfg : config.

Lemma io_of_app t1 t2 : io_of (t1 ++ t2) = io_of t1 ++ io_of t2.
Proof. apply List.filter_app. Qed.

Lemma sleeps_of_io t : sleeps_of (io_of t) = sleeps_of t.
Proof.
  induction t as [|[] t IH]; simpl; [done|done|done|].
  unfold sleeps_of in *. simpl. by rewrite IH.
Qed.

Lemma emit_appended e w :
  emit e w = ({| requests := requests w; trace := trace w ++ [e] |}, inr ()).
Proof. done. Qed.

(** An attempt on a request that is never ready issues that one request,
    logs, and falls through to the backoff, whether the request rejected
    or resolved. *)
Lemma attempt_once_never_ready w :
  never_ready (fetch (requests w)) →
  ∃ w' evs,
    attempt_once fetch eventUuid cfg w = (w', inr None)
    ∧ requests w' = S (requests w)
    ∧ appended w w' evs
    ∧ io_of evs = [Get eventUuid (calendlyPat cfg)].
Proof.
  unfold never_ready, attempt_once, try_catch, axios_get, appended.
  unfold mbind, M_bind, mret, M_ret, throw, log.
  destruct (fetch (requests w)) as [r|e]; simpl.
  - destruct (data r) as [d|]; simpl.
    + intros Hinvalid.
      destruct (transcript_of (default (own d) (resource d))) as [t|] eqn:Ht;
        rewrite ?Hinvalid; simpl;
        eexists _, [_; _]; simpl; rewrite <- app_assoc; by repeat split.
    + intros _. eexists _, [_; _]. simpl. rewrite <- app_assoc.
      by repeat split.
  - intros _. destruct (bool_decide _); simpl;
      eexists _, [_; _]; simpl; rewrite <- app_assoc; by repeat split.
Qed.

Lemma poll_from_never_ready remaining attempt w :
  (∀ n, never_ready (fetch n)) →
  ∃ w' evs,
    poll_from fetch eventUuid cfg remaining attempt w = (w', inr None)
    ∧ requests w' = (requests w + remaining)%nat
    ∧ appended w w' evs
    ∧ io_of evs = schedule eventUuid cfg remaining attempt.
Proof.
  intros Hnever. revert attempt w.
  induction remaining as [|remaining IH]; intros attempt w.
  - exists w, []. unfold appended. simpl. rewrite app_nil_r.
    repeat split; try done; lia.
  - cbn [poll_from].
    set (w0 := {| requests := requests w;
                  trace := trace w ++ [Log info (PollingAttempt attempt
                                         (maxAttempts (retry cfg)))] |}).
    destruct (attempt_once_never_ready w0 (Hnever _))
      as (w1 & evs1 & Hrun1 & Hreq1 & Happ1 & Hio1).
    unfold mbind at 1, M_bind at 1, log at 1. rewrite emit_appended.
    fold w0. unfold mbind at 1, M_bind at 1. rewrite Hrun1.
    destruct (attempt <? maxAttempts (retry cfg))%nat eqn:Hlast.
    + set (delayMs := baseDelayMs (retry cfg) * 2 ^ (Z.of_nat attempt - 1)).
      unfold mbind at 1, M_bind at 1, mbind at 1, M_bind at 1, log, sleep.
      rewrite !emit_appended. cbn [requests trace].
      set (w2 := {| requests := requests w1; trace := _ |}).
      destruct (IH (S attempt) w2) as (w' & evs & Hrun & Hreq & Happ & Hio).
      exists w', ([Log info (PollingAttempt attempt (maxAttempts (retry cfg)))]
                  ++ evs1 ++ [Log info (Waiting delayMs); Sleep delayMs]
                  ++ evs).
      split; [done|]. split; [subst w2 w0; simpl in *; lia|]. split.
      * unfold appended in *. rewrite Happ. subst w2 w0. simpl in *.
        rewrite Happ1. simpl. by rewrite <- !app_assoc.
      * rewrite !io_of_app, Hio1, Hio. simpl. by rewrite Hlast.
    + unfold mbind at 1, M_bind at 1, mret, M_ret.
      destruct (IH (S attempt) w1) as (w' & evs & Hrun & Hreq & Happ & Hio).
      exists w', ([Log info (PollingAttempt attempt (maxAttempts (retry cfg)))]
                  ++ evs1 ++ evs).
      split; [done|]. split; [subst w0; simpl in *; lia|]. split.
      * unfold appended in *. rewrite Happ, Happ1. subst w0. simpl.
        by rewrite <- !app_assoc.
      * rewrite !io_of_app, Hio1, Hio. simpl. by rewrite Hlast.
Qed.

End PollingFacts.

Lemma sleeps_of_schedule eventUuid cfg remaining attempt :
  (attempt + remaining = S (Calendly.maxAttempts (Calendly.retry cfg)))%nat →
  Calendly.sleeps_of (Calendly.schedule eventUuid cfg remaining attempt)
  = List.map (λ i : nat, Calendly.baseDelayMs (Calendly.retry cfg)
                         * 2 ^ (Z.of_nat i - 1))
      (seq attempt (remaining - 1)).
Proof.
  revert attempt. induction remaining as [|remaining IH]; intros attempt Hsum.
  - done.
  - cbn [Calendly.schedule]. unfold Calendly.sleeps_of in *.
    cbn [omap list_omap]. destruct remaining as [|remaining].
    + assert ((attempt <? Calendly.maxAttempts (Calendly.retry cfg))%nat
              = false) as -> by (apply Nat.ltb_ge; lia).
      done.
    + assert ((attempt <? Calendly.maxAttempts (Calendly.retry cfg))%nat
              = true) as -> by (apply Nat.ltb_lt; lia).
      cbn [app omap list_omap]. rewrite IH by lia.
      by replace (S (S remaining) - 1)%nat with (S (S remaining - 1)) by lia.
Qed.

(** C1.  Against a remote side whose every request either rejects or
    resolves to a body without a valid transcript, [pollForTranscript]
    issues exactly [maxAttempts] requests, waits
    [baseDelayMs * 2^(i-1)] ms after each attempt [i] but the last and
    not after the last, goes on after a rejected request as after any
    other, and returns [null] instead of throwing.  With the settings of
    [getConfig] that is 5 requests with waits of 30000, 60000, 120000 and
    240000 ms between them. *)
Theorem pollForTranscript_exhausts
    (fetch : nat → Calendly.outcome) (eventUuid : string) :
  (∀ n, Calendly.never_ready (fetch n)) →
  (∀ cfg, ∃ w,
     Calendly.pollForTranscript fetch eventUuid cfg Calendly.initial_world
     = (w, inr None)
     ∧ Calendly.requests w = Calendly.maxAttempts (Calendly.retry cfg)
     ∧ Calendly.io_of (Calendly.trace w)
       = Calendly.schedule eventUuid cfg
           (Calendly.maxAttempts (Calendly.retry cfg)) 1
     ∧ Calendly.sleeps_of (Calendly.trace w)
       = List.map (λ i : nat, Calendly.baseDelayMs (Calendly.retry cfg)
                              * 2 ^ (Z.of_nat i - 1))
           (seq 1 (Calendly.maxAttempts (Calendly.retry cfg) - 1)))
  ∧ (∀ CALENDLY_PAT, ∃ w,
       Calendly.pollForTranscript fetch eventUuid
         (Calendly.getConfig CALENDLY_PAT) Calendly.initial_world
       = (w, inr None)
       ∧ Calendly.requests w = 5%nat
       ∧ Calendly.io_of (Calendly.trace w)
         = [Calendly.Get eventUuid CALENDLY_PAT; Calendly.Sleep 30000;
            Calendly.Get eventUuid CALENDLY_PAT; Calendly.Sleep 60000;
            Calendly.Get eventUuid CALENDLY_PAT; Calendly.Sleep 120000;
            Calendly.Get eventUuid CALENDLY_PAT; Calendly.Sleep 240000;
            Calendly.Get eventUuid CALENDLY_PAT]
       ∧ Calendly.sleeps_of (Calendly.trace w)
         = [30000; 60000; 120000; 240000]).
Proof.
  intros Hnever.
  assert (∀ cfg, ∃ w,
     Calendly.pollForTranscript fetch eventUuid cfg Calendly.initial_world
     = (w, inr None)
     ∧ Calendly.requests w = Calendly.maxAttempts (Calendly.retry cfg)
     ∧ Calendly.io_of (Calendly.trace w)
       = Calendly.schedule eventUuid cfg
           (Calendly.maxAttempts (Calendly.retry cfg)) 1) as Hrun.
  { intros cfg. unfold Calendly.pollForTranscript.
    destruct (poll_from_never_ready fetch eventUuid cfg
                (Calendly.maxAttempts (Calendly.retry cfg)) 1
                Calendly.initial_world Hnever)
      as (w & evs & Hrun & Hreq & Happ & Hio).
    exists w. unfold Calendly.appended in Happ. simpl in Happ, Hreq.
    by rewrite Happ. }
  split.
  - intros cfg. destruct (Hrun cfg) as (w & Hw & Hreq & Hio).
    exists w. repeat split; try done.
    rewrite <- sleeps_of_io, Hio. by apply sleeps_of_schedule.
  - intros pat. destruct (Hrun (Calendly.getConfig pat)) as (w & Hw & Hreq & Hio).
    exists w. repeat split; try done.
    by rewrite <- sleeps_of_io, Hio.
Qed.

Lemma pollForTranscript_exhausts_witness :
  ∃ w,
    Calendly.pollForTranscript Calendly.never_ready_fetch "TEST-EVENT-123"
      (Calendly.getConfig (Some "pat")) Calendly.initial_world
    = (w, inr None)
    ∧ Calendly.requests w = 5%nat
    ∧ Calendly.sleeps_of (Calendly.trace w) = [30000; 60000; 120000; 240000].
Proof.
  assert (∀ n, Calendly.never_ready (Calendly.never_ready_fetch n)) as Hnever.
  { intros n. unfold Calendly.never_ready_fetch.
    destruct (n mod 4)%nat as [|[|[|?]]]; simpl; done. }
  destruct (pollForTranscript_exhausts Calendly.never_ready_fetch
              "TEST-EVENT-123" Hnever) as [_ Hcfg].
  destruct (Hcfg (Some "pat")) as (w & Hw & Hreq & _ & Hsleeps).
  by exists w.
Defined.

(** * Further properties of the code *)

(** ** normalizeLinkedInUrl: the shape of its results *)

Section NormalizeShape.

Local Abbreviation notSlash := (λ c, negb (JS.isSlash c)).
Local Abbreviation notQuery := (λ c, negb (Ascii.eqb c "?")).
Local Abbreviation lowerFixed := (λ c, Ascii.eqb (JS.toLowerCase_char c) c).

(** X1.  Whatever [normalizeLinkedInUrl] returns contains no [?], does not
    end in a slash, does not start with white space and is its own lower
    case; and it either is [https://www.linkedin.com/in/] followed by a
    non-empty handle without a slash, or contains no profile pattern at
    all. *)
Theorem normalizeLinkedInUrl_shape (x : option string) (s : string) :
  normalizeLinkedInUrl x = Some s →
  JS.all notQuery s = true
  ∧ JS.ends_with JS.isSlash s = false
  ∧ JS.starts_with JS.isWhiteSpace s = false
  ∧ JS.toLowerCase s = s
  ∧ ((∃ handle, s = "https://www.linkedin.com/in/" +:+ handle
                ∧ handle ≠ "" ∧ JS.all notSlash handle = true)
     ∨ JS.match_linkedin_in s = None).
Proof.
  destruct x as [[|c x]|]; [done| |done].
  unfold normalizeLinkedInUrl. cbv zeta.
  destruct (normalizeLinkedInUrl_steps (String c x))
    as (Hlow & Hstart & Hq & Hslash).
  set (u := JS.replace_trailing_slashes _) in *. clearbody u.
  destruct (JS.match_linkedin_in u) as [h|] eqn:Hm.
  - destruct (match_linkedin_in_capture lowerFixed _ _ Hm) as (Hne & Hns & Hl).
    destruct (match_linkedin_in_capture notQuery _ _ Hm) as (_ & _ & Hhq).
    intros Heq. apply (inj Some) in Heq. subst s.
    split; [|split; [|split; [|split]]].
    + rewrite all_app, Hhq by done. reflexivity.
    + rewrite ends_with_app by done. by apply ends_with_all_not.
    + by rewrite !app_cons.
    + apply toLowerCase_fixed. rewrite all_app, Hl by done. reflexivity.
    + left. by exists h.
  - intros [= <-]. split; [|split; [|split; [|split]]]; try done.
    + by apply toLowerCase_fixed.
    + by right.
Qed.

Lemma normalizeLinkedInUrl_shape_witness :
  JS.all notQuery "https://www.linkedin.com/in/johndoe" = true
  ∧ JS.ends_with JS.isSlash "https://www.linkedin.com/in/johndoe" = false.
Proof.
  destruct (normalizeLinkedInUrl_shape
              (Some " HTTPS://LinkedIn.com/in/JohnDoe/?trk=x ")
              "https://www.linkedin.com/in/johndoe" eq_refl)
    as (Hq & Hs & _).
  by split.
Defined.

End NormalizeShape.

(** ** normalizeLinkedInUrl: what it ignores *)

Section NormalizeIgnores.

Local Abbreviation notSlash := (λ c, negb (JS.isSlash c)).
Local Abbreviation notQuery := (λ c, negb (Ascii.eqb c "?")).
Local Abbreviation notL := (λ c, negb (Ascii.eqb c "l")).

Lemma app_assoc_s a b c : (a +:+ b) +:+ c = a +:+ b +:+ c.
Proof. induction a as [|x a IH]; [done|]. by rewrite !app_cons, IH. Qed.

Lemma toLowerCase_app a b :
  JS.toLowerCase (a +:+ b) = JS.toLowerCase a +:+ JS.toLowerCase b.
Proof.
  induction a as [|x a IH]; [done|].
  rewrite app_cons. cbn [JS.toLowerCase]. by rewrite IH, app_cons.
Qed.

Lemma toLowerCase_space pad :
  JS.all JS.isWhiteSpace pad = true →
  JS.all JS.isWhiteSpace (JS.toLowerCase pad) = true.
Proof.
  induction pad as [|c pad IH]; [done|]. simpl.
  intros [Hc Hp]%andb_prop.
  by rewrite isWhiteSpace_toLowerCase_char, Hc, IH.
Qed.

Lemma dropWhile_app_all p a b :
  JS.all p a = true → JS.dropWhile p (a +:+ b) = JS.dropWhile p b.
Proof.
  induction a as [|x a IH]; [done|]. cbn [JS.all].
  intros [Hx Ha]%andb_prop. rewrite app_cons. simpl. by rewrite Hx, IH.
Qed.

Lemma dropWhile_app_keep p a b :
  b ≠ "" → JS.starts_with p b = false →
  JS.dropWhile p (a +:+ b) = JS.dropWhile p a +:+ b.
Proof.
  intros Hb Hs. induction a as [|x a IH].
  - rewrite !app_empty. by apply dropWhile_id.
  - rewrite app_cons. simpl. by destruct (p x).
Qed.

Lemma dropWhile_app_or p a b :
  JS.all p b = true →
  JS.dropEndWhile p (JS.dropWhile p (a +:+ b))
  = JS.dropEndWhile p (JS.dropWhile p a).
Proof.
  intros Hb. induction a as [|x a IH].
  - rewrite app_empty. simpl. by rewrite dropWhile_all.
  - rewrite app_cons. simpl. destruct (p x); [done|].
    rewrite <- app_cons, dropEndWhile_app.
    assert (JS.dropEndWhile p b = "") as ->; [|done].
    clear -Hb. induction b as [|y b IH]; [done|]. simpl in *.
    apply andb_prop in Hb as [Hy Hb]. by rewrite IH, Hy.
Qed.

Lemma takeWhile_app_all p a b :
  JS.all p a = true → JS.takeWhile p (a +:+ b) = a +:+ JS.takeWhile p b.
Proof.
  induction a as [|x a IH]; [done|]. cbn [JS.all].
  intros [Hx Ha]%andb_prop. rewrite !app_cons. simpl. by rewrite Hx, IH.
Qed.

Lemma stripPrefix_app a b : JS.stripPrefix a (a +:+ b) = Some b.
Proof.
  induction a as [|x a IH]; [by destruct b|].
  rewrite app_cons. simpl. by rewrite Ascii.eqb_refl.
Qed.

Lemma match_linkedin_in_skip a b :
  JS.all notL a = true →
  JS.match_linkedin_in (a +:+ b) = JS.match_linkedin_in b.
Proof.
  induction a as [|x a IH]; [done|]. cbn [JS.all].
  intros [Hx Ha]%andb_prop. rewrite app_cons.
  cbn [JS.match_linkedin_in JS.stripPrefix].
  rewrite Ascii.eqb_sym. apply negb_true_iff in Hx. rewrite Hx. auto.
Qed.

Lemma dropEndWhile_head p c r :
  JS.dropEndWhile p (String c r) = ""
  ∨ ∃ r', JS.dropEndWhile p (String c r) = String c r'.
Proof.
  simpl. destruct (JS.dropEndWhile p r); [destruct (p c)|]; eauto.
Qed.

Lemma match_linkedin_in_here h r :
  h ≠ "" → JS.all notSlash h = true → slash_tail r →
  JS.match_linkedin_in ("linkedin.com/in/" +:+ h +:+ r) = Some h.
Proof.
  intros Hne Hns Hr.
  assert (JS.takeWhile notSlash (h +:+ r) = h) as Htake.
  { destruct Hr as [->|[r' ->]].
    - rewrite app_empty_r. by apply takeWhile_id.
    - by apply takeWhile_app_stop. }
  rewrite !app_cons, app_empty. cbn. rewrite Htake. by destruct h.
Qed.

End NormalizeIgnores.

Lemma normalizeLinkedInUrl_unfold (t : string) :
  t ≠ "" →
  normalizeLinkedInUrl (Some t)
  = let url := JS.replace_trailing_slashes
                 (JS.split_first "?" (JS.trim (JS.toLowerCase t))) in
    match JS.match_linkedin_in url with
    | Some handle => Some ("https://www.linkedin.com/in/" +:+ handle)
    | None => Some url
    end.
Proof. by destruct t. Qed.

Lemma app_nonempty_r a b : b ≠ "" → a +:+ b ≠ "".
Proof. intros Hb. destruct a; [done|]. by rewrite app_cons. Qed.

Lemma app_nonempty_l a b : a ≠ "" → a +:+ b ≠ "".
Proof. intros Ha. destruct a; [done|]. by rewrite app_cons. Qed.

(** X2.  Letter case and white space around the URL do not matter: a
    spelling padded with white space normalizes like any spelling with
    the same lower case. *)
Theorem normalizeLinkedInUrl_ignores_case_and_padding
    (s s' pad1 pad2 : string) :
  s ≠ "" →
  JS.toLowerCase s = JS.toLowerCase s' →
  JS.all JS.isWhiteSpace pad1 = true →
  JS.all JS.isWhiteSpace pad2 = true →
  normalizeLinkedInUrl (Some (pad1 +:+ s +:+ pad2))
  = normalizeLinkedInUrl (Some s').
Proof.
  intros Hs Hlow Hp1 Hp2.
  assert (s' ≠ "") as Hs'.
  { intros ->. destruct s; [done|discriminate Hlow]. }
  rewrite !normalizeLinkedInUrl_unfold
    by (done || by apply app_nonempty_r, app_nonempty_l).
  cbv zeta.
  assert (JS.trim (JS.toLowerCase (pad1 +:+ s +:+ pad2))
          = JS.trim (JS.toLowerCase s')) as ->; [|done].
  rewrite !toLowerCase_app, Hlow. unfold JS.trim.
  rewrite dropWhile_app_all by by apply toLowerCase_space.
  apply dropWhile_app_or. by apply toLowerCase_space.
Qed.

Lemma normalizeLinkedInUrl_ignores_case_and_padding_witness :
  normalizeLinkedInUrl (Some ("  " +:+ "LinkedIn.com/in/JohnDoe" +:+ " "))
  = normalizeLinkedInUrl (Some "linkedin.com/IN/johndoe").
Proof.
  by apply normalizeLinkedInUrl_ignores_case_and_padding.
Defined.

(** X3.  A profile URL is reduced to its handle: when the input, in lower
    case and trimmed of the white space around it, reads
    [pre ++ "linkedin.com/in/" ++ handle ++ rest], with no [l] and no [?]
    in [pre] (a scheme and subdomain, or nothing), a non-empty handle
    without [/] and [?], and [rest] empty or starting with [/] or [?]
    (further path, query string, trailing slashes), the result is
    [https://www.linkedin.com/in/] followed by the handle. *)
Theorem normalizeLinkedInUrl_profile (s pre handle rest : string) :
  JS.trim (JS.toLowerCase s)
  = pre +:+ "linkedin.com/in/" +:+ handle +:+ rest →
  JS.all (λ c, negb (Ascii.eqb c "l")) pre = true →
  JS.all (λ c, negb (Ascii.eqb c "?")) pre = true →
  handle ≠ "" →
  JS.all (λ c, negb (JS.isSlash c)) handle = true →
  JS.all (λ c, negb (Ascii.eqb c "?")) handle = true →
  (rest = "" ∨ ∃ c rest', rest = String c rest' ∧ (c = "/" ∨ c = "?")%char) →
  normalizeLinkedInUrl (Some s)
  = Some ("https://www.linkedin.com/in/" +:+ handle).
Proof.
  intros Htrim Hl Hq Hne Hns Hhq Hrest.
  assert (s ≠ "") as Hs.
  { intros ->. symmetry in Htrim. revert Htrim.
    by apply app_nonempty_r, app_nonempty_l. }
  rewrite normalizeLinkedInUrl_unfold by done. cbv zeta. rewrite Htrim.
  set (lit := "linkedin.com/in/").
  assert (∀ r, pre +:+ lit +:+ handle +:+ r
               = (pre +:+ lit +:+ handle) +:+ r) as Hgroup
    by (intros r; by rewrite !app_assoc_s).
  assert (JS.ends_with JS.isSlash (pre +:+ lit +:+ handle) = false) as Hend_s.
  { rewrite !ends_with_app by (done || by apply app_nonempty_r).
    by apply ends_with_all_not. }
  (* cutting the query string *)
  assert (∃ r3, JS.split_first "?" (pre +:+ lit +:+ handle +:+ rest)
                = pre +:+ lit +:+ handle +:+ r3 ∧ slash_tail r3)
    as (r3 & -> & Hr3).
  { unfold JS.split_first. rewrite Hgroup, takeWhile_app_all.
    2:{ rewrite !all_app, Hhq, Hq. reflexivity. }
    rewrite <- Hgroup.
    exists (JS.takeWhile (λ c, negb (Ascii.eqb c "?")) rest). split; [done|].
    destruct Hrest as [->|(c & r' & -> & [-> | ->])]; [by left| |by left].
    right. simpl. eauto. }
  (* stripping the trailing slashes *)
  assert (∃ r4, JS.replace_trailing_slashes
                  (pre +:+ lit +:+ handle +:+ r3)
                = pre +:+ lit +:+ handle +:+ r4 ∧ slash_tail r4)
    as (r4 & -> & Hr4).
  { unfold JS.replace_trailing_slashes. rewrite Hgroup, dropEndWhile_app.
    destruct Hr3 as [->|[r' ->]].
    - exists "". cbn [JS.dropEndWhile]. rewrite Hgroup, app_empty_r.
      split; [|by left]. by apply dropEndWhile_id.
    - destruct (dropEndWhile_head JS.isSlash "/" r') as [He|[r'' He]].
      + rewrite He. exists "". rewrite Hgroup, app_empty_r.
        split; [|by left]. by apply dropEndWhile_id.
      + rewrite He, <- Hgroup. exists (String "/" r''). split; [done|].
        right. eauto. }
  rewrite match_linkedin_in_skip by done.
  by rewrite match_linkedin_in_here.
Qed.

Lemma normalizeLinkedInUrl_profile_witness :
  normalizeLinkedInUrl
    (Some "HTTP://uk.LinkedIn.com/in/John-Doe/details/experience/?trk=x")
  = Some "https://www.linkedin.com/in/john-doe"
  ∧ normalizeLinkedInUrl (Some " LinkedIn.com/in/John ")
    = Some "https://www.linkedin.com/in/john".
Proof.
  split.
  - apply (normalizeLinkedInUrl_profile _ "http://uk." "john-doe"
             "/details/experience/?trk=x"); try done.
    right. eauto.
  - apply (normalizeLinkedInUrl_profile _ "" "john" ""); try done.
    by left.
Defined.

(** ** The pending-lead store: how its operations compose *)

(** X4.  At most one lead per key: a lead added under the key of an
    earlier one replaces it, as if the earlier one had never been added,
    and the count stays what it was after the first. *)
Theorem addPendingLead_replaces
    (isoNow1 isoNow2 : string) (l1 l2 : lead)
    (pendingLeads : gmap string lead) (key : string) :
  (addPendingLead isoNow1 l1 pendingLeads).1 = Some key →
  normalizeLinkedInUrl (linkedinUrl l2) = Some key →
  let first := (addPendingLead isoNow1 l1 pendingLeads).2 in
  addPendingLead isoNow2 l2 first = addPendingLead isoNow2 l2 pendingLeads
  ∧ (addPendingLead isoNow2 l2 first).2 !! key
    = Some (stamp_lead l2 key isoNow2)
  ∧ getPendingCount (addPendingLead isoNow2 l2 first).2
    = getPendingCount first.
Proof.
  intros H1 H2 first. subst first.
  assert (∃ c k, key = String c k
                 ∧ addPendingLead isoNow1 l1 pendingLeads
                   = (Some key, <[key := stamp_lead l1 key isoNow1]> pendingLeads))
    as (c & k & -> & ->).
  { revert H1. unfold addPendingLead.
    destruct (normalizeLinkedInUrl (linkedinUrl l1)) as [[|c k]|]; try done.
    simpl. intros [= <-]. by eexists _, _. }
  unfold addPendingLead, getPendingCount. rewrite H2. simpl.
  rewrite insert_insert_eq, lookup_insert_eq. repeat split.
  by rewrite !map_size_insert.
Qed.

Lemma addPendingLead_replaces_witness :
  let again :=
    addPendingLead "2024-01-16T09:00:00.000Z"
      (extracted_lead (Some "linkedin.com/in/johndoe/"))
      scenario_pendingLeads in
  again.1 = Some "https://www.linkedin.com/in/johndoe"
  ∧ getPendingCount again.2 = getPendingCount scenario_pendingLeads.
Proof.
  intros again.
  destruct (addPendingLead_replaces "2024-01-15T17:00:00.000Z"
              "2024-01-16T09:00:00.000Z"
              (extracted_lead (Some "https://www.linkedin.com/in/JohnDoe?trk=x"))
              (extracted_lead (Some "linkedin.com/in/johndoe/"))
              ∅ "https://www.linkedin.com/in/johndoe" eq_refl eq_refl)
    as (_ & _ & Hcount).
  split; [reflexivity|exact Hcount].
Defined.

(** X5.  Add, then get under any spelling of the same profile: the lead
    comes back with its stamps, and the store is what it was before the
    add, without that key. *)
Theorem addPendingLead_getPendingLead
    (isoNow : string) (l : lead) (pendingLeads : gmap string lead)
    (key : string) (linkedinUrl' : option string) :
  (addPendingLead isoNow l pendingLeads).1 = Some key →
  normalizeLinkedInUrl linkedinUrl' = Some key →
  getPendingLead linkedinUrl' (addPendingLead isoNow l pendingLeads).2
  = (Some (stamp_lead l key isoNow), delete key pendingLeads)
  ∧ (pendingLeads !! key = None → delete key pendingLeads = pendingLeads).
Proof.
  unfold addPendingLead.
  destruct (normalizeLinkedInUrl (linkedinUrl l)) as [[|c k]|] eqn:H1;
    try done.
  simpl. intros [= <-] H2. split; [|apply delete_id].
  rewrite (getPendingLead_hit _ (String c k) (stamp_lead l (String c k) isoNow));
    [|done|done|apply lookup_insert_eq].
  by rewrite delete_insert_eq.
Qed.

Lemma addPendingLead_getPendingLead_witness :
  (getPendingLead (Some "linkedin.com/in/johndoe/") scenario_pendingLeads).2
  = ∅.
Proof.
  destruct (addPendingLead_getPendingLead "2024-01-15T17:00:00.000Z"
              (extracted_lead (Some "https://www.linkedin.com/in/JohnDoe?trk=x"))
              ∅ "https://www.linkedin.com/in/johndoe"
              (Some "linkedin.com/in/johndoe/") eq_refl eq_refl)
    as [Hget _].
  unfold scenario_pendingLeads. rewrite Hget. simpl. apply delete_empty.
Defined.

(** X6.  [hasPendingLead] never changes the store and answers [true]
    exactly when [getPendingLead] would return a lead.  A [getPendingLead]
    that returns nothing leaves the store as it is; one that returns a
    lead lowers the count by exactly one.  A URL whose normal form is
    [null] or empty is never found and never stored. *)
Theorem pending_lead_lookups
    (linkedinUrl' : option string) (pendingLeads : gmap string lead) :
  (hasPendingLead linkedinUrl' pendingLeads).2 = pendingLeads
  ∧ ((hasPendingLead linkedinUrl' pendingLeads).1 = true
     ↔ is_Some (getPendingLead linkedinUrl' pendingLeads).1)
  ∧ ((getPendingLead linkedinUrl' pendingLeads).1 = None →
     (getPendingLead linkedinUrl' pendingLeads).2 = pendingLeads)
  ∧ (is_Some (getPendingLead linkedinUrl' pendingLeads).1 →
     S (getPendingCount (getPendingLead linkedinUrl' pendingLeads).2)
     = getPendingCount pendingLeads)
  ∧ (JS.truthy (normalizeLinkedInUrl linkedinUrl') = false →
     (hasPendingLead linkedinUrl' pendingLeads).1 = false
     ∧ getPendingLead linkedinUrl' pendingLeads = (None, pendingLeads)
     ∧ ∀ isoNow l,
         linkedinUrl l = linkedinUrl' →
         addPendingLead isoNow l pendingLeads = (None, pendingLeads)).
Proof.
  split; [apply hasPendingLead_unchanged|].
  unfold hasPendingLead, getPendingLead, addPendingLead, getPendingCount.
  destruct (normalizeLinkedInUrl linkedinUrl') as [[|c k]|] eqn:Hn; simpl.
  1,3: repeat split; try done; try (by intros [? ?]);
       by intros isoNow l ->; rewrite Hn.
  destruct (pendingLeads !! String c k) as [l|] eqn:Hl; simpl.
  - split; [|split; [done|split; [|done]]].
    + split; [by eexists|done].
    + intros _. rewrite map_size_delete, Hl.
      assert (size pendingLeads ≠ 0%nat); [|lia].
      intros Hz%map_size_empty_iff. by rewrite Hz, lookup_empty in Hl.
  - split; [|split; [done|split; [|done]]].
    + split; [done|by intros [? ?]].
    + by intros [? ?].
Qed.

Lemma pending_lead_lookups_witness :
  getPendingCount
    (getPendingLead (Some "linkedin.com/in/johndoe/") scenario_pendingLeads).2
  = 0%nat
  ∧ getPendingLead (Some " /?x ") scenario_pendingLeads
    = (None, scenario_pendingLeads).
Proof.
  destruct (pending_lead_lookups (Some "linkedin.com/in/johndoe/")
              scenario_pendingLeads) as (_ & _ & _ & Hcount & _).
  destruct (pending_lead_lookups (Some " /?x ") scenario_pendingLeads)
    as (_ & _ & _ & _ & Hblank).
  split.
  - assert (getPendingCount scenario_pendingLeads = 1%nat) as Hone
      by (vm_compute; reflexivity).
    rewrite Hone in Hcount.
    assert (is_Some (getPendingLead (Some "linkedin.com/in/johndoe/")
                       scenario_pendingLeads).1) as Hhit
      by (vm_compute; eauto).
    specialize (Hcount Hhit). lia.
  - by destruct Hblank as (_ & Hget & _).
Defined.

(** ** The booking store: structure, sweeps and re-delivery *)

Lemma cleanup_sublist now (bookings : bookings_map) :
  sublist (cleanup now bookings) bookings.
Proof.
  unfold cleanup. induction bookings as [|[k r] bookings IH]; [done|].
  simpl. destruct (negb _); by constructor.
Qed.

Lemma cleanup_later t1 t2 (bookings : bookings_map) :
  t1 ≤ t2 → cleanup t2 (cleanup t1 bookings) = cleanup t2 bookings.
Proof.
  intros Ht. unfold cleanup.
  induction bookings as [|[k r] bookings IH]; [done|]. simpl.
  destruct (Z.gtb_spec (t1 - Booking.createdAt r) TTL_MS) as [H1|H1];
    destruct (Z.gtb_spec (t2 - Booking.createdAt r) TTL_MS) as [H2|H2];
    simpl; try lia.
  - done.
  - destruct (Z.gtb_spec (t2 - Booking.createdAt r) TTL_MS); [|lia]. done.
  - destruct (Z.gtb_spec (t2 - Booking.createdAt r) TTL_MS); [lia|].
    simpl. by rewrite IH.
Qed.

Lemma Map_set_keys key value (m : bookings_map) :
  (Map_set key value m).*1
  = if decide (key ∈ m.*1) then m.*1 else m.*1 ++ [key].
Proof.
  induction m as [|[k v] m IH]; [done|]. cbn [Map_set].
  destruct (String.eqb_spec k key) as [->|Hk].
  - rewrite !fmap_cons. cbn [fst].
    rewrite decide_True by apply list_elem_of_here. done.
  - rewrite !fmap_cons, IH. cbn [fst].
    destruct (decide (key ∈ m.*1)) as [Hin|Hin].
    + rewrite decide_True by by apply list_elem_of_further. done.
    + rewrite decide_False; [done|].
      intros [?|?]%elem_of_cons; [congruence|done].
Qed.

Lemma Map_set_elem_inv key value (m : bookings_map) key' rec :
  (key', rec) ∈ Map_set key value m →
  (key' = key ∧ rec = value) ∨ (key', rec) ∈ m.
Proof.
  induction m as [|[k v] m IH]; simpl.
  - intros Hin. apply list_elem_of_singleton in Hin.
    left. by split; congruence.
  - destruct (String.eqb_spec k key) as [->|Hk].
    + intros [Heq|Hin]%elem_of_cons.
      * left. by split; congruence.
      * right. by apply list_elem_of_further.
    + intros [->|Hin]%elem_of_cons; [right; apply list_elem_of_here|].
      destruct (IH Hin) as [?|?]; [by left|].
      right. by apply list_elem_of_further.
Qed.

Lemma bookings_wf_cleanup now (bookings : bookings_map) :
  bookings_wf bookings → bookings_wf (cleanup now bookings).
Proof.
  intros [Hnd Hkey]. split.
  - eapply sublist_NoDup; [done|]. apply fmap_sublist, cleanup_sublist.
  - intros key rec [Hin _]%cleanup_elem. by apply Hkey.
Qed.

Lemma bookings_wf_addBooking now record (bookings : bookings_map) :
  bookings_wf bookings → bookings_wf (addBooking now record bookings).
Proof.
  intros [Hnd Hkey]. apply bookings_wf_cleanup. split.
  - rewrite Map_set_keys. destruct (decide _); [done|].
    apply NoDup_app. repeat split; [done| |apply NoDup_singleton].
    intros x Hx ->%list_elem_of_singleton. done.
  - intros key rec [[-> ->]|Hin]%Map_set_elem_inv; [done|]. by apply Hkey.
Qed.

Lemma bookings_wf_unique (bookings : bookings_map) key r1 r2 :
  bookings_wf bookings →
  (key, r1) ∈ bookings → (key, r2) ∈ bookings → r1 = r2.
Proof.
  intros [Hnd _]. induction bookings as [|[k r] bookings IH]; intros H1 H2.
  - by apply not_elem_of_nil in H1.
  - simpl in Hnd. apply NoDup_cons in Hnd as [Hk Hnd].
    apply elem_of_cons in H1 as [E1|H1];
      apply elem_of_cons in H2 as [E2|H2].
    + congruence.
    + exfalso. apply Hk. apply list_elem_of_fmap. exists (key, r2).
      split; [simpl; congruence|done].
    + exfalso. apply Hk. apply list_elem_of_fmap. exists (key, r1).
      split; [simpl; congruence|done].
    + by apply IH.
Qed.

(** X7.  The booking store is a map keyed by event identifier, whatever
    calls are made on it: no identifier occurs twice and every record
    sits under its own [eventUuid], so an identifier names at most one
    record; and right after an operation run at [now] no entry is older
    than [TTL_MS]. *)
Theorem bookings_wf_invariant {H : Host} :
  (∀ calls, bookings_wf (foldl booking_step [] calls))
  ∧ (∀ (bookings : bookings_map) key r1 r2,
       bookings_wf bookings →
       (key, r1) ∈ bookings → (key, r2) ∈ bookings → r1 = r2)
  ∧ (∀ now record (bookings : bookings_map) key rec,
       (key, rec) ∈ addBooking now record bookings →
       now - Booking.createdAt rec ≤ TTL_MS)
  ∧ (∀ now meetingUrl guestEmail hostEmail startTime
       (bookings : bookings_map) key rec,
       (key, rec)
       ∈ (findMatch now meetingUrl guestEmail hostEmail startTime bookings).2 →
       now - Booking.createdAt rec ≤ TTL_MS).
Proof.
  split; [|split; [|split]].
  - intros calls.
    assert (bookings_wf []) as Hnil.
    { split; [constructor|]. intros ?? Hin. by apply not_elem_of_nil in Hin. }
    revert Hnil. generalize ([] : bookings_map).
    induction calls as [|c calls IH]; intros store Hwf; [done|].
    simpl. apply IH. destruct c; simpl.
    + by apply bookings_wf_addBooking.
    + rewrite findMatch_store. by apply bookings_wf_cleanup.
  - intros bookings key r1 r2. apply bookings_wf_unique.
  - intros now record bookings key rec Hin. by apply cleanup_elem in Hin as [_ ?].
  - intros now meetingUrl guestEmail hostEmail startTime bookings key rec.
    rewrite findMatch_store. by intros [_ ?]%cleanup_elem.
Qed.

Lemma bookings_wf_invariant_witness :
  bookings_wf two_guest_bookings
  ∧ ∀ rec, ("E1", rec) ∈ two_guest_bookings →
           rec = Booking.stamp booking_E1 (scenario_booked_at + 1000).
Proof.
  destruct (bookings_wf_invariant (H := ReferenceHost.host))
    as (Hwf & Huniq & _).
  pose proof (Hwf [AddBooking scenario_booked_at booking_E0;
                   AddBooking (scenario_booked_at + 1000) booking_E1])
    as Htwo.
  split; [exact Htwo|].
  intros rec Hin. apply (Huniq _ "E1" _ _ Htwo Hin).
  cbv. apply list_elem_of_further, list_elem_of_here.
Defined.

Lemma Map_set_cleanup now key v1 v2 (m : bookings_map) :
  now - Booking.createdAt v1 ≤ TTL_MS →
  now - Booking.createdAt v2 ≤ TTL_MS →
  Map_set key v2 (cleanup now (Map_set key v1 m))
  = cleanup now (Map_set key v2 m).
Proof.
  intros H1 H2. unfold cleanup.
  assert (∀ v, now - Booking.createdAt v ≤ TTL_MS →
               negb (now - Booking.createdAt v >? TTL_MS) = true) as Hlive.
  { intros v Hv. by destruct (Z.gtb_spec (now - Booking.createdAt v) TTL_MS);
      [lia|]. }
  induction m as [|[k r] m IH]; simpl.
  - rewrite !Hlive by done. simpl. by rewrite String.eqb_refl.
  - destruct (String.eqb_spec k key) as [->|Hk]; simpl.
    + rewrite !Hlive by done. simpl. by rewrite String.eqb_refl.
    + destruct (negb (now - Booking.createdAt r >? TTL_MS)); simpl.
      * destruct (String.eqb_spec k key); [done|]. by rewrite IH.
      * apply IH.
Qed.

(** X8.  Re-delivery of a booking replaces it wholesale: adding a record
    under the identifier of one added earlier leaves the store exactly as
    if only the later one had been added. *)
Theorem addBooking_redelivery
    (now1 now2 : Z) (r1 r2 : Booking.t) (bookings : bookings_map) :
  Booking.eventUuid r1 = Booking.eventUuid r2 →
  now1 ≤ now2 →
  addBooking now2 r2 (addBooking now1 r1 bookings)
  = addBooking now2 r2 bookings.
Proof.
  intros Hid Hle. unfold addBooking. rewrite Hid.
  rewrite <- (cleanup_later now1 now2
                (Map_set (Booking.eventUuid r2) (Booking.stamp r2 now2) bookings))
    by done.
  f_equal. apply Map_set_cleanup; simpl; rewrite TTL_MS_value; lia.
Qed.

Lemma addBooking_redelivery_witness :
  addBooking (scenario_booked_at + 1000) booking_E1 scenario_bookings
  = addBooking (scenario_booked_at + 1000) booking_E1 [].
Proof.
  apply addBooking_redelivery; [reflexivity|]. unfold scenario_booked_at. lia.
Defined.

(** X9.  A sweep only removes entries and keeps the order of the rest,
    and a later sweep subsumes an earlier one; so does a later
    [findMatch], which leaves the store a [findMatch] at that time alone
    would leave. *)
Theorem cleanup_cumulative {H : Host} :
  (∀ now (bookings : bookings_map), sublist (cleanup now bookings) bookings)
  ∧ (∀ t1 t2 (bookings : bookings_map),
       t1 ≤ t2 → cleanup t2 (cleanup t1 bookings) = cleanup t2 bookings)
  ∧ (∀ t1 t2 c1 c2 c3 c4 meetingUrl guestEmail hostEmail startTime
       (bookings : bookings_map),
       t1 ≤ t2 →
       findMatch t2 meetingUrl guestEmail hostEmail startTime
         (findMatch t1 c1 c2 c3 c4 bookings).2
       = findMatch t2 meetingUrl guestEmail hostEmail startTime bookings).
Proof.
  split; [apply cleanup_sublist|]. split; [apply cleanup_later|].
  intros t1 t2 c1 c2 c3 c4 meetingUrl guestEmail hostEmail startTime
    bookings Ht.
  rewrite findMatch_store. unfold findMatch. by rewrite cleanup_later.
Qed.

Lemma cleanup_cumulative_witness :
  cleanup (scenario_booked_at + TTL_MS + 1)
    (cleanup scenario_now two_guest_bookings)
  = [("E1", Booking.stamp booking_E1 (scenario_booked_at + 1000))].
Proof.
  destruct (cleanup_cumulative (H := ReferenceHost.host)) as (_ & Hlater & _).
  rewrite Hlater; [reflexivity|].
  unfold scenario_now, scenario_booked_at. rewrite TTL_MS_value. lia.
Defined.

(** ** What a match guarantees *)





Lemma toLowerCase_nonempty s s' :
  JS.toLowerCase s = JS.toLowerCase s' → s = "" → s' = "".
Proof. intros Heq ->. by destruct s'. Qed.

Lemma emailsAlign_ignores_case rec g g' h h' :
  JS.toLowerCase <$> g = JS.toLowerCase <$> g' →
  JS.toLowerCase <$> h = JS.toLowerCase <$> h' →
  emailsAlign rec g h = emailsAlign rec g' h'.
Proof.
  assert (∀ (x x' : option string) (r : string) (dflt : bool),
    JS.toLowerCase <$> x = JS.toLowerCase <$> x' →
    match x with
    | Some (String _ _ as e) => same_ignoring_case r e
    | _ => dflt
    end
    = match x' with
      | Some (String _ _ as e) => same_ignoring_case r e
      | _ => dflt
      end) as Hone.
  { intros [x|] [x'|] r dflt Heq; try done.
    apply (inj Some) in Heq.
    destruct x as [|c x], x' as [|c' x']; try done.
    unfold same_ignoring_case. by rewrite Heq. }
  intros Hg Hh. unfold emailsAlign. f_equal.
  - destruct (Booking.guestEmail rec) as [[|c r]|].
    + by destruct g as [[|??]|], g' as [[|??]|].
    + apply (Hone g g' (String c r) false Hg).
    + by destruct g as [[|??]|], g' as [[|??]|].
  - destruct (Booking.hostEmail rec) as [[|c r]|].
    + by destruct h as [[|??]|], h' as [[|??]|].
    + apply (Hone h h' (String c r) true Hh).
    + by destruct h as [[|??]|], h' as [[|??]|].
Qed.

(** X11.  Matching does not see the letter case of the candidate's
    emails: two candidates whose guest emails, and whose host emails,
    agree after lowercasing get the same answer from [findMatch] and
    leave the same store. *)
Theorem findMatch_ignores_email_case {H : Host}
    (now : Z) (meetingUrl startTime : option string)
    (guestEmail guestEmail' hostEmail hostEmail' : option string)
    (bookings : bookings_map) :
  JS.toLowerCase <$> guestEmail = JS.toLowerCase <$> guestEmail' →
  JS.toLowerCase <$> hostEmail = JS.toLowerCase <$> hostEmail' →
  findMatch now meetingUrl guestEmail hostEmail startTime bookings
  = findMatch now meetingUrl guestEmail' hostEmail' startTime bookings.
Proof.
  intros Hg Hh. unfold findMatch.
  destruct (_ && _); [done|]. f_equal.
  induction (cleanup now bookings) as [|[k r] entries IH]; [done|].
  cbn [findMatch_loop]. rewrite IH. unfold qualifies.
  by rewrite (emailsAlign_ignores_case r _ _ _ _ Hg Hh).
Qed.

Lemma findMatch_ignores_email_case_witness :
  let stored := Booking.stamp booking_E3 scenario_booked_at in
  findMatch (H := ReferenceHost.host) scenario_now
    (Some "https://zoom.us/j/456") (Some "GUEST@x.COM") (Some "host@Y.COM")
    None hosted_bookings
  = (Some stored, hosted_bookings)
  ∧ emailsAlign stored (Some "GUEST@x.COM") (Some "host@Y.COM") = true
  ∧ emailsAlign stored (Some "GUEST@x.COM") (Some "other@y.com") = false
  ∧ findMatch (H := ReferenceHost.host) scenario_now
      None (Some "GUEST@x.COM") (Some "host@Y.COM")
      (Some "2024-01-15T10:05:00Z") hosted_bookings
    = (Some stored, hosted_bookings).
Proof.
  intros stored.
  split; [|split; [reflexivity|split; [reflexivity|]]].
  - rewrite (findMatch_ignores_email_case (H := ReferenceHost.host)
               scenario_now (Some "https://zoom.us/j/456") None
               (Some "GUEST@x.COM") (Some "guest@x.com")
               (Some "host@Y.COM") (Some "host@y.com") hosted_bookings)
      by reflexivity.
    reflexivity.
  - rewrite (findMatch_ignores_email_case (H := ReferenceHost.host)
               scenario_now None (Some "2024-01-15T10:05:00Z")
               (Some "GUEST@x.COM") (Some "guest@x.com")
               (Some "host@Y.COM") (Some "host@y.com") hosted_bookings)
      by reflexivity.
    reflexivity.
Defined.

(** ** Polling against an arbitrary remote side *)

Section PollingOutcome.

Import Calendly.

Variable fetch : nat → outcome.
Variable eventUuid : string.
Variable cfg : config.

Lemma outcome_cases (o : outcome) : never_ready o ∨ ∃ t, ready_with o t.
Proof.
  destruct o as [r|e]; [|by left]. unfold never_ready, ready_with.
  destruct (data r) as [d|] eqn:Hd; [|by left].
  destruct (transcript_of (default (own d) (resource d))) as [t|] eqn:Ht;
    [|by left].
  destruct (valid_transcript (Some t)) eqn:Hv; [|by left].
  right. exists t, r, d. repeat split; try done.
  unfold valid_transcript in Hv. apply andb_prop in Hv as [_ Hv].
  by apply Nat.ltb_lt.
Qed.

Lemma never_ready_not_ready (o : outcome) t :
  never_ready o → ready_with o t → False.
Proof.
  intros Hn (r & d & -> & Hd & Ht & Hlen). unfold never_ready in Hn.
  rewrite Hd, Ht in Hn. unfold valid_transcript in Hn.
  apply Nat.ltb_lt in Hlen. rewrite Hlen, andb_true_r in Hn.
  by destruct t.
Qed.

Lemma ready_with_unique (o : outcome) t t' :
  ready_with o t → ready_with o t' → t = t'.
Proof.
  intros (r & d & -> & Hd & Ht & _) (r' & d' & [= <-] & Hd' & Ht' & _).
  congruence.
Qed.

(** An attempt on a request that is ready returns its transcript. *)
Lemma attempt_once_ready w t :
  ready_with (fetch (requests w)) t →
  ∃ w' evs,
    attempt_once fetch eventUuid cfg w = (w', inr (Some t))
    ∧ requests w' = S (requests w)
    ∧ appended w w' evs
    ∧ io_of evs = [Get eventUuid (calendlyPat cfg)].
Proof.
  intros (r & d & Hf & Hd & Ht & Hlen).
  unfold attempt_once, try_catch, axios_get, appended.
  unfold mbind, M_bind, mret, M_ret, throw, log.
  rewrite Hf. cbn [data]. rewrite Hd. cbn beta iota. rewrite Ht.
  assert (valid_transcript (Some t) = true) as ->.
  { unfold valid_transcript. apply Nat.ltb_lt in Hlen. rewrite Hlen.
    by destruct t. }
  simpl. eexists _, [_; _]. simpl. rewrite <- app_assoc. by repeat split.
Qed.

Lemma poll_from_step remaining attempt w :
  poll_from fetch eventUuid cfg (S remaining) attempt w
  = match attempt_once fetch eventUuid cfg
            {| requests := requests w;
               trace := trace w
                 ++ [Log info (PollingAttempt attempt
                                 (maxAttempts (retry cfg)))] |} with
    | (w1, inl e) => (w1, inl e)
    | (w1, inr (Some t)) => (w1, inr (Some t))
    | (w1, inr None) =>
        poll_from fetch eventUuid cfg remaining (S attempt)
          (if (attempt <? maxAttempts (retry cfg))%nat
           then {| requests := requests w1;
                   trace := (trace w1
                     ++ [Log info (Waiting (backoff cfg attempt))])
                     ++ [Sleep (backoff cfg attempt)] |}
           else w1)
    end.
Proof.
  cbn [poll_from]. unfold mbind at 1, M_bind at 1, log at 1.
  rewrite emit_appended. unfold mbind at 1, M_bind at 1.
  destruct (attempt_once _ _ _ _) as [w1 [e|[t|]]]; [done|done|].
  destruct (attempt <? maxAttempts (retry cfg))%nat; [|done].
  unfold mbind at 1, M_bind at 1, mbind at 1, M_bind at 1, log, sleep.
  by rewrite !emit_appended.
Qed.

(** Every run of the loop, whatever the remote side does: it returns, and
    either some request was the first ready one, or none was. *)
Lemma poll_from_outcome remaining attempt w :
  ∃ w' r evs,
    poll_from fetch eventUuid cfg remaining attempt w = (w', inr r)
    ∧ appended w w' evs
    ∧ match r with
      | Some t =>
          ∃ k, (k < remaining)%nat
               ∧ requests w' = (requests w + S k)%nat
               ∧ (∀ j, (j < k)%nat → never_ready (fetch (requests w + j)))
               ∧ ready_with (fetch (requests w + k)) t
               ∧ io_of evs
                 = schedule eventUuid cfg k attempt
                   ++ [Get eventUuid (calendlyPat cfg)]
      | None =>
          requests w' = (requests w + remaining)%nat
          ∧ (∀ j, (j < remaining)%nat → never_ready (fetch (requests w + j)))
          ∧ io_of evs = schedule eventUuid cfg remaining attempt
      end.
Proof.
  revert attempt w.
  induction remaining as [|remaining IH]; intros attempt w.
  - exists w, None, []. unfold appended. simpl. rewrite app_nil_r.
    repeat split; try done; lia.
  - rewrite poll_from_step.
    set (w0 := {| requests := requests w; trace := _ |}).
    destruct (outcome_cases (fetch (requests w0))) as [Hnever|[t Hready]].
    + destruct (attempt_once_never_ready fetch eventUuid cfg w0 Hnever)
        as (w1 & evs1 & -> & Hreq1 & Happ1 & Hio1).
      set (w2 := if (attempt <? _)%nat then _ else w1).
      destruct (IH (S attempt) w2) as (w' & r & evs & Hrun & Happ & Hr).
      assert (requests w2 = S (requests w)) as Hreq2.
      { subst w2. by destruct (attempt <? _)%nat. }
      assert (∃ evs2, appended w w2 evs2
                      ∧ io_of evs2
                        = Get eventUuid (calendlyPat cfg)
                          :: (if (attempt <? maxAttempts (retry cfg))%nat
                              then [Sleep (backoff cfg attempt)] else []))
        as (evs2 & Happ2 & Hio2).
      { unfold appended in *. subst w2.
        destruct (attempt <? maxAttempts (retry cfg))%nat.
        - exists ([Log info (PollingAttempt attempt (maxAttempts (retry cfg)))]
                  ++ evs1 ++ [Log info (Waiting (backoff cfg attempt));
                              Sleep (backoff cfg attempt)]).
          split.
          + cbn [trace]. rewrite Happ1. subst w0. cbn [trace].
            by rewrite <- !app_assoc.
          + by rewrite !io_of_app, Hio1.
        - exists ([Log info (PollingAttempt attempt (maxAttempts (retry cfg)))]
                  ++ evs1).
          split.
          + rewrite Happ1. subst w0. cbn [trace]. by rewrite <- !app_assoc.
          + by rewrite !io_of_app, Hio1. }
      exists w', r, (evs2 ++ evs). split; [done|]. split.
      { unfold appended in *. by rewrite Happ, Happ2, <- app_assoc. }
      destruct r as [t|].
      * destruct Hr as (k & Hk & Hreq & Hbefore & Hready & Hio).
        exists (S k). split; [lia|]. split; [lia|]. split.
        { intros [|j] Hj; [by rewrite Nat.add_0_r|].
          replace (requests w + S j)%nat with (requests w2 + j)%nat by lia.
          apply Hbefore. lia. }
        split.
        { by replace (requests w + S k)%nat with (requests w2 + k)%nat
            by lia. }
        rewrite io_of_app, Hio2, Hio. cbn [schedule app]. unfold backoff.
        by rewrite app_assoc.
      * destruct Hr as (Hreq & Hbefore & Hio).
        split; [lia|]. split.
        { intros [|j] Hj; [by rewrite Nat.add_0_r|].
          replace (requests w + S j)%nat with (requests w2 + j)%nat by lia.
          apply Hbefore. lia. }
        rewrite io_of_app, Hio2, Hio. by cbn [schedule].
    + destruct (attempt_once_ready w0 t Hready)
        as (w1 & evs1 & -> & Hreq1 & Happ1 & Hio1).
      exists w1, (Some t),
        ([Log info (PollingAttempt attempt (maxAttempts (retry cfg)))]
         ++ evs1).
      split; [done|]. split.
      { unfold appended in *. rewrite Happ1. subst w0. cbn [trace].
        by rewrite <- !app_assoc. }
      exists 0%nat. split; [lia|]. split; [subst w0; simpl in *; lia|].
      split; [intros j Hj; lia|]. split; [by rewrite Nat.add_0_r|].
      by rewrite io_of_app, Hio1.
Qed.

End PollingOutcome.

Lemma sleeps_of_app t1 t2 :
  Calendly.sleeps_of (t1 ++ t2)
  = Calendly.sleeps_of t1 ++ Calendly.sleeps_of t2.
Proof. apply omap_app. Qed.

Lemma sleeps_of_schedule_prefix eventUuid cfg k attempt :
  (attempt + k ≤ Calendly.maxAttempts (Calendly.retry cfg))%nat →
  Calendly.sleeps_of (Calendly.schedule eventUuid cfg k attempt)
  = List.map (backoff cfg) (seq attempt k).
Proof.
  revert attempt. induction k as [|k IH]; intros attempt Hsum; [done|].
  cbn [Calendly.schedule].
  assert ((attempt <? Calendly.maxAttempts (Calendly.retry cfg))%nat = true)
    as -> by (apply Nat.ltb_lt; lia).
  change (Calendly.sleeps_of
            (Calendly.Get eventUuid (Calendly.calendlyPat cfg)
             :: [Calendly.Sleep (backoff cfg attempt)]
             ++ Calendly.schedule eventUuid cfg k (S attempt))
          = backoff cfg attempt :: List.map (backoff cfg) (seq (S attempt) k)).
  rewrite <- IH by lia. done.
Qed.

(** X12.  When the first ready request is the one numbered [k] (from 0),
    with [k] below [maxAttempts], [pollForTranscript] returns its
    transcript after exactly [k + 1] requests: it has waited
    [baseDelayMs * 2^(i-1)] ms after each of the [k] attempts before, and
    neither requests nor waits after the transcript was found. *)
Theorem pollForTranscript_ready_at
    (fetch : nat → Calendly.outcome) (eventUuid : string)
    (cfg : Calendly.config) (k : nat) (t : string) :
  (k < Calendly.maxAttempts (Calendly.retry cfg))%nat →
  (∀ j, (j < k)%nat → Calendly.never_ready (fetch j)) →
  ready_with (fetch k) t →
  ∃ w,
    Calendly.pollForTranscript fetch eventUuid cfg Calendly.initial_world
    = (w, inr (Some t))
    ∧ Calendly.requests w = S k
    ∧ Calendly.io_of (Calendly.trace w)
      = Calendly.schedule eventUuid cfg k 1
        ++ [Calendly.Get eventUuid (Calendly.calendlyPat cfg)]
    ∧ Calendly.sleeps_of (Calendly.trace w)
      = List.map (backoff cfg) (seq 1 k).
Proof.
  intros Hk Hbefore Hready. unfold Calendly.pollForTranscript.
  destruct (poll_from_outcome fetch eventUuid cfg
              (Calendly.maxAttempts (Calendly.retry cfg)) 1
              Calendly.initial_world)
    as (w & r & evs & Hrun & Happ & Hr).
  unfold Calendly.appended in Happ. simpl in Happ, Hr.
  destruct r as [t'|].
  - destruct Hr as (k' & Hk' & Hreq & Hbefore' & Hready' & Hio).
    assert (k' = k) as ->.
    { destruct (Nat.lt_trichotomy k' k) as [Hlt|[Heq|Hgt]]; [|done|].
      - destruct (never_ready_not_ready _ _ (Hbefore _ Hlt) Hready').
      - destruct (never_ready_not_ready _ _ (Hbefore' _ Hgt) Hready). }
    rewrite (ready_with_unique _ _ _ Hready Hready').
    exists w. split; [done|]. split; [done|]. rewrite Happ.
    split; [done|].
    rewrite <- sleeps_of_io, Hio, sleeps_of_app, sleeps_of_schedule_prefix
      by lia.
    apply app_nil_r.
  - destruct Hr as (_ & Hnever & _).
    destruct (never_ready_not_ready _ _ (Hnever _ Hk) Hready).
Qed.

Lemma pollForTranscript_ready_at_witness :
  ∃ w,
    Calendly.pollForTranscript ready_third_fetch "TEST-EVENT-123"
      (Calendly.getConfig (Some "pat")) Calendly.initial_world
    = (w, inr (Some scenario_transcript))
    ∧ Calendly.requests w = 3%nat
    ∧ Calendly.sleeps_of (Calendly.trace w) = [30000; 60000].
Proof.
  destruct (pollForTranscript_ready_at ready_third_fetch "TEST-EVENT-123"
              (Calendly.getConfig (Some "pat")) 2 scenario_transcript)
    as (w & Hrun & Hreq & _ & Hsleeps).
  - simpl. lia.
  - intros [|[|j]] Hj; [done|done|lia].
  - eexists _, _. split; [reflexivity|]. split; [reflexivity|].
    split; [reflexivity|]. simpl. lia.
  - by exists w.
Defined.



Section PollingSettings.

Import Calendly.

Variable fetch : nat → outcome.
Variable eventUuid : string.

Lemma poll_from_settings cfg cfg' remaining attempt w :
  calendlyPat cfg = calendlyPat cfg' →
  maxAttempts (retry cfg) = maxAttempts (retry cfg') →
  baseDelayMs (retry cfg) = baseDelayMs (retry cfg') →
  poll_from fetch eventUuid cfg remaining attempt w
  = poll_from fetch eventUuid cfg' remaining attempt w.
Proof.
  intros Hpat Hmax Hbase. revert attempt w.
  induction remaining as [|remaining IH]; intros attempt w; [done|].
  rewrite !poll_from_step.
  assert (attempt_once fetch eventUuid cfg = attempt_once fetch eventUuid cfg')
    as -> by (unfold attempt_once; by rewrite Hpat).
  unfold backoff. rewrite Hmax, Hbase.
  destruct (attempt_once _ _ _ _) as [w1 [e|[t|]]]; [done|done|].
  apply IH.
Qed.

End PollingSettings.

(** X14.  The [maxDelayMs] setting is never applied.  Two configurations
    that agree on the token, [maxAttempts] and [baseDelayMs] poll alike,
    whatever their [maxDelayMs]; and against a remote side that is never
    ready, with at least two attempts, the run waits
    [baseDelayMs * 2^(maxAttempts-2)] ms before the last attempt even
    when that exceeds [maxDelayMs]. *)
Theorem pollForTranscript_delay_uncapped
    (fetch : nat → Calendly.outcome) (eventUuid : string) :
  (∀ cfg cfg' w,
     Calendly.calendlyPat cfg = Calendly.calendlyPat cfg' →
     Calendly.maxAttempts (Calendly.retry cfg)
     = Calendly.maxAttempts (Calendly.retry cfg') →
     Calendly.baseDelayMs (Calendly.retry cfg)
     = Calendly.baseDelayMs (Calendly.retry cfg') →
     Calendly.pollForTranscript fetch eventUuid cfg w
     = Calendly.pollForTranscript fetch eventUuid cfg' w)
  ∧ (∀ cfg,
       (∀ n, Calendly.never_ready (fetch n)) →
       (2 ≤ Calendly.maxAttempts (Calendly.retry cfg))%nat →
       Calendly.maxDelayMs (Calendly.retry cfg)
       < backoff cfg (Calendly.maxAttempts (Calendly.retry cfg) - 1) →
       ∃ w d,
         Calendly.pollForTranscript fetch eventUuid cfg Calendly.initial_world
         = (w, inr None)
         ∧ last (Calendly.sleeps_of (Calendly.trace w)) = Some d
         ∧ d = backoff cfg (Calendly.maxAttempts (Calendly.retry cfg) - 1)
         ∧ Calendly.maxDelayMs (Calendly.retry cfg) < d).
Proof.
  split.
  - intros cfg cfg' w Hpat Hmax Hbase. unfold Calendly.pollForTranscript.
    rewrite <- Hmax. by apply poll_from_settings.
  - intros cfg Hnever Hmax Hcap. unfold Calendly.pollForTranscript.
    destruct (poll_from_never_ready fetch eventUuid cfg
                (Calendly.maxAttempts (Calendly.retry cfg)) 1
                Calendly.initial_world Hnever)
      as (w & evs & Hrun & _ & Happ & Hio).
    unfold Calendly.appended in Happ. simpl in Happ.
    exists w, (backoff cfg (Calendly.maxAttempts (Calendly.retry cfg) - 1)).
    split; [done|]. split; [|done].
    rewrite Happ, <- sleeps_of_io, Hio, sleeps_of_schedule by lia.
    destruct (Calendly.maxAttempts (Calendly.retry cfg)) as [|[|n]];
      [lia|lia|].
    replace (S (S n) - 1)%nat with (S n) by lia.
    rewrite seq_S, map_app. cbn [List.map]. rewrite last_snoc.
    unfold backoff.
    by replace (1 + n)%nat with (S n) by lia.
Qed.

Lemma pollForTranscript_delay_uncapped_witness :
  ∃ w,
    Calendly.pollForTranscript Calendly.never_ready_fetch "TEST-EVENT-123"
      seven_attempts Calendly.initial_world
    = (w, inr None)
    ∧ last (Calendly.sleeps_of (Calendly.trace w)) = Some 960000
    ∧ Calendly.maxDelayMs (Calendly.retry seven_attempts) < 960000.
Proof.
  assert (∀ n, Calendly.never_ready (Calendly.never_ready_fetch n)) as Hnever.
  { intros n. unfold Calendly.never_ready_fetch.
    destruct (n mod 4)%nat as [|[|[|?]]]; simpl; done. }
  destruct (pollForTranscript_delay_uncapped Calendly.never_ready_fetch
              "TEST-EVENT-123") as [_ Hcap].
  destruct (Hcap seven_attempts Hnever) as (w & d & Hrun & Hlast & Hd & Hlt).
  - simpl. lia.
  - reflexivity.
  - exists w. split; [exact Hrun|]. rewrite Hlast, Hd.
    split; reflexivity.
Defined.

(** ** The Calendly webhook handler around the polling *)



Lemma schedule_Get eventUuid cfg k attempt id bearer :
  Calendly.Get id bearer ∈ Calendly.schedule eventUuid cfg k attempt →
  id = eventUuid ∧ bearer = Calendly.calendlyPat cfg.
Proof.
  revert attempt. induction k as [|k IH]; intros attempt.
  - by intros ?%elem_of_nil.
  - cbn [Calendly.schedule]. intros [Heq|Hin]%elem_of_cons.
    + by injection Heq as -> ->.
    + apply elem_of_app in Hin as [Hin|Hin]; [|by eapply IH].
      destruct (_ <? _)%nat; [|by apply elem_of_nil in Hin].
      by apply list_elem_of_singleton in Hin.
Qed.

Lemma io_of_Get t id bearer :
  Calendly.Get id bearer ∈ t → Calendly.Get id bearer ∈ Calendly.io_of t.
Proof.
  intros Hin. unfold Calendly.io_of.
  apply list_elem_of_In, filter_In. by split; [apply list_elem_of_In|].
Qed.

Lemma generateSummary_nonempty post transcript summary :
  OpenAI.generateSummary post transcript = inr summary → summary ≠ "".
Proof.
  unfold OpenAI.generateSummary.
  destruct (post _) as [[[|c s]|]|msg]; try done. by intros [= <-].
Qed.

Section HandlerFacts.

Import Webhook.

Context {H : Host}.
Variable fetch : nat → Calendly.outcome.
Variable post : string → OpenAI.outcome.
Variable R : Type.
Variable upsertPersonAndNote : string → string → string → string + R.
Variable cfg : Calendly.config.
Variable slackWebhookUrl : option string.

Local Abbreviation handle :=
  (handleCalendlyWebhook fetch post R upsertPersonAndNote cfg slackWebhookUrl).

(** The polling as the handler runs it, with what is known of its
    result. *)
Lemma handler_poll eventUuid :
  ∃ cw r,
    Calendly.pollForTranscript fetch eventUuid cfg Calendly.initial_world
    = (cw, inr r)
    ∧ (Calendly.requests cw ≤ Calendly.maxAttempts (Calendly.retry cfg))%nat
    ∧ (∀ id bearer, Calendly.Get id bearer ∈ Calendly.trace cw →
         id = eventUuid ∧ bearer = Calendly.calendlyPat cfg)
    ∧ match r with
      | Some t =>
          (50 < String.length t)%nat
          ∧ ready_with (fetch (Calendly.requests cw - 1)%nat) t
      | None =>
          Calendly.requests cw = Calendly.maxAttempts (Calendly.retry cfg)
      end.
Proof.
  unfold Calendly.pollForTranscript.
  destruct (poll_from_outcome fetch eventUuid cfg
              (Calendly.maxAttempts (Calendly.retry cfg)) 1
              Calendly.initial_world)
    as (cw & r & evs & Hrun & Happ & Hr).
  unfold Calendly.appended in Happ. simpl in Happ, Hr.
  exists cw, r. split; [done|]. rewrite Happ. destruct r as [t|].
  - destruct Hr as (k & Hk & Hreq & _ & Hready & Hio).
    rewrite Hreq. split; [lia|]. split.
    + intros id bearer Hin%io_of_Get. rewrite Hio in Hin.
      apply elem_of_app in Hin as [Hin|Hin]; [by eapply schedule_Get|].
      apply list_elem_of_singleton in Hin. by injection Hin as -> ->.
    + replace (S k - 1)%nat with k by lia. split; [|done].
      by destruct Hready as (? & ? & _ & _ & _ & ?).
  - destruct Hr as (Hreq & _ & Hio). rewrite Hreq. split; [lia|].
    split; [|done].
    intros id bearer Hin%io_of_Get. rewrite Hio in Hin.
    by eapply schedule_Get.
Qed.

(** Every run of the handler from the initial world. *)
Lemma handleCalendlyWebhook_cases now p :
  (event p ≠ Some "invitee.created"
   ∧ handle now p initial_world = (initial_world, inr None))
  ∨ (event p = Some "invitee.created"
     ∧ (∀ eventData u eventUuid guestEmail,
          payload p = Some eventData →
          scheduled_event eventData ≫= uri = Some u →
          last (split "/" u) = Some eventUuid →
          email eventData = Some guestEmail →
          eventUuid = "" ∨ guestEmail = "")
     ∧ ∃ message,
         handle now p initial_world
         = fail R slackWebhookUrl parse_payload message initial_world)
  ∨ (∃ eventData u eventUuid guestEmail waits cw r,
       event p = Some "invitee.created"
       ∧ payload p = Some eventData
       ∧ scheduled_event eventData ≫= uri = Some u
       ∧ last (split "/" u) = Some eventUuid ∧ eventUuid ≠ ""
       ∧ email eventData = Some guestEmail ∧ guestEmail ≠ ""
       ∧ (waits = [] ∨ ∃ ms, waits = [Wait ms])
       ∧ Calendly.pollForTranscript fetch eventUuid cfg
           Calendly.initial_world = (cw, inr r)
       ∧ let w := {| calendly := cw; effects := waits |} in
         let guestName :=
           match name eventData with
           | Some (String _ _ as n) => n
           | _ => EmptyString
           end in
         handle now p initial_world
         = match r with
           | Some (String _ _ as t) =>
               match OpenAI.generateSummary post t with
               | inl message =>
                   fail R slackWebhookUrl generate_summary message
                     (emit (Summarize t) w)
               | inr summary =>
                   let w' :=
                     emit (Upsert guestEmail guestName summary)
                       (emit (Summarize t) w) in
                   match upsertPersonAndNote guestEmail guestName summary with
                   | inl message =>
                       fail R slackWebhookUrl attio_upsert message w'
                   | inr result => (w', inr (Some result))
                   end
               end
           | _ =>
               fail R slackWebhookUrl poll_transcript
                 "Transcript not available after maximum retries" w
           end).
Proof.
  unfold handleCalendlyWebhook.
  destruct (decide (event p = Some "invitee.created")) as [Hev|Hev].
  2: { left. by rewrite bool_decide_eq_false_2. }
  right. rewrite bool_decide_eq_true_2 by done. cbn [negb].
  destruct (payload p) as [eventData|] eqn:Hp.
  2: { left. split; [done|]. split; [done|]. by eexists. }
  destruct (scheduled_event eventData ≫= uri) as [u|] eqn:Hu.
  2: { left. split; [done|]. split; [|by eexists].
       intros ???? [= <-]. by rewrite Hu. }
  cbn [mbind option_bind].
  destruct (last (split "/" u)) as [[|c eventUuid]|] eqn:Hid.
  1,3: left; split; [done|]; (split; [|by eexists]);
    intros ???? [= <-]; rewrite Hu; intros [= <-]; rewrite Hid;
    intros [= <-]; by left.
  destruct (email eventData) as [[|d guestEmail]|] eqn:Hmail.
  1,3: left; split; [done|]; (split; [|by eexists]);
    intros ???? [= <-] _ _; rewrite Hmail; intros [= <-]; by right.
  right.
  destruct (handler_poll (String c eventUuid)) as (cw & r & Hrun & _).
  set (waits := match (scheduled_event eventData ≫= end_time) ≫= Date_getTime
                with
                | Some endTime =>
                    if now <? endTime then [Wait (endTime - now + 60000)]
                    else []
                | None => []
                end).
  exists eventData, u, (String c eventUuid), (String d guestEmail), waits, cw, r.
  repeat (split; [done|]). split.
  { subst waits. destruct (_ ≫= Date_getTime) as [endTime|]; [|by left].
    destruct (now <? endTime); [right; by eexists|by left]. }
  split; [done|]. cbn zeta.
  subst waits.
  destruct ((scheduled_event eventData ≫= end_time) ≫= Date_getTime)
    as [endTime|]; [destruct (now <? endTime)|];
    cbn [emit calendly effects initial_world app]; by rewrite Hrun.
Qed.

End HandlerFacts.

(** Membership in an explicit list of effects, split into its cases, and
    membership of an element that is in plain sight. *)
Ltac effect_mem :=
  repeat match goal with
  | Hin : _ ∈ [] |- _ => by apply elem_of_nil in Hin
  | Hin : _ ∈ _ :: _ |- _ => apply elem_of_cons in Hin as [Hin|Hin]
  | Hin : _ ∈ _ ++ _ |- _ => apply elem_of_app in Hin as [Hin|Hin]
  | Heq : @eq Webhook.effect _ _ |- _ => discriminate Heq
  end.

Ltac effect_here :=
  repeat first [apply list_elem_of_here | apply list_elem_of_further].

(** X15.  When the remote side is never ready, the handler of a booking
    notification with an event identifier and a guest email fails at the
    polling step: it has issued exactly [maxAttempts] requests, called
    neither the summarizer nor the CRM, posted the failure to Slack when a
    webhook URL is configured, and it rethrows
    [Transcript not available after maximum retries]. *)
Theorem handleCalendlyWebhook_never_ready {H : Host}
    (fetch : nat → Calendly.outcome) (post : string → OpenAI.outcome)
    (R : Type) (upsertPersonAndNote : string → string → string → string + R)
    (cfg : Calendly.config) (slackWebhookUrl : option string)
    (now : Z) (p : Webhook.payload_t) (eventData : Webhook.event_data)
    (u eventUuid guestEmail : string) :
  Webhook.event p = Some "invitee.created" →
  Webhook.payload p = Some eventData →
  Webhook.scheduled_event eventData ≫= Webhook.uri = Some u →
  last (Webhook.split "/" u) = Some eventUuid → eventUuid ≠ "" →
  Webhook.email eventData = Some guestEmail → guestEmail ≠ "" →
  (∀ n, Calendly.never_ready (fetch n)) →
  ∃ w,
    Webhook.handleCalendlyWebhook fetch post R upsertPersonAndNote cfg
      slackWebhookUrl now p Webhook.initial_world
    = (w, inl "Transcript not available after maximum retries")
    ∧ Calendly.requests (Webhook.calendly w)
      = Calendly.maxAttempts (Calendly.retry cfg)
    ∧ List.filter Webhook.is_write (Webhook.effects w) = []
    ∧ (∀ webhookUrl s message,
         Webhook.SlackPost webhookUrl s message ∈ Webhook.effects w ↔
         slackWebhookUrl = Some webhookUrl ∧ webhookUrl ≠ ""
         ∧ s = Webhook.poll_transcript
         ∧ message = "Transcript not available after maximum retries").
Proof.
  intros Hev Hp Hu Hid Hid0 Hmail Hmail0 Hnever.
  destruct (handleCalendlyWebhook_cases fetch post R upsertPersonAndNote cfg
              slackWebhookUrl now p)
    as [[Hev' _]|[(_ & Hmissing & _)|Hpolled]]; [done| |].
  { by destruct (Hmissing _ _ _ _ Hp Hu Hid Hmail). }
  destruct Hpolled as (eventData' & u' & eventUuid' & guestEmail' & waits
                       & cw & r & _ & Hp' & Hu' & Hid' & _ & Hmail' & _
                       & Hwaits & Hrun & Hres).
  rewrite Hp in Hp'. injection Hp' as <-.
  rewrite Hu in Hu'. injection Hu' as <-.
  rewrite Hid in Hid'. apply (inj Some) in Hid'. subst eventUuid'.
  destruct (poll_from_never_ready fetch eventUuid cfg
              (Calendly.maxAttempts (Calendly.retry cfg)) 1
              Calendly.initial_world Hnever)
    as (cw' & evs & Hrun' & Hreq & _).
  unfold Calendly.pollForTranscript in Hrun. rewrite Hrun' in Hrun.
  injection Hrun as -> <-. cbn zeta in Hres. rewrite Hres.
  unfold Webhook.fail. eexists. split; [done|].
  unfold Webhook.sendSlackError.
  destruct Hwaits as [->|[ms ->]];
    destruct slackWebhookUrl as [[|c url]|]; cbn;
    (split; [done|]); (split; [done|]);
    intros webhookUrl s message;
    (split;
     [intros Hin; effect_mem; by injection Hin as -> -> ->
     |intros (Heq & Hne & -> & ->); try discriminate Heq;
      injection Heq as <-; try done; effect_here]).
Qed.

Lemma handleCalendlyWebhook_never_ready_witness :
  ∃ w,
    Webhook.handleCalendlyWebhook (H := ReferenceHost.host)
      Calendly.never_ready_fetch scenario_post string scenario_upsert
      (Calendly.getConfig (Some "pat")) (Some "https://hooks.slack.com/x")
      1705314000000 scenario_invitee Webhook.initial_world
    = (w, inl "Transcript not available after maximum retries")
    ∧ Calendly.requests (Webhook.calendly w) = 5%nat
    ∧ List.filter Webhook.is_write (Webhook.effects w) = [].
Proof.
  assert (∀ n, Calendly.never_ready (Calendly.never_ready_fetch n)) as Hnever.
  { intros n. unfold Calendly.never_ready_fetch.
    destruct (n mod 4)%nat as [|[|[|?]]]; simpl; done. }
  destruct (handleCalendlyWebhook_never_ready (H := ReferenceHost.host)
              Calendly.never_ready_fetch scenario_post string scenario_upsert
              (Calendly.getConfig (Some "pat"))
              (Some "https://hooks.slack.com/x")
              1705314000000 scenario_invitee
              {| Webhook.scheduled_event := Some
                   {| Webhook.uri :=
                        Some "https://api.calendly.com/scheduled_events/EVT-1";
                      Webhook.end_time := Some "2024-01-15T10:30:00Z" |};
                 Webhook.email := Some "a@x.com";
                 Webhook.name := Some "Alice" |}
              "https://api.calendly.com/scheduled_events/EVT-1"
              "EVT-1" "a@x.com")
    as (w & Hrun & Hreq & Hwrites & _);
    [reflexivity|reflexivity|reflexivity|reflexivity|done
    |reflexivity|done|exact Hnever|].
  exists w. split; [exact Hrun|]. split; [exact Hreq|exact Hwrites].
Defined.

(** X16.  The handler writes to the CRM only what it has polled: an
    upsert carries the guest email of the payload and a non-empty summary
    that the summarizer returned for a transcript of more than 50
    characters, taken from the last request issued; the handler returns a
    result only from such an upsert, and it calls the summarizer and the
    CRM at most once each. *)
Theorem handleCalendlyWebhook_writes_only_polled {H : Host}
    (fetch : nat → Calendly.outcome) (post : string → OpenAI.outcome)
    (R : Type) (upsertPersonAndNote : string → string → string → string + R)
    (cfg : Calendly.config) (slackWebhookUrl : option string)
    (now : Z) (p : Webhook.payload_t) :
  let res :=
    Webhook.handleCalendlyWebhook fetch post R upsertPersonAndNote cfg
      slackWebhookUrl now p Webhook.initial_world in
  (∀ guestEmail guestName summary,
     Webhook.Upsert guestEmail guestName summary ∈ Webhook.effects res.1 →
     summary ≠ ""
     ∧ Webhook.event p = Some "invitee.created"
     ∧ Webhook.payload p ≫= Webhook.email = Some guestEmail
     ∧ ∃ t,
         Webhook.Summarize t ∈ Webhook.effects res.1
         ∧ OpenAI.generateSummary post t = inr summary
         ∧ (50 < String.length t)%nat
         ∧ ready_with
             (fetch (Calendly.requests (Webhook.calendly res.1) - 1)%nat) t)
  ∧ (∀ result,
       res.2 = inr (Some result) →
       ∃ guestEmail guestName summary,
         Webhook.Upsert guestEmail guestName summary ∈ Webhook.effects res.1
         ∧ upsertPersonAndNote guestEmail guestName summary = inr result)
  ∧ (length (List.filter Webhook.is_summarize (Webhook.effects res.1)) ≤ 1
     ∧ length (List.filter Webhook.is_upsert (Webhook.effects res.1)) ≤ 1
     ∧ length (List.filter Webhook.is_write (Webhook.effects res.1)) ≤ 2)%nat.
Proof.
  intros res. subst res.
  destruct (handleCalendlyWebhook_cases fetch post R upsertPersonAndNote cfg
              slackWebhookUrl now p)
    as [[_ ->]|[(_ & _ & message & ->)|Hpolled]].
  - cbn. split; [|split; [done|repeat split; lia]]. by intros ??? ?%elem_of_nil.
  - unfold Webhook.fail, Webhook.sendSlackError.
    destruct slackWebhookUrl as [[|c url]|]; cbn;
      (split; [|split; [done|repeat split; lia]]); intros ??? Hin; effect_mem.
  - destruct Hpolled as (eventData & u & eventUuid & guestEmail & waits
                         & cw & r & Hev & Hp & _ & _ & _ & Hmail & _
                         & Hwaits & Hrun & ->).
    destruct (handler_poll fetch cfg eventUuid)
      as (cw' & r' & Hrun' & _ & _ & Hr).
    rewrite Hrun in Hrun'. injection Hrun' as <- <-.
    cbn zeta. unfold Webhook.fail, Webhook.sendSlackError.
    destruct r as [[|c t]|].
    + destruct Hr as [Hlen _]. cbn in Hlen. lia.
    + destruct Hr as [Hlen Hready].
      destruct (OpenAI.generateSummary post (String c t))
        as [message|summary] eqn:Hsum.
      * destruct Hwaits as [->|[ms ->]];
          destruct slackWebhookUrl as [[|d url]|]; cbn;
          (split; [|split; [done|repeat split; lia]]); intros ??? Hin; effect_mem.
      * pose proof (generateSummary_nonempty _ _ _ Hsum) as Hne.
        rewrite Hp. cbn [mbind option_bind]. rewrite Hmail.
        destruct (upsertPersonAndNote _ _ summary) as [message|result] eqn:Hup;
          destruct Hwaits as [->|[ms ->]];
          try destruct slackWebhookUrl as [[|d url]|]; cbn;
          (split; [|split; [|repeat split; lia]]);
          try (intros ??? Hin; effect_mem; injection Hin as -> -> ->;
               split; [done|]; split; [done|]; split; [done|];
               exists (String c t); split; [effect_here|done]);
          try done;
          intros result' [= <-]; eexists _, _, _;
          (split; [|exact Hup]); effect_here.
    + destruct Hwaits as [->|[ms ->]];
        destruct slackWebhookUrl as [[|d url]|]; cbn;
        (split; [|split; [done|repeat split; lia]]); intros ??? Hin; effect_mem.
Qed.

Lemma handleCalendlyWebhook_writes_only_polled_witness :
  let res :=
    Webhook.handleCalendlyWebhook (H := ReferenceHost.host)
      ready_third_fetch scenario_post string scenario_upsert
      (Calendly.getConfig (Some "pat")) None
      1705314000000 scenario_invitee Webhook.initial_world in
  res.2 = inr (Some "person-1")
  ∧ (∃ t, Webhook.Summarize t ∈ Webhook.effects res.1
          ∧ (50 < String.length t)%nat)
  ∧ (length (List.filter Webhook.is_summarize (Webhook.effects res.1)) ≤ 1)%nat
  ∧ (length (List.filter Webhook.is_upsert (Webhook.effects res.1)) ≤ 1)%nat.
Proof.
  intros res. split; [vm_compute; reflexivity|].
  destruct (handleCalendlyWebhook_writes_only_polled (H := ReferenceHost.host)
              ready_third_fetch scenario_post string scenario_upsert
              (Calendly.getConfig (Some "pat")) None
              1705314000000 scenario_invitee)
    as (Hwrites & _ & Hsum & Hup & _).
  destruct (Hwrites "a@x.com" "Alice" "## Meeting Overview")
    as (_ & _ & _ & t & Hin & _ & Hlen & _).
  { vm_compute. effect_here. }
  split; [|split; [exact Hsum|exact Hup]].
  exists t. split; [exact Hin|exact Hlen].
Defined.



(** ** The Fathom webhook: correlation, guest and signature *)

Lemma processFathomWebhook_object p transcript meetingData :
  Fathom.processFathomWebhook p transcript = inr meetingData →
  ∃ t g,
    transcript = Some t ∧ t ≠ ""
    ∧ Fathom.guestEmail_of p = Some g ∧ g ≠ ""
    ∧ meetingData !! "transcript" = Some t
    ∧ meetingData !! "guestEmail" = Some g
    ∧ meetingData !! "source" = Some "fathom"
    ∧ meetingData !! "meetingUrl" = None
    ∧ meetingData !! "hostEmail" = None
    ∧ meetingData !! "startTime" = None.
Proof.
  unfold Fathom.processFathomWebhook.
  destruct transcript as [[|c t]|]; [done| |done].
  destruct (Fathom.guestEmail_of p) as [[|d g]|]; [done| |done].
  intros [= <-]. exists (String c t), (String d g).
  repeat split; try done.
Qed.

(** X18.  The Fathom handler never correlates a recording with a booking.
    The object [processFathomWebhook] returns has no [meetingUrl],
    [hostEmail] or [startTime] member, so [findMatch] is called without a
    meeting URL and without a start time and answers [null] whatever the
    store holds; the note always ends in [No Calendly match found].  The
    call still sweeps the expired bookings. *)
Theorem handleFathomWebhook_never_correlates {H : Host}
    (p : Fathom.payload) (transcript : option string)
    (meetingData : Fathom.object) (now : Z) (bookings : bookings_map) :
  Fathom.processFathomWebhook p transcript = inr meetingData →
  Fathom.correlate now meetingData bookings = (None, cleanup now bookings)
  ∧ Fathom.correlationNote (Fathom.correlate now meetingData bookings).1
    = "No Calendly match found"
  ∧ ∀ summary,
      Fathom.summaryWithContext summary
        (Fathom.correlationNote (Fathom.correlate now meetingData bookings).1)
      = summary +:+ Fathom.line_feed +:+ Fathom.line_feed +:+ "---"
        +:+ Fathom.line_feed +:+ "No Calendly match found".
Proof.
  intros (t & g & _ & _ & _ & _ & _ & _ & _ & Hurl & Hhost & Hstart)
    %processFathomWebhook_object.
  assert (Fathom.correlate now meetingData bookings
          = (None, cleanup now bookings)) as ->.
  { unfold Fathom.correlate, findMatch. by rewrite Hurl, Hstart. }
  done.
Qed.

Lemma handleFathomWebhook_never_correlates_witness :
  ∃ meetingData,
    Fathom.processFathomWebhook scenario_recording (Some scenario_transcript)
    = inr meetingData
    ∧ meetingData !! "guestEmail" = Some "a@x.com"
    ∧ emailsAlign (Booking.stamp booking_E1 scenario_booked_at)
        (meetingData !! "guestEmail") None = true
    ∧ Fathom.correlate (H := ReferenceHost.host) scenario_now meetingData
        scenario_bookings
      = (None, cleanup scenario_now scenario_bookings).
Proof.
  eexists. split; [reflexivity|]. split; [reflexivity|].
  split; [reflexivity|].
  by apply (handleFathomWebhook_never_correlates (H := ReferenceHost.host)
              scenario_recording (Some scenario_transcript)).
Defined.

Lemma find_first {A} (f : A → bool) before a after :
  Forall (λ b, f b = false) before → f a = true →
  List.find f (before ++ a :: after) = Some a.
Proof.
  intros Hbefore Ha. induction Hbefore as [|b before Hb _ IH]; simpl.
  - by rewrite Ha.
  - by rewrite Hb.
Qed.

Lemma find_none {A} (f : A → bool) l :
  (∀ a, a ∈ l → f a = false) → List.find f l = None.
Proof.
  intros Hall. induction l as [|a l IH]; [done|]. simpl.
  rewrite (Hall a) by apply list_elem_of_here.
  apply IH. intros b Hb. apply Hall. by apply list_elem_of_further.
Qed.

(** X19.  The guest of a recording.  [processFathomWebhook] returns only
    with a non-empty guest email.  It is the email of the first attendee
    whose email is present and differs from the host's, when there is
    one, and then it is not the host's.  When no attendee qualifies the
    first attendee stands in: the guest email is then the host's own
    email or the payload's [guest_email]. *)
Theorem processFathomWebhook_guest
    (p : Fathom.payload) (transcript : option string)
    (meetingData : Fathom.object) :
  Fathom.processFathomWebhook p transcript = inr meetingData →
  ∃ guestEmail,
    meetingData !! "guestEmail" = Some guestEmail
    ∧ guestEmail ≠ ""
    ∧ (∀ before a after,
         Fathom.attendees_of p = before ++ a :: after →
         Forall (λ b, Fathom.is_external (Fathom.hostEmail_of p) b = false)
           before →
         Fathom.is_external (Fathom.hostEmail_of p) a = true →
         Fathom.email_of a = Some guestEmail
         ∧ Some guestEmail ≠ Fathom.hostEmail_of p)
    ∧ ((∀ a, a ∈ Fathom.attendees_of p →
             Fathom.is_external (Fathom.hostEmail_of p) a = false) →
       Some guestEmail = Fathom.hostEmail_of p
       ∨ Some guestEmail = Fathom.guest_email p).
Proof.
  intros (t & g & _ & _ & Hguest & Hg & _ & Hmd & _)
    %processFathomWebhook_object.
  exists g. split; [done|]. split; [done|].
  unfold Fathom.guestEmail_of, Fathom.guest_of in Hguest. split.
  - intros before a after Hl Hbefore Ha.
    rewrite Hl, (find_first _ _ _ _ Hbefore Ha) in Hguest.
    unfold Fathom.is_external in Ha. apply andb_prop in Ha as [Htruthy Hne].
    unfold Calendly.or_else in Hguest at 1. rewrite Htruthy in Hguest.
    split; [done|]. rewrite <- Hguest.
    apply negb_true_iff, bool_decide_eq_false in Hne. done.
  - intros Hnone. rewrite (find_none _ _ Hnone) in Hguest.
    unfold Calendly.or_else in Hguest at 1.
    destruct (JS.truthy (Fathom.email_of _)) eqn:Htruthy; [|by right].
    left. destruct (Fathom.attendees_of p) as [|a l] eqn:Hl; [done|].
    change (default Fathom.no_attendee (head (a :: l))) with a in *.
    pose proof (Hnone a (list_elem_of_here _ _)) as Ha.
    unfold Fathom.is_external in Ha. rewrite Htruthy in Ha.
    apply negb_false_iff, bool_decide_eq_true in Ha. congruence.
Qed.

Lemma processFathomWebhook_guest_witness :
  ∃ meetingData,
    Fathom.processFathomWebhook scenario_recording (Some scenario_transcript)
    = inr meetingData
    ∧ meetingData !! "guestEmail" = Some "a@x.com"
    ∧ Some "a@x.com" ≠ Fathom.hostEmail_of scenario_recording.
Proof.
  eexists. split; [reflexivity|].
  destruct (processFathomWebhook_guest scenario_recording
              (Some scenario_transcript) _ eq_refl)
    as (g & Hg & _ & Hfirst & _).
  destruct (Hfirst
              [ {| Fathom.email := Some "host@y.com";
                   Fathom.email_address := None;
                   Fathom.name := Some "Host";
                   Fathom.display_name := None |} ]
              {| Fathom.email := None; Fathom.email_address := Some "a@x.com";
                 Fathom.name := None; Fathom.display_name := Some "Alice" |}
              [])
    as [Hmail Hne]; [reflexivity|by repeat constructor|reflexivity|].
  apply (inj Some) in Hmail. subst g. by split.
Defined.

Lemma second_piece_versioned version mac :
  JS.all (λ c, negb (Ascii.eqb c ",")) version = true →
  JS.all (λ c, negb (Ascii.eqb c ",")) mac = true →
  Fathom.second_piece (version +:+ String "," mac) = Some mac.
Proof.
  intros Hv Hm. unfold Fathom.second_piece.
  assert (JS.dropWhile (λ c, negb (Ascii.eqb c ","))
            (version +:+ String "," mac) = String "," mac) as ->.
  { induction version as [|c v IH]; [done|].
    cbn [JS.all] in Hv. apply andb_prop in Hv as [Hc Hv].
    rewrite app_cons. cbn [JS.dropWhile]. rewrite Hc. by apply IH. }
  f_equal. unfold JS.split_first.
  induction mac as [|c m IH]; [done|].
  cbn [JS.all] in Hm. apply andb_prop in Hm as [Hc Hm].
  cbn [JS.takeWhile]. rewrite Hc. by rewrite IH.
Qed.

(** X20.  The signature check of the Fathom handler.  A request is
    rejected only when it carries a signature, a secret is configured,
    and the text between the first and the second comma of the signature
    is not the HMAC of the body; so a request without a signature header
    passes whatever the secret, and the version before the comma is not
    looked at. *)
Theorem signature_check_spec
    (hmac_sha256_base64 : string → string → string)
    (signature rawBody : option string)
    (fathomConfig : Config.fathom_account) :
  (Fathom.signature_check hmac_sha256_base64 signature rawBody fathomConfig
   = true
   ↔ JS.truthy signature = false
     ∨ JS.truthy (Config.webhookSecret fathomConfig) = false
     ∨ ∃ sig body secret,
         signature = Some sig ∧ rawBody = Some body
         ∧ Config.webhookSecret fathomConfig = Some secret
         ∧ Fathom.second_piece sig = Some (hmac_sha256_base64 secret body))
  ∧ (∀ version version' mac,
       JS.all (λ c, negb (Ascii.eqb c ",")) version = true →
       JS.all (λ c, negb (Ascii.eqb c ",")) version' = true →
       JS.all (λ c, negb (Ascii.eqb c ",")) mac = true →
       signature = Some (version +:+ String "," mac) →
       Fathom.signature_check hmac_sha256_base64 signature rawBody
         fathomConfig
       = Fathom.signature_check hmac_sha256_base64
           (Some (version' +:+ String "," mac)) rawBody fathomConfig).
Proof.
  split.
  - unfold Fathom.signature_check, Fathom.verifyFathomWebhook.
    destruct (JS.truthy signature) eqn:Hsig; [|split; [by left|done]].
    destruct (Config.webhookSecret fathomConfig) as [[|c secret]|] eqn:Hsec;
      cbn [JS.truthy andb]; [split; [by auto|done]| |split; [by auto|done]].
    destruct signature as [sig|]; [|done].
    destruct rawBody as [body|].
    + rewrite bool_decide_eq_true. split.
      * intros Heq. right. right. by exists sig, body, (String c secret).
      * intros [?|[?|(sig' & body' & secret' & E1 & E2 & E3 & Heq)]];
          [done|done|].
        apply (inj Some) in E1, E2, E3. by subst.
    + split; [done|].
      intros [?|[?|(? & ? & ? & _ & ? & _)]]; done.
  - intros version version' mac Hv Hv' Hm ->.
    unfold Fathom.signature_check, Fathom.verifyFathomWebhook.
    assert (∀ v, JS.truthy (Some (v +:+ String "," mac)) = true) as Htruthy
      by (intros v; by destruct v).
    rewrite !Htruthy, !second_piece_versioned by done. done.
Qed.

Lemma signature_check_spec_witness :
  Fathom.signature_check (λ secret body, "MAC")
    (Some "v1,MAC") (Some "{}")
    {| Config.apiKey := Some "key"; Config.webhookSecret := Some "whsec" |}
  = Fathom.signature_check (λ secret body, "MAC")
      (Some "anything,MAC") (Some "{}")
      {| Config.apiKey := Some "key"; Config.webhookSecret := Some "whsec" |}.
Proof.
  destruct (signature_check_spec (λ secret body, "MAC")
              (Some "v1,MAC") (Some "{}")
              {| Config.apiKey := Some "key";
                 Config.webhookSecret := Some "whsec" |})
    as [_ Hversion].
  apply (Hversion "v1" "anything" "MAC"); reflexivity.
Defined.

(** X21.  The configuration of a Fathom account is never mixed.
    [getFathomAccountConfig] returns the account's own key and secret
    when the account is [recruitcloud] or [datalabs] and its API key is
    set, and the legacy key and secret otherwise.  So the webhook secret
    of an account whose API key is unset is not used: when the legacy
    secret is unset as well, every request for that account passes the
    signature check. *)
Theorem getFathomAccountConfig_unmixed
    (e : Config.env) (accountId : option string) :
  ((∃ account,
      accountId ≫= Config.fathomAccounts e = Some account
      ∧ JS.truthy (Config.apiKey account) = true
      ∧ Config.getFathomAccountConfig e accountId = account)
   ∨ ((∀ account,
         accountId ≫= Config.fathomAccounts e = Some account →
         JS.truthy (Config.apiKey account) = false)
      ∧ Config.getFathomAccountConfig e accountId = Config.legacy e))
  ∧ (∀ hmac_sha256_base64 signature rawBody,
       (∀ account,
          accountId ≫= Config.fathomAccounts e = Some account →
          JS.truthy (Config.apiKey account) = false) →
       JS.truthy (e "FATHOM_WEBHOOK_SECRET") = false →
       Fathom.signature_check hmac_sha256_base64 signature rawBody
         (Config.getFathomAccountConfig e accountId) = true).
Proof.
  assert ((∀ account,
             accountId ≫= Config.fathomAccounts e = Some account →
             JS.truthy (Config.apiKey account) = false) →
          Config.getFathomAccountConfig e accountId = Config.legacy e)
    as Hlegacy.
  { intros Hunset. unfold Config.getFathomAccountConfig.
    destruct (accountId ≫= Config.fathomAccounts e) as [account|]; [|done].
    by rewrite (Hunset account eq_refl). }
  split.
  - destruct (accountId ≫= Config.fathomAccounts e) as [account|] eqn:Hacc.
    + destruct (JS.truthy (Config.apiKey account)) eqn:Hkey.
      * left. exists account. split; [done|]. split; [done|].
        unfold Config.getFathomAccountConfig. by rewrite Hacc, Hkey.
      * right. split; [|apply Hlegacy]; by intros ? [= <-].
    + right. split; [done|]. by apply Hlegacy.
  - intros hmac signature rawBody Hunset Hnolegacy.
    rewrite (Hlegacy Hunset). unfold Fathom.signature_check, Config.legacy.
    cbn [Config.webhookSecret]. unfold Config.or_null. rewrite Hnolegacy.
    by rewrite andb_false_r.
Qed.

Lemma getFathomAccountConfig_unmixed_witness :
  Config.fathomAccounts secret_only_env "datalabs"
  = Some {| Config.apiKey := None; Config.webhookSecret := Some "whsec" |}
  ∧ Fathom.signature_check (λ secret body, "MAC")
      (Some "v1,forged") (Some "{}")
      (Config.getFathomAccountConfig secret_only_env (Some "datalabs"))
    = true.
Proof.
  split; [reflexivity|].
  destruct (getFathomAccountConfig_unmixed secret_only_env (Some "datalabs"))
    as [_ Hpass].
  apply Hpass; [|reflexivity].
  intros account Hacc. cbn in Hacc. injection Hacc as <-. reflexivity.
Defined.

(** ** The HeyReach and Clay handlers around the pending-lead store *)

Section EnrichmentFacts.

Import Enrichment.

Variable findPersonByLinkedIn : string → string + option string.
Variable updatePersonFields :
  string → option string → option string → string + ().
Variable createConversationNote : string → lead → string + ().

Lemma try_note_world personId l w :
  try_note createConversationNote personId l w
  = emit (CreateNote personId l) w.
Proof. unfold try_note. by destruct (createConversationNote personId l). Qed.

Lemma nonempty_spec s : nonempty s = true ↔ s ≠ "".
Proof. by destruct s. Qed.

Lemma handleHeyReachWebhook_run isoNow l w url :
  linkedinUrl l = Some url → url ≠ "" →
  ∃ notes,
    handleHeyReachWebhook findPersonByLinkedIn createConversationNote
      isoNow l w
    = ({| pendingLeads := (addPendingLead isoNow l (pendingLeads w)).2;
          effects := effects w ++ notes |},
       HeyReachStored (addPendingLead isoNow l (pendingLeads w)).1)
    ∧ (notes = []
       ∨ notes = [FindPerson url]
       ∨ ∃ personId,
           notes = [FindPerson url; CreateNote personId l]
           ∧ findPersonByLinkedIn url = inr (Some personId)
           ∧ personId ≠ "" ∧ conversation l ≠ "").
Proof.
  intros Hurl Hne. unfold handleHeyReachWebhook. rewrite Hurl.
  destruct url as [|c url]; [done|].
  destruct (addPendingLead isoNow l (pendingLeads w)) as [k store].
  cbn [fst snd]. destruct (nonempty (conversation l)) eqn:Hconv.
  - destruct (findPersonByLinkedIn (String c url))
      as [message|[[|d personId]|]] eqn:Hfind.
    1,2,4: exists [FindPerson (String c url)]; split; [done|]; right; by left.
    exists [FindPerson (String c url);
            CreateNote (String d personId) l].
    split.
    + rewrite try_note_world. unfold emit. cbn. by rewrite <- app_assoc.
    + right. right. exists (String d personId).
      repeat split; try done. by apply nonempty_spec.
  - exists []. split; [|by left]. by rewrite app_nil_r.
Qed.

End EnrichmentFacts.

(** X22.  The HeyReach handler stores before it talks to the CRM, and
    reports success whatever either does.  On a lead with a profile URL
    the store and the answer are those of [addPendingLead], for every
    behaviour of the CRM; the answer is a success even when
    [addPendingLead] stored nothing, which happens exactly when
    normalizing the lead's already normalized URL once more leaves nothing.
    A note is written only for a lead with a conversation whose profile
    the CRM found. *)
Theorem handleHeyReachWebhook_stores_first
    (findPersonByLinkedIn : string → string + option string)
    (createConversationNote : string → lead → string + ())
    (isoNow : string) (l : lead) (w : Enrichment.world) :
  let res :=
    Enrichment.handleHeyReachWebhook findPersonByLinkedIn
      createConversationNote isoNow l w in
  (JS.truthy (linkedinUrl l) = false → res = (w, Enrichment.HeyReachMissingUrl))
  ∧ (JS.truthy (linkedinUrl l) = true →
     Enrichment.pendingLeads res.1
     = (addPendingLead isoNow l (Enrichment.pendingLeads w)).2
     ∧ res.2
       = Enrichment.HeyReachStored
           (addPendingLead isoNow l (Enrichment.pendingLeads w)).1
     ∧ ((res.2 = Enrichment.HeyReachStored None
         ∧ Enrichment.pendingLeads res.1 = Enrichment.pendingLeads w)
        ↔ JS.truthy (normalizeLinkedInUrl (linkedinUrl l)) = false))
  ∧ (∀ personId l',
       Enrichment.CreateNote personId l' ∈ Enrichment.effects res.1 →
       Enrichment.CreateNote personId l' ∈ Enrichment.effects w
       ∨ (l' = l ∧ conversation l ≠ "" ∧ personId ≠ ""
          ∧ ∃ url, linkedinUrl l = Some url
                   ∧ findPersonByLinkedIn url = inr (Some personId))).
Proof.
  intros res. subst res.
  destruct (linkedinUrl l) as [[|c url]|] eqn:Hurl.
  1,3: unfold Enrichment.handleHeyReachWebhook; rewrite Hurl;
    split; [done|]; split; [done|]; intros ?? Hin; by left.
  destruct (handleHeyReachWebhook_run findPersonByLinkedIn
              createConversationNote isoNow l w (String c url) Hurl)
    as (notes & -> & Hnotes); [done|].
  cbn [fst snd Enrichment.pendingLeads Enrichment.effects].
  split; [done|]. split.
  - intros _. split; [done|]. split; [done|].
    unfold addPendingLead. rewrite Hurl.
    destruct (normalizeLinkedInUrl (Some (String c url))) as [[|d k]|];
      cbn [fst snd JS.truthy]; split; try done.
    intros [Heq _]. discriminate Heq.
  - intros personId l' [Hin|Hin]%elem_of_app; [by left|]. right.
    destruct Hnotes as [->|[->|(pid & -> & Hfind & Hpid & Hconv)]].
    + by apply elem_of_nil in Hin.
    + apply list_elem_of_singleton in Hin. discriminate Hin.
    + apply elem_of_cons in Hin as [Hin|Hin]; [discriminate Hin|].
      apply list_elem_of_singleton in Hin. injection Hin as -> ->.
      repeat split; try done. by exists (String c url).
Qed.

Lemma handleHeyReachWebhook_stores_first_witness :
  let l := {| linkedinUrl := normalizeLinkedInUrl (Some "/ /");
              name := "John Doe"; firstName := "John"; lastName := "Doe";
              company := ""; title := ""; conversation := "";
              taggedAt := ""; tag := "interested"; addedAt := None |} in
  let res :=
    Enrichment.handleHeyReachWebhook scenario_findPerson failing_createNote
      "2024-01-15T17:00:00.000Z" l
      {| Enrichment.pendingLeads := ∅; Enrichment.effects := [] |} in
  res.2 = Enrichment.HeyReachStored None
  ∧ Enrichment.pendingLeads res.1 = ∅.
Proof.
  intros l res.
  destruct (handleHeyReachWebhook_stores_first scenario_findPerson
              failing_createNote "2024-01-15T17:00:00.000Z" l
              {| Enrichment.pendingLeads := ∅; Enrichment.effects := [] |})
    as (_ & Hstored & _).
  destruct (Hstored eq_refl) as (_ & _ & Hnothing).
  apply Hnothing. reflexivity.
Defined.

Section ClayFacts.

Import Enrichment.

Variable findPersonByLinkedIn : string → string + option string.
Variable updatePersonFields :
  string → option string → option string → string + ().
Variable createConversationNote : string → lead → string + ().

Local Abbreviation handleClay :=
  (handleClayWebhook findPersonByLinkedIn updatePersonFields
     createConversationNote).

(** Every run of the Clay handler. *)
Lemma handleClayWebhook_cases enrichedData w :
  (pendingLeads (handleClay enrichedData w).1 = pendingLeads w
   ∧ (∀ personId l, CreateNote personId l ∈ effects (handleClay enrichedData w).1
                    → CreateNote personId l ∈ effects w)
   ∧ ∀ personId email phone noteAdded,
       (handleClay enrichedData w).2
       ≠ inr (ClaySuccess personId email phone noteAdded))
  ∨ (∃ url personId notes,
       enriched_linkedinUrl enrichedData = Some url ∧ url ≠ ""
       ∧ findPersonByLinkedIn url = inr (Some personId) ∧ personId ≠ ""
       ∧ updatePersonFields personId (enriched_email enrichedData)
           (enriched_phone enrichedData) = inr ()
       ∧ handleClay enrichedData w
         = ({| pendingLeads := (getPendingLead (Some url) (pendingLeads w)).2;
               effects :=
                 effects w
                 ++ [FindPerson url;
                     UpdatePerson personId (enriched_email enrichedData)
                       (enriched_phone enrichedData)]
                 ++ notes |},
            inr (ClaySuccess personId (enriched_email enrichedData)
                   (enriched_phone enrichedData)
                   (bool_decide (notes ≠ []))))
       ∧ match (getPendingLead (Some url) (pendingLeads w)).1 with
         | Some l =>
             if nonempty (conversation l)
             then notes = [CreateNote personId l]
             else notes = []
         | None => notes = []
         end).
Proof.
  unfold handleClayWebhook.
  destruct (enriched_linkedinUrl enrichedData) as [[|c url]|] eqn:Hurl.
  1,3: left; by repeat split.
  assert (∀ personId l,
            CreateNote personId l ∈ effects w ++ [FindPerson (String c url)] →
            CreateNote personId l ∈ effects w) as Hfindonly.
  { intros personId l [Hin|Hin]%elem_of_app; [done|].
    apply list_elem_of_singleton in Hin. discriminate Hin. }
  destruct (findPersonByLinkedIn (String c url))
    as [message|[[|d personId]|]] eqn:Hfind.
  1,2,4: left; by repeat split.
  destruct (updatePersonFields _ _ _) as [message|[]] eqn:Hupdate.
  { left. split; [done|]. split; [|done]. cbn.
    intros pid l [Hin|Hin]%elem_of_app; [by apply Hfindonly|].
    apply list_elem_of_singleton in Hin. discriminate Hin. }
  right. exists (String c url), (String d personId).
  cbn [emit pendingLeads effects].
  destruct (getPendingLead (Some (String c url)) (pendingLeads w))
    as [[l|] store] eqn:Hget; cbn [fst snd].
  - destruct (nonempty (conversation l)) eqn:Hconv.
    + exists [CreateNote (String d personId) l].
      repeat split; try done.
      rewrite try_note_world. unfold emit. cbn [pendingLeads effects].
      by rewrite <- !app_assoc.
    + exists []. repeat split; try done.
      by rewrite app_nil_r, <- app_assoc.
  - exists []. repeat split; try done.
    by rewrite app_nil_r, <- app_assoc.
Qed.

End ClayFacts.

(** X23.  The Clay handler consumes the pending lead exactly when it
    succeeds, whether or not a note is written.  On success the store is
    the one [getPendingLead] leaves; [noteAdded] says that a lead with a
    conversation was found, not that the note was written: a failing
    [createConversationNote] changes neither the answer, nor the store,
    nor the calls made.  On every other outcome, an error included, the
    store is untouched. *)
Theorem handleClayWebhook_consumes
    (findPersonByLinkedIn : string → string + option string)
    (updatePersonFields : string → option string → option string → string + ())
    (createConversationNote : string → lead → string + ())
    (enrichedData : Enrichment.enriched) (w : Enrichment.world) :
  let res :=
    Enrichment.handleClayWebhook findPersonByLinkedIn updatePersonFields
      createConversationNote enrichedData w in
  (∀ personId email phone noteAdded,
     res.2 = inr (Enrichment.ClaySuccess personId email phone noteAdded) →
     Enrichment.pendingLeads res.1
     = (getPendingLead (Enrichment.enriched_linkedinUrl enrichedData)
          (Enrichment.pendingLeads w)).2
     ∧ (noteAdded = true
        ↔ ∃ l, (getPendingLead (Enrichment.enriched_linkedinUrl enrichedData)
                  (Enrichment.pendingLeads w)).1 = Some l
               ∧ conversation l ≠ ""))
  ∧ ((∀ personId email phone noteAdded,
        res.2 ≠ inr (Enrichment.ClaySuccess personId email phone noteAdded)) →
     Enrichment.pendingLeads res.1 = Enrichment.pendingLeads w)
  ∧ (∀ createConversationNote',
       Enrichment.handleClayWebhook findPersonByLinkedIn updatePersonFields
         createConversationNote' enrichedData w
       = res).
Proof.
  intros res. subst res. split; [|split].
  - intros personId email phone noteAdded Hres.
    destruct (handleClayWebhook_cases findPersonByLinkedIn updatePersonFields
                createConversationNote enrichedData w)
      as [(_ & _ & Hnot)|(url & pid & notes & Hurl & _ & _ & _ & _ & Hrun
                          & Hnotes)].
    { by destruct (Hnot personId email phone noteAdded). }
    rewrite Hrun in Hres |- *. cbn [fst snd Enrichment.pendingLeads] in *.
    injection Hres as _ _ _ <-. rewrite Hurl. split; [done|].
    rewrite bool_decide_eq_true.
    destruct (getPendingLead (Some url) (Enrichment.pendingLeads w)).1
      as [l|].
    + destruct (Enrichment.nonempty (conversation l)) eqn:Hconv; subst notes.
      * split; [|done]. intros _. exists l. split; [done|].
        by apply nonempty_spec.
      * split; [done|]. intros (l' & [= <-] & Hne).
        apply nonempty_spec in Hne. congruence.
    + subst notes. split; [done|]. by intros (? & ? & _).
  - intros Hnot.
    destruct (handleClayWebhook_cases findPersonByLinkedIn updatePersonFields
                createConversationNote enrichedData w)
      as [(Hstore & _)|(url & pid & notes & _ & _ & _ & _ & _ & Hrun & _)];
      [done|].
    rewrite Hrun in Hnot. exfalso. by eapply Hnot.
  - intros createConversationNote'. unfold Enrichment.handleClayWebhook.
    destruct (Enrichment.enriched_linkedinUrl enrichedData) as [[|c url]|];
      try done.
    destruct (findPersonByLinkedIn _) as [?|[[|d personId]|]]; try done.
    destruct (updatePersonFields _ _ _) as [?|[]]; try done.
    destruct (getPendingLead _ _) as [[l|] store]; try done.
    destruct (Enrichment.nonempty _); [|done].
    by rewrite !try_note_world.
Qed.

Lemma handleClayWebhook_consumes_witness :
  let res :=
    Enrichment.handleClayWebhook scenario_findPerson scenario_updatePerson
      failing_createNote
      (Enrichment.extractClayData (Some "linkedin.com/in/johndoe/")
         (Some " John@Acme.com ") None)
      {| Enrichment.pendingLeads := scenario_pendingLeads;
         Enrichment.effects := [] |} in
  res.2 = inr (Enrichment.ClaySuccess "person-1" (Some "john@acme.com") None
                 true)
  ∧ Enrichment.pendingLeads res.1
    = (getPendingLead (Some "https://www.linkedin.com/in/johndoe")
         scenario_pendingLeads).2.
Proof.
  intros res. split; [reflexivity|].
  destruct (handleClayWebhook_consumes scenario_findPerson
              scenario_updatePerson failing_createNote
              (Enrichment.extractClayData (Some "linkedin.com/in/johndoe/")
                 (Some " John@Acme.com ") None)
              {| Enrichment.pendingLeads := scenario_pendingLeads;
                 Enrichment.effects := [] |})
    as (Hsuccess & _).
  by destruct (Hsuccess "person-1" (Some "john@acme.com") None true eq_refl).
Defined.



(** ** The summarizer *)





(** ** What the Clay handler passes on *)





